(** * graphql-compose: ObjectTypeComposer

    A shallow embedding of the field model, the List/NonNull wrapper
    operations and the relation compiler of [src/ObjectTypeComposer.js],
    followed by the properties of these operations.

    Conventions of the embedding.
    - A JavaScript object used as a map is an ordered list of own
      properties with unique keys ([JS.Obj]); key enumeration is insertion
      order, which is what [Object.keys] gives for GraphQL names (none of
      them is an integer index). A read [o[k]] finds an own property or,
      failing that, the member of [Object.prototype] of that name
      ([JS.read]); [Object.keys], [delete] and the spread of an object
      see own properties only. The members of [Object.prototype] are
      taken as a fresh realm has them: none carries a [type], [args] or
      [extensions] property. An assignment to a property of such a
      member, which a wrapper of types makes when it is given the
      member's name, changes no composer and is not modelled.
    - Field and argument configs are held by value: a config object is
      taken to be reachable from one place of one field map only.
    - A method of the composer is a computation in the monad [M]: it takes
      the composer's state and gives back a completion (normal return or
      thrown error) together with the state as the call left it. A thrown
      error does not undo the mutations made before it.
    - A promise is represented by its settlement ([Fulfilled] or
      [Rejected]); promises that never settle are outside the model. *)

From Stdlib Require Import Ascii String List ZArith Bool Lia Permutation.
Import ListNotations.
Local Open Scope string_scope.
Local Open Scope list_scope.
Set Warnings "-register-all".

(* ===================================================================== *)
(** * JavaScript values, completions and objects *)
(* ===================================================================== *)

Module JS.

(** Plain data values. [VError m] stands for [new Error(m)]. *)
Inductive Value : Type :=
| VUndefined
| VNull
| VBool (b : bool)
| VNum (n : Z)
| VStr (s : string)
| VError (message : string)
| VObj (props : list (string * Value)).

(** ToBoolean, as used by [||], [!] and [if]. *)
Definition truthy (v : Value) : bool :=
  match v with
  | VUndefined | VNull => false
  | VBool b => b
  | VNum n => negb (Z.eqb n 0)
  | VStr s => negb (String.eqb s "")
  | VError _ | VObj _ => true
  end.

(** The result of evaluating a call: it returns or it throws. *)
Inductive Completion (A : Type) : Type :=
| Returns (a : A)
| Throws (e : Value).
Arguments Returns {A} a.
Arguments Throws {A} e.

(** An object used as a map: own properties in enumeration order. *)
Definition Obj (A : Type) : Type := list (string * A).

(** The properties of [Object.prototype], which every plain object
    inherits. Each is a function, except [__proto__], which reads as
    [Object.prototype] itself: all of them are truthy. *)
Definition prototypeMembers : list string :=
  ["constructor"; "hasOwnProperty"; "isPrototypeOf"; "propertyIsEnumerable";
   "toLocaleString"; "toString"; "valueOf"; "__proto__";
   "__defineGetter__"; "__defineSetter__"; "__lookupGetter__";
   "__lookupSetter__"].

Definition inPrototype (k : string) : bool :=
  existsb (String.eqb k) prototypeMembers.

(** What a read of a plain object finds: a value the object holds under
    the name, or the member of [Object.prototype] of that name. *)
Inductive Found (A : Type) : Type :=
| Own (v : A)
| Inherited (k : string).
Arguments Own {A} v.
Arguments Inherited {A} k.

Section Objects.
Context {A : Type}.

(** [o[k]] on own properties. *)
Fixpoint get (k : string) (o : Obj A) : option A :=
  match o with
  | [] => None
  | (k', v) :: rest => if String.eqb k k' then Some v else get k rest
  end.

(** [o[k] = v]: an existing key keeps its position, a new key goes last. *)
Fixpoint set (k : string) (v : A) (o : Obj A) : Obj A :=
  match o with
  | [] => [(k, v)]
  | (k', v') :: rest =>
      if String.eqb k k' then (k, v) :: rest else (k', v') :: set k v rest
  end.

(** [delete o[k]]. *)
Fixpoint delete (k : string) (o : Obj A) : Obj A :=
  match o with
  | [] => []
  | (k', v) :: rest =>
      if String.eqb k k' then delete k rest else (k', v) :: delete k rest
  end.

(** [Object.keys(o)]. *)
Definition keys (o : Obj A) : list string := map fst o.

(** Whether [o] has an own property [k]. *)
Definition has (k : string) (o : Obj A) : bool :=
  match get k o with Some _ => true | None => false end.

(** [{ ...a, ...b }]. *)
Definition spread (a b : Obj A) : Obj A :=
  fold_left (fun acc kv => set (fst kv) (snd kv) acc) b a.

(** The representation invariant of an object: keys are unique. *)
Definition wf (o : Obj A) : Prop := NoDup (keys o).

(** [o[k]] on a plain object: the own property, else the member of
    [Object.prototype]; [None] stands for [undefined]. *)
Definition read (k : string) (o : Obj A) : option (Found A) :=
  match get k o with
  | Some v => Some (Own v)
  | None => if inPrototype k then Some (Inherited k) else None
  end.

(** [k in o]; for an object whose values are themselves objects this is
    also [!!o[k]], every member of [Object.prototype] being truthy. *)
Definition isIn (k : string) (o : Obj A) : bool :=
  match read k o with Some _ => true | None => false end.

(** [o[k] = v]. On an object without an own property [__proto__] the
    assignment to that name runs the setter of [Object.prototype]: the
    object gets no own property. *)
Definition assign (k : string) (v : A) (o : Obj A) : Obj A :=
  if String.eqb k "__proto__" && negb (has k o) then o else set k v o.

End Objects.

(** [o[k]] on an object whose places may themselves hold members of
    [Object.prototype]. *)
Definition readFound {A : Type} (k : string) (o : Obj (Found A))
    : option (Found A) :=
  match get k o with
  | Some v => Some v
  | None => if inPrototype k then Some (Inherited k) else None
  end.

(** [names.indexOf(name) === -1] *)
Definition notIndexOf (name : string) (names : list string) : bool :=
  negb (existsb (String.eqb name) names).

(** Property access [v.k] on a value; [undefined] when [v] has no such
    own property. *)
Definition prop (k : string) (v : Value) : Value :=
  match v with
  | VObj props => match get k props with Some x => x | None => VUndefined end
  | _ => VUndefined
  end.

End JS.

Import JS.

(* ===================================================================== *)
(** * Type wrappers *)
(* ===================================================================== *)

(** A field or argument type as the composers hold it: a named type
    composer, possibly under [ListComposer], [NonNullComposer] and
    [ThunkComposer] layers. The classes themselves are imported by the
    source file; only [instanceof] tests, [ofType] and the constructors
    are used on them. *)
Inductive ComposeType : Type :=
| NamedTC (name : string)
| ListComposer (ofType : ComposeType)
| NonNullComposer (ofType : ComposeType)
| ThunkComposer (thunk : unit -> ComposeType).

(** [t instanceof NonNullComposer] *)
Definition isNonNullComposer (t : ComposeType) : bool :=
  match t with NonNullComposer _ => true | _ => false end.

(** [t instanceof ListComposer] *)
Definition isListComposer (t : ComposeType) : bool :=
  match t with ListComposer _ => true | _ => false end.

(** [t.ofType] for a list or non-null wrapper. *)
Definition ofType (t : ComposeType) : ComposeType :=
  match t with
  | ListComposer u | NonNullComposer u => u
  | ThunkComposer th => th tt
  | NamedTC _ => t
  end.

(* ===================================================================== *)
(** * Field and argument configs *)
(* ===================================================================== *)

(** What [console.log] has printed, oldest entry first. *)
Inductive LogEntry : Type :=
| LogText (s : string)
| LogValue (v : Value).

Definition Console : Type := list LogEntry.

(** What a resolve function hands back: a plain value or a promise. *)
Inductive Payload : Type :=
| Plain (v : Value)
| Fulfilled (v : Value)
| Rejected (e : Value).

(** [GraphQLFieldResolver]: [(source, args, context, info) => payload].
    The console is threaded through the call. *)
Definition ResolveFn : Type :=
  Value -> Obj Value -> Value -> Value -> Console ->
  Completion Payload * Console.

(** [ObjectTypeComposerArgumentConfig] *)
Record ArgConfig : Type := mkArgConfig {
  ac_type : ComposeType;
  ac_defaultValue : option Value;
  ac_description : option Value;
  ac_extensions : option (Obj Value)
}.

Definition ArgsMap : Type := Obj ArgConfig.

(** [ObjectTypeComposerFieldConfig]. An optional key is [None] when the
    object has no such own property; [fc_other] holds the own properties
    that are not listed ([subscribe], [astNode], custom keys). *)
Record FieldConfig : Type := mkFieldConfig {
  fc_type : ComposeType;
  fc_args : option ArgsMap;
  fc_resolve : option ResolveFn;
  fc_deprecationReason : option Value;
  fc_description : option Value;
  fc_extensions : option (Obj Value);
  fc_projection : option Value;
  fc_other : Obj Value
}.

(** A type given by notation (['[Int]!']) or as a composer. *)
Inductive TypeDefinition : Type :=
| TypeAsString (s : string)
| TypeAsComposer (t : ComposeType).

(** [ObjectTypeComposerArgumentConfigDefinition] *)
Inductive ArgConfigDefinition : Type :=
| ArgAsType (t : TypeDefinition)
| ArgAsObject (t : TypeDefinition) (defaultValue description : option Value)
    (extensions : option (Obj Value)).

(** [ObjectTypeComposerFieldConfigAsObjectDefinition], also the type of
    the partial config given to [extendField]: every key is optional. *)
Record FieldConfigAsObjectDefinition : Type := mkFieldDef {
  d_type : option TypeDefinition;
  d_args : option (Obj ArgConfigDefinition);
  d_resolve : option ResolveFn;
  d_deprecationReason : option Value;
  d_description : option Value;
  d_extensions : option (Obj Value);
  d_projection : option Value;
  d_other : Obj Value
}.

(** [ObjectTypeComposerFieldConfigDefinition] *)
Inductive FieldConfigDefinition : Type :=
| FieldAsType (t : TypeDefinition)
| FieldAsObject (o : FieldConfigAsObjectDefinition).

(** The empty partial config [{}]. *)
Definition emptyDef : FieldConfigAsObjectDefinition :=
  mkFieldDef None None None None None None None [].

(** A normalized argument config read as a definition (the same object). *)
Definition argAsDefinition (ac : ArgConfig) : ArgConfigDefinition :=
  ArgAsObject (TypeAsComposer (ac_type ac)) (ac_defaultValue ac)
    (ac_description ac) (ac_extensions ac).

(** A normalized field config read as a definition (the same object). *)
Definition asDefinition (fc : FieldConfig) : FieldConfigAsObjectDefinition :=
  {| d_type := Some (TypeAsComposer (fc_type fc));
     d_args := option_map (map (fun kv => (fst kv, argAsDefinition (snd kv))))
                 (fc_args fc);
     d_resolve := fc_resolve fc;
     d_deprecationReason := fc_deprecationReason fc;
     d_description := fc_description fc;
     d_extensions := fc_extensions fc;
     d_projection := fc_projection fc;
     d_other := fc_other fc |}.

(** [field.type], [field.args] and [field.extensions] of a value read
    from the field map; [None] stands for [undefined], which is what a
    member of [Object.prototype] gives. *)
Definition typeOf (field : Found FieldConfig) : option ComposeType :=
  match field with
  | Own fc => Some (fc_type fc)
  | Inherited _ => None
  end.

Definition argsOf (field : Found FieldConfig) : option ArgsMap :=
  match field with
  | Own fc => fc_args fc
  | Inherited _ => None
  end.

Definition extensionsOf (field : Found FieldConfig) : option (Obj Value) :=
  match field with
  | Own fc => fc_extensions fc
  | Inherited _ => None
  end.

(** [arg.type] of a value read from an argument map. *)
Definition argTypeOf (arg : Found ArgConfig) : option ComposeType :=
  match arg with
  | Own ac => Some (ac_type ac)
  | Inherited _ => None
  end.

(** The own enumerable properties of a value read from the field map, as
    the spread [{ ...field }] copies them: the keys of a field config; a
    member of [Object.prototype] has none. *)
Definition spreadOf (field : Found FieldConfig)
    : FieldConfigAsObjectDefinition :=
  match field with
  | Own fc => asDefinition fc
  | Inherited _ => emptyDef
  end.

(** [a.k] overridden by [b.k] when [b] has the key, as in [{...a, ...b}]. *)
Definition over {A : Type} (b a : option A) : option A :=
  match b with Some _ => b | None => a end.

(** [x || {}] for an optional object. *)
Definition orEmpty {A : Type} (x : option (Obj A)) : Obj A :=
  match x with Some o => o | None => [] end.

(* ===================================================================== *)
(** * The composer and its methods *)
(* ===================================================================== *)

Module Composer.

(** The part of an [ObjectTypeComposer] the field methods read and write:
    the name of [_gqType] and the field map [_gqcFields]. *)
Record State : Type := mkState {
  typeName : string;
  _gqcFields : Obj FieldConfig
}.

Definition withFields (fields : Obj FieldConfig) (s : State) : State :=
  {| typeName := typeName s; _gqcFields := fields |}.

(** A method call: state in, completion and state out. *)
Definition M (A : Type) : Type := State -> Completion A * State.

Definition ret {A : Type} (a : A) : M A := fun s => (Returns a, s).

Definition bind {A B : Type} (m : M A) (k : A -> M B) : M B :=
  fun s =>
    match m s with
    | (Returns a, s') => k a s'
    | (Throws e, s') => (Throws e, s')
    end.

(** [throw new Error(message)] *)
Definition throwError {A : Type} (message : string) : M A :=
  fun s => (Throws (VError message), s).

(** [try { m } catch (e) { h e }] *)
Definition tryCatch {A : Type} (m : M A) (h : Value -> M A) : M A :=
  fun s =>
    match m s with
    | (Returns a, s') => (Returns a, s')
    | (Throws e, s') => h e s'
    end.

Definition gets {A : Type} (f : State -> A) : M A :=
  fun s => (Returns (f s), s).

Definition modify (f : State -> State) : M unit :=
  fun s => (Returns tt, f s).

Declare Scope composer_scope.
Delimit Scope composer_scope with composer.
Notation "x <- m ;; k" := (bind m (fun x => k))
  (at level 61, m at next level, right associativity) : composer_scope.
Notation "m ;;; k" := (bind m (fun _ => k))
  (at level 61, right associativity) : composer_scope.
Local Open Scope composer_scope.

(** [xs.forEach(f)]; a throw in [f] ends the loop. *)
Fixpoint forEach {A : Type} (xs : list A) (f : A -> M unit) : M unit :=
  match xs with
  | [] => ret tt
  | x :: rest => f x ;;; forEach rest f
  end.

(** A [string | string[]] parameter. *)
Inductive NameOrArray : Type :=
| OneName (name : string)
| NameArray (names : list string).

(** [Array.isArray(x) ? x : [x]] *)
Definition asArray (x : NameOrArray) : list string :=
  match x with
  | OneName name => [name]
  | NameArray names => names
  end.

(** ** Field methods *)

Definition getTypeName : M string := gets typeName.

Definition getFields : M (Obj FieldConfig) := gets _gqcFields.

Definition getFieldNames : M (list string) :=
  gets (fun s => keys (_gqcFields s)).

(** [this._gqcFields[fieldName]] is a plain read: for a name that is no
    field but that of a member of [Object.prototype], [field] is that
    member, which is truthy, and [getField] returns it. *)
Definition getField (fieldName : string) : M (Found FieldConfig) :=
  fields <- gets _gqcFields ;;
  match read fieldName fields with
  | None =>
      tn <- getTypeName ;;
      throwError ("Cannot get field '" ++ fieldName ++ "' from type '" ++ tn
                  ++ "'. Field does not exist.")
  | Some field => ret field
  end.

Definition hasField (fieldName : string) : M bool :=
  gets (fun s => isIn fieldName (_gqcFields s)).

(** The field config [fc] after [fc.type = t]. *)
Definition withType (fc : FieldConfig) (t : ComposeType) : FieldConfig :=
  {| fc_type := t;
     fc_args := fc_args fc;
     fc_resolve := fc_resolve fc;
     fc_deprecationReason := fc_deprecationReason fc;
     fc_description := fc_description fc;
     fc_extensions := fc_extensions fc;
     fc_projection := fc_projection fc;
     fc_other := fc_other fc |}.

(** [fc.type = t] on the field config stored under [fieldName]. *)
Definition assignFieldType (fieldName : string) (fc : FieldConfig)
    (t : ComposeType) : M unit :=
  modify (fun s =>
    withFields (set fieldName (withType fc t) (_gqcFields s)) s).

Definition removeField (fieldNameOrArray : NameOrArray) : M unit :=
  let fieldNames := asArray fieldNameOrArray in
  forEach fieldNames (fun fieldName =>
    modify (fun s => withFields (delete fieldName (_gqcFields s)) s)).

(** The field map as [reorderFields] can leave it: a place holds a field
    config or a member of [Object.prototype] that the loop has copied
    into it. *)
Definition RawFields : Type := Obj (Found FieldConfig).

(** The field map of a composer, every place holding its field config. *)
Definition rawFields (fields : Obj FieldConfig) : RawFields :=
  map (fun kv => (fst kv, Own (snd kv))) fields.

(** One iteration of the loop of [reorderFields], on the pair of
    [orderedFields] and [fields]: [fields[name]] is a plain read, truthy
    for a field and for a member of [Object.prototype]. *)
Definition reorderStep (acc : RawFields * RawFields) (name : string)
    : RawFields * RawFields :=
  let (orderedFields, fields) := acc in
  match readFound name fields with
  | Some field => (assign name field orderedFields, delete name fields)
  | None => (orderedFields, fields)
  end.

(** [reorderFields] reads and replaces the field map and nothing else, and
    it cannot throw: it is given as the function from the field map it
    finds to the one it leaves. *)
Definition reorderFields (names : list string) (_gqcFields : RawFields)
    : RawFields :=
  let (orderedFields, fields) :=
    fold_left reorderStep names ([], _gqcFields) in
  spread orderedFields fields.

Definition isFieldNonNull (fieldName : string) : M bool :=
  field <- getField fieldName ;;
  ret (match typeOf field with
       | Some type => isNonNullComposer type
       | None => false
       end).

Definition makeFieldNonNull (fieldNameOrArray : NameOrArray) : M unit :=
  let fieldNames := asArray fieldNameOrArray in
  forEach fieldNames (fun fieldName =>
    fields <- gets _gqcFields ;;
    match get fieldName fields with
    | Some fc =>
        if negb (isNonNullComposer (fc_type fc))
        then assignFieldType fieldName fc (NonNullComposer (fc_type fc))
        else ret tt
    | None => ret tt
    end).

Definition makeFieldNullable (fieldNameOrArray : NameOrArray) : M unit :=
  let fieldNames := asArray fieldNameOrArray in
  forEach fieldNames (fun fieldName =>
    fields <- gets _gqcFields ;;
    match get fieldName fields with
    | Some fc =>
        if isNonNullComposer (fc_type fc)
        then assignFieldType fieldName fc (ofType (fc_type fc))
        else ret tt
    | None => ret tt
    end).

Definition isFieldPlural (fieldName : string) : M bool :=
  field <- getField fieldName ;;
  ret (match typeOf field with
       | Some type =>
           isListComposer type
           || (isNonNullComposer type && isListComposer (ofType type))
       | None => false
       end).

Definition makeFieldPlural (fieldNameOrArray : NameOrArray) : M unit :=
  let fieldNames := asArray fieldNameOrArray in
  forEach fieldNames (fun fieldName =>
    fields <- gets _gqcFields ;;
    match get fieldName fields with
    | Some fc =>
        if negb (isListComposer (fc_type fc))
        then assignFieldType fieldName fc (ListComposer (fc_type fc))
        else ret tt
    | None => ret tt
    end).

Definition makeFieldNonPlural (fieldNameOrArray : NameOrArray) : M unit :=
  let fieldNames := asArray fieldNameOrArray in
  forEach fieldNames (fun fieldName =>
    fields <- gets _gqcFields ;;
    match get fieldName fields with
    | Some fc =>
        if isListComposer (fc_type fc)
        then assignFieldType fieldName fc (ofType (fc_type fc))
        else if isNonNullComposer (fc_type fc)
                && isListComposer (ofType (fc_type fc))
        then assignFieldType fieldName fc
               (if isNonNullComposer (ofType (ofType (fc_type fc)))
                then ofType (ofType (fc_type fc))
                else NonNullComposer (ofType (ofType (fc_type fc))))
        else ret tt
    | None => ret tt
    end).

(** ** Methods that go through the type mapper *)

Section WithTypeMapper.

(** [schemaComposer.typeMapper.convertOutputFieldConfig]: the TypeMapper
    class is imported by the source file and is taken as given. It
    normalizes a field definition or throws. *)
Variable convertOutputFieldConfig :
  FieldConfigDefinition -> Completion FieldConfig.

Definition setField (fieldName : string) (fieldConfig : FieldConfigDefinition)
    : M unit :=
  match convertOutputFieldConfig fieldConfig with
  | Throws e => fun s => (Throws e, s)
  | Returns fc =>
      modify (fun s => withFields (set fieldName fc (_gqcFields s)) s)
  end.

(** The object literal built by [extendField]:
    [{ ...prevFieldConfig, ...partialFieldConfig,
       extensions: { ...(prevFieldConfig.extensions || {}),
                     ...(partialFieldConfig.extensions || {}) } }]. *)
Definition extendedConfig (prevFieldConfig : Found FieldConfig)
    (partialFieldConfig : FieldConfigAsObjectDefinition)
    : FieldConfigAsObjectDefinition :=
  let prev := spreadOf prevFieldConfig in
  {| d_type := over (d_type partialFieldConfig) (d_type prev);
     d_args := over (d_args partialFieldConfig) (d_args prev);
     d_resolve := over (d_resolve partialFieldConfig) (d_resolve prev);
     d_deprecationReason :=
       over (d_deprecationReason partialFieldConfig)
            (d_deprecationReason prev);
     d_description :=
       over (d_description partialFieldConfig) (d_description prev);
     d_extensions :=
       Some (spread (orEmpty (extensionsOf prevFieldConfig))
                    (orEmpty (d_extensions partialFieldConfig)));
     d_projection :=
       over (d_projection partialFieldConfig) (d_projection prev);
     d_other := spread (d_other prev) (d_other partialFieldConfig) |}.

Definition extendField (fieldName : string)
    (partialFieldConfig : FieldConfigAsObjectDefinition) : M unit :=
  prevFieldConfig <-
    tryCatch (getField fieldName)
      (fun _ =>
         tn <- getTypeName ;;
         throwError ("Cannot extend field '" ++ fieldName ++ "' from type '"
                     ++ tn ++ "'. Field does not exist.")) ;;
  setField fieldName
    (FieldAsObject (extendedConfig prevFieldConfig partialFieldConfig)).

(** The parameter of [deprecateFields]:
    [{ [fieldName: string]: string } | string[] | string]. *)
Inductive DeprecateFieldsArg : Type :=
| DeprecateMap (fieldMap : Obj string)
| DeprecateArray (fields : list string)
| DeprecateString (field : string).

(** The partial config [{ deprecationReason }]. *)
Definition deprecationDef (deprecationReason : string)
    : FieldConfigAsObjectDefinition :=
  {| d_type := None;
     d_args := None;
     d_resolve := None;
     d_deprecationReason := Some (VStr deprecationReason);
     d_description := None;
     d_extensions := None;
     d_projection := None;
     d_other := [] |}.

Definition deprecateFields (fields : DeprecateFieldsArg) : M unit :=
  existedFieldNames <- getFieldNames ;;
  match fields with
  | DeprecateString field =>
      (if notIndexOf field existedFieldNames
       then tn <- getTypeName ;;
            throwError ("Cannot deprecate unexisted field '" ++ field
                        ++ "' from type '" ++ tn ++ "'")
       else ret tt) ;;;
      extendField field (deprecationDef "deprecated")
  | DeprecateArray fields =>
      forEach fields (fun field =>
        (if notIndexOf field existedFieldNames
         then tn <- getTypeName ;;
              throwError ("Cannot deprecate unexisted field '" ++ field
                          ++ "' from type '" ++ tn ++ "'")
         else ret tt) ;;;
        extendField field (deprecationDef "deprecated"))
  | DeprecateMap fieldMap =>
      forEach fieldMap (fun entry =>
        let field := fst entry in
        (if notIndexOf field existedFieldNames
         then tn <- getTypeName ;;
              throwError ("Cannot deprecate unexisted field '" ++ field
                          ++ "' from type '" ++ tn ++ "'")
         else ret tt) ;;;
        let deprecationReason := snd entry in
        extendField field (deprecationDef deprecationReason))
  end.

End WithTypeMapper.

(** ** Field argument methods *)

Definition getFieldArgs (fieldName : string) : M ArgsMap :=
  tryCatch
    (fc <- getField fieldName ;;
     ret (orEmpty (argsOf fc)))
    (fun _ =>
       tn <- getTypeName ;;
       throwError ("Cannot get args from '" ++ tn ++ "." ++ fieldName
                   ++ "'. Field does not exist.")).

Definition getFieldArgNames (fieldName : string) : M (list string) :=
  args <- getFieldArgs fieldName ;;
  ret (keys args).

Definition hasFieldArg (fieldName argName : string) : M bool :=
  tryCatch
    (fieldArgs <- getFieldArgs fieldName ;;
     ret (isIn argName fieldArgs))
    (fun _ => ret false).

Definition getFieldArg (fieldName argName : string)
    : M (Found ArgConfig) :=
  fieldArgs <- getFieldArgs fieldName ;;
  match read argName fieldArgs with
  | None =>
      tn <- getTypeName ;;
      throwError ("Cannot get '" ++ tn ++ "." ++ fieldName ++ "@" ++ argName
                  ++ "'. Argument does not exist.")
  | Some arg => ret arg
  end.

Definition isFieldArgPlural (fieldName argName : string) : M bool :=
  ac <- getFieldArg fieldName argName ;;
  ret (match argTypeOf ac with
       | Some type =>
           isListComposer type
           || (isNonNullComposer type && isListComposer (ofType type))
       | None => false
       end).

Definition isFieldArgNonNull (fieldName argName : string) : M bool :=
  ac <- getFieldArg fieldName argName ;;
  ret (match argTypeOf ac with
       | Some type => isNonNullComposer type
       | None => false
       end).

(** The argument config [ac] after [ac.type = t]. *)
Definition withArgType (ac : ArgConfig) (t : ComposeType) : ArgConfig :=
  {| ac_type := t;
     ac_defaultValue := ac_defaultValue ac;
     ac_description := ac_description ac;
     ac_extensions := ac_extensions ac |}.

(** [ac.type = t] on the argument config stored under [argName]. *)
Definition assignArgType (argName : string) (ac : ArgConfig)
    (t : ComposeType) (args : ArgsMap) : ArgsMap :=
  set argName (withArgType ac t) args.

(** The field config [fc] once its [args] object holds [args]. *)
Definition withArgs (fc : FieldConfig) (args : ArgsMap) : FieldConfig :=
  {| fc_type := fc_type fc;
     fc_args := Some args;
     fc_resolve := fc_resolve fc;
     fc_deprecationReason := fc_deprecationReason fc;
     fc_description := fc_description fc;
     fc_extensions := fc_extensions fc;
     fc_projection := fc_projection fc;
     fc_other := fc_other fc |}.

(** [fc.args] is mutated in place by a loop that cannot throw: the field
    keeps every other key and holds the argument map the loop leaves. *)
Definition updateFieldArgs (fieldName : string) (fc : FieldConfig)
    (args : ArgsMap) : M unit :=
  modify (fun s =>
    withFields (set fieldName (withArgs fc args) (_gqcFields s)) s).

(** [this.getField(fieldName).args] is [undefined] for a member of
    [Object.prototype], as it is for a field config without [args]. *)
Definition makeFieldArgNonPlural (fieldName : string)
    (argNameOrArray : NameOrArray) : M unit :=
  field <- getField fieldName ;;
  match field with
  | Inherited _ => ret tt
  | Own fc =>
      match fc_args fc with
      | None => ret tt
      | Some args =>
          let argNames := asArray argNameOrArray in
          updateFieldArgs fieldName fc
            (fold_left (fun args argName =>
               match get argName args with
               | Some ac =>
                   if isListComposer (ac_type ac)
                   then assignArgType argName ac (ofType (ac_type ac)) args
                   else if isNonNullComposer (ac_type ac)
                           && isListComposer (ofType (ac_type ac))
                   then assignArgType argName ac
                          (if isNonNullComposer (ofType (ofType (ac_type ac)))
                           then ofType (ofType (ac_type ac))
                           else NonNullComposer (ofType (ofType (ac_type ac))))
                          args
                   else args
               | None => args
               end) argNames args)
      end
  end.

(** ** Relations *)

(** Modelled from the spec: the [Resolver] class is imported by the source
    file. The record holds what [_relationWithResolverToFC] reads from a
    resolver: its declared output [type], its [args], its [description],
    and the [resolve] function of [resolver.getFieldConfig()] ([None] when
    that field config has none). [res_deprecationReason] is the resolver's
    own deprecation metadata the spec speaks of in section 4.3. *)
Record Resolver : Type := mkResolver {
  res_type : ComposeType;
  res_args : ArgsMap;
  res_description : Value;
  res_deprecationReason : Value;
  res_fieldConfigResolve : option ResolveFn
}.

(** The value found under [opts.resolver] once a thunk is called:
    a [Resolver] instance or something else. *)
Inductive ResolverValue : Type :=
| IsResolver (r : Resolver)
| NotResolver (v : Value).

(** [Thunk<Resolver>] *)
Inductive ResolverThunk : Type :=
| Direct (r : ResolverValue)
| Thunked (f : unit -> ResolverValue).

(** [ObjectTypeComposerRelationArgsMapperFn]:
    [(source, args, context, info) => any]; it may throw. *)
Definition ArgsMapperFn : Type :=
  Value -> Obj Value -> Value -> Value -> Completion Value.

(** A value of the [prepareArgs] map: a function or plain data
    ([undefined] and [null] included). *)
Inductive ArgMapVal : Type :=
| MapFn (argFn : ArgsMapperFn)
| MapData (v : Value).

(** [ObjectTypeComposerRelationOptsWithResolver], with the two keys of the
    other declaration style ([type], [resolve]) that the compiler rejects.
    A key read with [opts.k] is a [Value], [VUndefined] when absent. *)
Record RelationOpts : Type := mkRelationOpts {
  o_resolver : ResolverThunk;
  o_prepareArgs : option (Obj ArgMapVal);
  o_projection : Value;
  o_description : Value;
  o_deprecationReason : Value;
  o_catchErrors : option bool;
  o_type : Value;
  o_resolve : option ResolveFn
}.

(** What the [prepareArgs] loop builds: [argsConfig], [argsProto] and
    [argsRuntime]. *)
Record PreparedArgs : Type := mkPrepared {
  argsConfig : ArgsMap;
  argsProto : Obj Value;
  argsRuntime : list (string * ArgsMapperFn)
}.

(** One iteration of [Object.keys(optsArgs).forEach(argName => ...)]. *)
Definition prepareStep (acc : PreparedArgs) (entry : string * ArgMapVal)
    : PreparedArgs :=
  let argName := fst entry in
  let argMapVal := snd entry in
  match argMapVal with
  | MapData VUndefined => acc
  | MapFn argFn =>
      {| argsConfig := delete argName (argsConfig acc);
         argsProto := argsProto acc;
         argsRuntime := argsRuntime acc ++ [(argName, argFn)] |}
  | MapData VNull =>
      {| argsConfig := delete argName (argsConfig acc);
         argsProto := argsProto acc;
         argsRuntime := argsRuntime acc |}
  | MapData v =>
      {| argsConfig := delete argName (argsConfig acc);
         argsProto := set argName v (argsProto acc);
         argsRuntime := argsRuntime acc |}
  end.

Definition prepareArgs (resolverArgs : ArgsMap) (optsArgs : Obj ArgMapVal)
    : PreparedArgs :=
  fold_left prepareStep optsArgs
    {| argsConfig := resolverArgs; argsProto := []; argsRuntime := [] |}.

(** [argsRuntime.forEach(([argName, argFn]) =>
       { newArgs[argName] = argFn(source, args, context, info); })] *)
Fixpoint runMappers (runtime : list (string * ArgsMapperFn))
    (source : Value) (args : Obj Value) (context info : Value)
    (newArgs : Obj Value) : Completion (Obj Value) :=
  match runtime with
  | [] => Returns newArgs
  | (argName, argFn) :: rest =>
      match argFn source args context info with
      | Throws e => Throws e
      | Returns v =>
          runMappers rest source args context info (set argName v newArgs)
      end
  end.

(** [Promise.resolve(payload)] *)
Definition promiseResolve (payload : Payload) : Payload :=
  match payload with
  | Plain v => Fulfilled v
  | Fulfilled v => Fulfilled v
  | Rejected e => Rejected e
  end.

(** [promise.catch(onRejected)]; the handler may print and may throw. *)
Definition promiseCatch (promise : Payload)
    (onRejected : Value -> Console -> Completion Value * Console)
    (console : Console) : Payload * Console :=
  match promise with
  | Rejected e =>
      match onRejected e console with
      | (Returns v, console') => (Fulfilled v, console')
      | (Throws e', console') => (Rejected e', console')
      end
  | settled => (settled, console)
  end.

(** The handler of the compiled resolve function:
    two [console.log] calls, then [return null]. *)
Definition relationErrorHandler (tn fieldName : string) (e : Value)
    (console : Console) : Completion Value * Console :=
  (Returns VNull,
   console
   ++ [LogText ("GQC ERROR: relation for " ++ tn ++ "." ++ fieldName
                ++ " throws error:")]
   ++ [LogValue e]).

(** The [return] statement of the compiled resolve function, applied to
    what the call of the delegate gave:
    [catchErrors ? Promise.resolve(payload).catch(handler) : payload].
    A call that threw gave no payload. *)
Definition containErrors (tn fieldName : string) (catchErrors : bool)
    (called : Completion Payload * Console) : Completion Payload * Console :=
  match called with
  | (Throws e, console') => (Throws e, console')
  | (Returns payload, console') =>
      if catchErrors
      then
        let (p, console'') :=
          promiseCatch (promiseResolve payload)
            (relationErrorHandler tn fieldName) console' in
        (Returns p, console'')
      else (Returns payload, console')
  end.

(** The [resolve] closure of [_relationWithResolverToFC]. [tn] is the type
    name the handler prints. *)
Definition relationResolve (tn fieldName : string) (prepared : PreparedArgs)
    (catchErrors : bool) (fieldConfigResolve : option ResolveFn) : ResolveFn :=
  fun source args context info console =>
    let newArgs := spread args (argsProto prepared) in
    match runMappers (argsRuntime prepared) source args context info newArgs
    with
    | Throws e => (Throws e, console)
    | Returns newArgs =>
        containErrors tn fieldName catchErrors
          match fieldConfigResolve with
          | Some resolve => resolve source newArgs context info console
          | None => (Returns (Plain VNull), console)
          end
    end.

(** [addRelation] stores the field config this call returns under the
    relation's field name: at once for a resolver given directly, on first
    access for a resolver given as a thunk. The handler of the compiled
    resolve function prints the type name it reads when it runs; the
    composer is taken not to be renamed in between. *)
Definition _relationWithResolverToFC (opts : RelationOpts)
    (fieldName : string) : M FieldConfig :=
  let resolver :=
    match o_resolver opts with
    | Thunked f => f tt
    | Direct r => r
    end in
  tn <- getTypeName ;;
  match resolver with
  | NotResolver _ =>
      throwError ("You should provide correct Resolver object for relation "
                  ++ tn ++ "." ++ fieldName)
  | IsResolver resolver =>
      if truthy (o_type opts)
      then throwError
             ("You can not use `resolver` and `type` properties simultaneously for relation "
              ++ tn ++ "." ++ fieldName)
      else
      match o_resolve opts with
      | Some _ =>
          throwError
            ("You can not use `resolver` and `resolve` properties simultaneously for relation "
             ++ tn ++ "." ++ fieldName)
      | None =>
          let optsArgs := orEmpty (o_prepareArgs opts) in
          let prepared := prepareArgs (res_args resolver) optsArgs in
          let catchErrors :=
            match o_catchErrors opts with
            | Some b => b
            | None => true
            end in
          let resolve :=
            relationResolve tn fieldName prepared catchErrors
              (res_fieldConfigResolve resolver) in
          ret {| fc_type := res_type resolver;
                 fc_description :=
                   Some (if truthy (o_description opts)
                         then o_description opts
                         else res_description resolver);
                 fc_deprecationReason := Some (o_deprecationReason opts);
                 fc_args := Some (argsConfig prepared);
                 fc_resolve := Some resolve;
                 fc_projection := Some (o_projection opts);
                 fc_extensions := None;
                 fc_other := [] |}
      end
  end.

End Composer.

(* ===================================================================== *)
(** * A type mapper for concrete runs *)
(* ===================================================================== *)

Module TypeMapperModel.

Definition lastChar (s : string) : option Ascii.ascii :=
  match String.length s with
  | 0 => None
  | S n => String.get n s
  end.

(** Wrapper notation: a trailing [!] is a non-null layer, surrounding
    brackets are a list layer, anything else is a type name. *)
Fixpoint wrapperNotation (fuel : nat) (s : string) : ComposeType :=
  match fuel with
  | 0 => NamedTC s
  | S fuel' =>
      match lastChar s with
      | Some "!"%char =>
          NonNullComposer
            (wrapperNotation fuel' (String.substring 0 (String.length s - 1) s))
      | Some "]"%char =>
          match String.get 0 s with
          | Some "["%char =>
              ListComposer
                (wrapperNotation fuel'
                   (String.substring 1 (String.length s - 2) s))
          | _ => NamedTC s
          end
      | _ => NamedTC s
      end
  end.

Definition convertType (t : TypeDefinition) : ComposeType :=
  match t with
  | TypeAsString s => wrapperNotation (String.length s) s
  | TypeAsComposer c => c
  end.

Definition convertArgConfig (a : ArgConfigDefinition) : ArgConfig :=
  match a with
  | ArgAsType t =>
      {| ac_type := convertType t;
         ac_defaultValue := None;
         ac_description := None;
         ac_extensions := None |}
  | ArgAsObject t defaultValue description extensions =>
      {| ac_type := convertType t;
         ac_defaultValue := defaultValue;
         ac_description := description;
         ac_extensions := extensions |}
  end.

(** Modelled from the spec: [TypeMapper.convertOutputFieldConfig] is not
    under src/. Section 6 gives the mapper's contract: it accepts shorthand
    notation, explicit descriptor objects and already-normalized values and
    returns a normalized descriptor. This instance keeps every key of an
    explicit descriptor, turns type notation into wrapper layers over a
    type name, and rejects a descriptor object that has no [type]. It is
    used for concrete runs only; the general results hold for any mapper. *)
Definition convertOutputFieldConfig (def : FieldConfigDefinition)
    : Completion FieldConfig :=
  match def with
  | FieldAsType t =>
      Returns {| fc_type := convertType t;
                 fc_args := None;
                 fc_resolve := None;
                 fc_deprecationReason := None;
                 fc_description := None;
                 fc_extensions := None;
                 fc_projection := None;
                 fc_other := [] |}
  | FieldAsObject o =>
      match d_type o with
      | None =>
          Throws (VError "Definition object should contain 'type' property"%string)
      | Some t =>
          Returns {| fc_type := convertType t;
                     fc_args :=
                       option_map
                         (map (fun kv => (fst kv, convertArgConfig (snd kv))))
                         (d_args o);
                     fc_resolve := d_resolve o;
                     fc_deprecationReason := d_deprecationReason o;
                     fc_description := d_description o;
                     fc_extensions := d_extensions o;
                     fc_projection := d_projection o;
                     fc_other := d_other o |}
      end
  end.

(** A field config that has a type and nothing else, as [setFields] of a
    type notation gives. *)
Definition fieldOfType (notation : string) : FieldConfig :=
  {| fc_type := convertType (TypeAsString notation);
     fc_args := None;
     fc_resolve := None;
     fc_deprecationReason := None;
     fc_description := None;
     fc_extensions := None;
     fc_projection := None;
     fc_other := [] |}.

End TypeMapperModel.

(* ===================================================================== *)
(** * Observations used in the statements *)
(* ===================================================================== *)

Import Composer.
Local Open Scope composer_scope.

(** The state a call leaves, and what it completes with. *)
Definition after {A : Type} (m : M A) (s : State) : State := snd (m s).

Definition outcome {A : Type} (m : M A) (s : State) : Completion A :=
  fst (m s).

(** The type of a field, when the field exists. *)
Definition fieldType (fieldName : string) (s : State) : option ComposeType :=
  option_map fc_type (get fieldName (_gqcFields s)).

(** The deprecation reason of a field: [None] when the field is missing or
    its config has no such key. *)
Definition fieldDeprecation (fieldName : string) (s : State) : option Value :=
  match get fieldName (_gqcFields s) with
  | Some fc => fc_deprecationReason fc
  | None => None
  end.

(** The type of an argument of a field, when both exist. *)
Definition argType (fieldName argName : string) (s : State)
    : option ComposeType :=
  match get fieldName (_gqcFields s) with
  | Some fc => option_map ac_type (get argName (orEmpty (fc_args fc)))
  | None => None
  end.

(** The element type a plural type lists; a non-plural type is its own
    element. *)
Definition elementType (w : ComposeType) : ComposeType :=
  if isListComposer w then ofType w else w.

(** A list without its repeated entries: the first occurrence stays. *)
Fixpoint firstOccurrences (names : list string) : list string :=
  match names with
  | [] => []
  | n :: rest =>
      n :: filter (fun m => negb (String.eqb n m)) (firstOccurrences rest)
  end.

(** The front of the field order [reorderFields names] asks for: the names
    that are fields, in the order given. *)
Definition requestedFront {A : Type} (names : list string)
    (fields : Obj A) : list string :=
  firstOccurrences (filter (fun n => has n fields) names).

(** The fields [reorderFields names] does not name, in their own order. *)
Definition untouchedRest {A : Type} (names : list string)
    (fields : Obj A) : list string :=
  filter (fun k => notIndexOf k names) (keys fields).

(** Two objects without a common key. *)
Definition disjoint {A : Type} (O R : Obj A) : Prop :=
  forall k, In k (keys O) -> ~ In k (keys R).

(** The message of the error [deprecateFields] throws for [field]. *)
Definition unexistedFieldMessage (field : string) (s : State) : string :=
  "Cannot deprecate unexisted field '" ++ field ++ "' from type '"
  ++ typeName s ++ "'".

(** The resolver a relation names, thunk called. *)
Definition resolverOf (opts : RelationOpts) : ResolverValue :=
  match o_resolver opts with
  | Thunked f => f tt
  | Direct r => r
  end.

(** [catchErrors] with its default. *)
Definition catchErrorsOf (opts : RelationOpts) : bool :=
  match o_catchErrors opts with
  | Some b => b
  | None => true
  end.


(** The runtime mappers of a [prepareArgs] map, in its key order. *)
Definition runtimeOf (optsArgs : Obj ArgMapVal) : list (string * ArgsMapperFn) :=
  flat_map (fun entry =>
              match snd entry with
              | MapFn argFn => [(fst entry, argFn)]
              | MapData _ => []
              end) optsArgs.


(** Every runtime mapper of the map returns on the given call. *)
Definition mappersReturn (optsArgs : Obj ArgMapVal) (source : Value)
    (args : Obj Value) (context info : Value) : Prop :=
  forall argName argFn,
    In (argName, MapFn argFn) optsArgs ->
    exists v, argFn source args context info = Returns v.

(** The header line the handler of a relation prints. *)
Definition relationErrorHeader (tn fieldName : string) : string :=
  "GQC ERROR: relation for " ++ tn ++ "." ++ fieldName ++ " throws error:".

(** Whether a [prepareArgs] entry hides the argument of its name. *)
Definition hidesArg (optsArgs : Obj ArgMapVal) (argName : string) : bool :=
  match get argName optsArgs with
  | Some (MapData VUndefined) => false
  | Some _ => true
  | None => false
  end.

(* ===================================================================== *)
(** * Composers and relations used in concrete runs *)
(* ===================================================================== *)

Module Fixtures.
Import TypeMapperModel.

(** The fields the test 'check field Plural methods, wrap/unwrap from
    ListComposer' starts from. *)
Definition pluralFixture : State :=
  {| typeName := "Readable";
     _gqcFields :=
       [("b1", fieldOfType "String!");
        ("b2", fieldOfType "[String]");
        ("b3", fieldOfType "String!");
        ("b4", fieldOfType "[String!]!")] |}.

(** The same fields once the test has called
    [makeFieldPlural(['b1', 'b2', 'b3', 'unexisted'])] and
    [makeFieldNonNull('b2')]: [b2] is then of type [[String]!]. *)
Definition pluralFixtureWrapped : State :=
  after (makeFieldPlural (NameArray ["b1"; "b2"; "b3"; "unexisted"]) ;;;
         makeFieldNonNull (OneName "b2")) pluralFixture.

(** A field [f] with arguments [b2], of type [[String]!], and [b4], of type
    [[String!]!], as in the test of the argument methods. *)
Definition argFixture : State :=
  {| typeName := "Readable";
     _gqcFields :=
       [("f",
         withArgs (fieldOfType "Int")
           [("b2", convertArgConfig (ArgAsType (TypeAsString "[String]!")));
            ("b4", convertArgConfig (ArgAsType (TypeAsString "[String!]!")))])]
  |}.

(** The field of the test 'makeFieldNullable()'. *)
Definition nonNullFixture : State :=
  {| typeName := "Readable";
     _gqcFields := [("field1", fieldOfType "String");
                    ("fieldNN", fieldOfType "String!")] |}.

(** Fields [a], [b], [c] in this order. *)
Definition abcFixture : State :=
  {| typeName := "MyType";
     _gqcFields := [("a", fieldOfType "String");
                    ("b", fieldOfType "Int");
                    ("c", fieldOfType "Date")] |}.

(** A field [field1] with arguments [arg1] and [arg2], next to a field
    without arguments, as in the tests of the argument methods. *)
Definition argsFixture : State :=
  {| typeName := "Readable";
     _gqcFields :=
       [("field1",
         withArgs (fieldOfType "String")
           [("arg1", convertArgConfig (ArgAsType (TypeAsString "Int")));
            ("arg2", convertArgConfig (ArgAsType (TypeAsString "String")))]);
        ("field2", fieldOfType "String")] |}.

(** The field of the test 'should extend field extensions', with the
    partial config the test extends it by. *)
Definition extensionsFixture : State :=
  {| typeName := "Readable";
     _gqcFields :=
       [("field1", fieldOfType "String");
        ("field3",
         {| fc_type := NamedTC "String";
            fc_args := None;
            fc_resolve := None;
            fc_deprecationReason := None;
            fc_description := None;
            fc_extensions := Some [("first", VBool true)];
            fc_projection := None;
            fc_other := [] |});
        ("field2", fieldOfType "String")] |}.

Definition extensionsPartial : FieldConfigAsObjectDefinition :=
  {| d_type := None;
     d_args := None;
     d_resolve := None;
     d_deprecationReason := None;
     d_description := Some (VStr "this is field #3");
     d_extensions := Some [("second", VBool true)];
     d_projection := None;
     d_other := [] |}.

(** A delegate resolver with arguments [id] and [limit]; its field
    config's resolve function is [delegate]. *)
Definition findResolver (delegate : option ResolveFn)
    (deprecationReason : Value) : Resolver :=
  {| res_type := ListComposer (NamedTC "Post");
     res_args :=
       [("id", convertArgConfig (ArgAsType (TypeAsString "ID!")));
        ("limit", convertArgConfig (ArgAsType (TypeAsString "Int")))];
     res_description := VStr "Find posts";
     res_deprecationReason := deprecationReason;
     res_fieldConfigResolve := delegate |}.

(** [{ resolver, prepareArgs: { limit: 10, id: (src) => src.id } }] *)
Definition postsRelation (resolver : Resolver) (catchErrors : option bool)
    : RelationOpts :=
  {| o_resolver := Direct (IsResolver resolver);
     o_prepareArgs :=
       Some [("limit", MapData (VNum 10));
             ("id", MapFn (fun source _ _ _ => Returns (prop "id" source)))];
     o_projection := VUndefined;
     o_description := VUndefined;
     o_deprecationReason := VUndefined;
     o_catchErrors := catchErrors;
     o_type := VUndefined;
     o_resolve := None |}.

(** A delegate that throws when it is called. *)
Definition throwingDelegate : ResolveFn :=
  fun _ _ _ _ console => (Throws (VError "boom"), console).

(** A delegate that returns a rejected promise. *)
Definition rejectingDelegate : ResolveFn :=
  fun _ _ _ _ console => (Returns (Rejected (VError "boom")), console).

(** A delegate that returns the arguments it was given. *)
Definition echoDelegate : ResolveFn :=
  fun _ args _ _ console => (Returns (Plain (VObj args)), console).

End Fixtures.

(* ===================================================================== *)
(** * Further methods of the field map *)
(* ===================================================================== *)

Module FieldMethods.

(** Whether [o] has an own property [k]. *)
Definition inObj {A : Type} (k : string) (o : Obj A) : bool :=
  match get k o with Some _ => true | None => false end.

(** [o[k]] as a value: what the read finds, [undefined] when it finds
    nothing. *)
Definition getOr (k : string) (o : Obj Value) : Found Value :=
  match read k o with Some v => v | None => Own VUndefined end.

Definition removeOtherFields (fieldNameOrArray : NameOrArray) : M unit :=
  let keepFieldNames := asArray fieldNameOrArray in
  fieldNames <- gets (fun s => keys (_gqcFields s)) ;;
  forEach fieldNames (fun fieldName =>
    if notIndexOf fieldName keepFieldNames
    then modify (fun s => withFields (delete fieldName (_gqcFields s)) s)
    else ret tt).

Section WithFieldMapMapper.

(** [schemaComposer.typeMapper.convertOutputFieldConfigMap]: imported with
    the TypeMapper class and taken as given. It normalizes every entry of
    a field definition map or throws. *)
Variable convertOutputFieldConfigMap :
  Obj FieldConfigDefinition -> Completion (Obj FieldConfig).

Definition setFields (fields : Obj FieldConfigDefinition) : M unit :=
  match convertOutputFieldConfigMap fields with
  | Throws e => fun s => (Throws e, s)
  | Returns converted => modify (fun s => withFields converted s)
  end.

Definition addFields (newFields : Obj FieldConfigDefinition) : M unit :=
  match convertOutputFieldConfigMap newFields with
  | Throws e => fun s => (Throws e, s)
  | Returns converted =>
      modify (fun s => withFields (spread (_gqcFields s) converted) s)
  end.

End WithFieldMapMapper.

(** ** Argument methods *)

Definition removeFieldArg (fieldName : string) (argNameOrArray : NameOrArray)
    : M unit :=
  let argNames := asArray argNameOrArray in
  fields <- gets _gqcFields ;;
  match get fieldName fields with
  | Some fc =>
      match fc_args fc with
      | Some args =>
          updateFieldArgs fieldName fc
            (fold_left (fun args argName => delete argName args) argNames args)
      | None => ret tt
      end
  | None => ret tt
  end.

Definition removeFieldOtherArgs (fieldName : string)
    (argNameOrArray : NameOrArray) : M unit :=
  let keepArgNames := asArray argNameOrArray in
  fields <- gets _gqcFields ;;
  match get fieldName fields with
  | Some fc =>
      match fc_args fc with
      | Some args =>
          updateFieldArgs fieldName fc
            (fold_left (fun args argName =>
               if notIndexOf argName keepArgNames
               then delete argName args
               else args) (keys args) args)
      | None => ret tt
      end
  | None => ret tt
  end.

(** ** Field extensions *)

Definition getFieldExtensions (fieldName : string) : M (Obj Value) :=
  field <- getField fieldName ;;
  ret (orEmpty (extensionsOf field)).

Definition getFieldExtension (fieldName extensionName : string)
    : M (Found Value) :=
  extensions <- getFieldExtensions fieldName ;;
  ret (getOr extensionName extensions).

Definition hasFieldExtension (fieldName extensionName : string) : M bool :=
  extensions <- getFieldExtensions fieldName ;;
  ret (isIn extensionName extensions).

(** The object literal [{ ...field, extensions }]. *)
Definition withExtensions (field : Found FieldConfig)
    (extensions : Obj Value) : FieldConfigAsObjectDefinition :=
  let prev := spreadOf field in
  {| d_type := d_type prev;
     d_args := d_args prev;
     d_resolve := d_resolve prev;
     d_deprecationReason := d_deprecationReason prev;
     d_description := d_description prev;
     d_extensions := Some extensions;
     d_projection := d_projection prev;
     d_other := d_other prev |}.

Section WithTypeMapper.

(** [schemaComposer.typeMapper.convertOutputFieldConfig], as for
    [Composer.setField]. *)
Variable convertOutputFieldConfig :
  FieldConfigDefinition -> Completion FieldConfig.

Definition setFieldExtensions (fieldName : string) (extensions : Obj Value)
    : M unit :=
  field <- getField fieldName ;;
  setField convertOutputFieldConfig fieldName
    (FieldAsObject (withExtensions field extensions)).

Definition extendFieldExtensions (fieldName : string)
    (extensions : Obj Value) : M unit :=
  current <- getFieldExtensions fieldName ;;
  setFieldExtensions fieldName (spread current extensions).


Definition setFieldExtension (fieldName extensionName : string)
    (value : Value) : M unit :=
  extendFieldExtensions fieldName [(extensionName, value)].


End WithTypeMapper.

End FieldMethods.

(* ===================================================================== *)
(** * Observations on the further methods *)
(* ===================================================================== *)



(** What [makeFieldPlural] makes of a type. *)
Definition wrapList (w : ComposeType) : ComposeType :=
  if isListComposer w then w else ListComposer w.

(** What [makeFieldNonPlural] makes of a type. *)
Definition unwrapList (w : ComposeType) : ComposeType :=
  match w with
  | ListComposer inner => inner
  | NonNullComposer (ListComposer inner) =>
      if isNonNullComposer inner then inner else NonNullComposer inner
  | _ => w
  end.

(** The test of [isFieldPlural] on a type. *)
Definition isPlural (w : ComposeType) : bool :=
  isListComposer w || (isNonNullComposer w && isListComposer (ofType w)).

(** The argument map of a field: [None] when the field is missing, the
    empty map when its config has no [args]. *)
Definition fieldArgs (fieldName : string) (s : State) : option ArgsMap :=
  option_map (fun fc => orEmpty (fc_args fc)) (get fieldName (_gqcFields s)).

(** The composer once the type of field [fieldName], if there is such a
    field, went through [t]. *)
Definition retypeField (t : ComposeType -> ComposeType) (fieldName : string)
    (s : State) : State :=
  match get fieldName (_gqcFields s) with
  | Some fc =>
      withFields
        (set fieldName (withType fc (t (fc_type fc))) (_gqcFields s)) s
  | None => s
  end.

(** The message of the error [getField] throws for [fieldName]. *)
Definition noFieldMessage (fieldName : string) (s : State) : string :=
  "Cannot get field '" ++ fieldName ++ "' from type '" ++ typeName s
  ++ "'. Field does not exist.".

(** Modelled from the spec: [TypeMapper.convertOutputFieldConfigMap] is not
    under src/. Section 4.2 has [addFields] apply the normalization of
    [setField] to each entry, in the map's key order; this instance does
    so with the instance of [convertOutputFieldConfig] above and throws
    what the first failing entry throws. It is used for concrete runs
    only. *)
Fixpoint convertOutputFieldConfigMapModel (defs : Obj FieldConfigDefinition)
    : Completion (Obj FieldConfig) :=
  match defs with
  | [] => Returns []
  | (name, def) :: rest =>
      match TypeMapperModel.convertOutputFieldConfig def with
      | Throws e => Throws e
      | Returns fc =>
          match convertOutputFieldConfigMapModel rest with
          | Throws e => Throws e
          | Returns converted => Returns ((name, fc) :: converted)
          end
      end
  end.

(* ===================================================================== *)
(** * Further relations used in concrete runs *)
(* ===================================================================== *)

Module MoreFixtures.

(** A relation whose [resolver] thunk gives [null], with a [type]
    beside it. *)
Definition notResolverRelation : RelationOpts :=
  {| o_resolver := Thunked (fun _ => NotResolver VNull);
     o_prepareArgs := None;
     o_projection := VUndefined;
     o_description := VUndefined;
     o_deprecationReason := VUndefined;
     o_catchErrors := None;
     o_type := VStr "Int";
     o_resolve := None |}.

(** [{ resolver, prepareArgs: { limit: 10, id: () => { throw ... } },
       catchErrors: true }] *)
Definition throwingMapperRelation : RelationOpts :=
  {| o_resolver :=
       Direct (IsResolver
                 (Fixtures.findResolver (Some Fixtures.echoDelegate)
                    VUndefined));
     o_prepareArgs :=
       Some [("limit", MapData (VNum 10));
             ("id", MapFn (fun _ _ _ _ => Throws (VError "no id")))];
     o_projection := VUndefined;
     o_description := VUndefined;
     o_deprecationReason := VUndefined;
     o_catchErrors := Some true;
     o_type := VUndefined;
     o_resolve := None |}.

(** [{ resolver, prepareArgs: { limit: undefined, id: null, sort: 'asc' } }]
    on the resolver with arguments [id] and [limit]. *)
Definition hidingRelation : RelationOpts :=
  {| o_resolver :=
       Direct (IsResolver (Fixtures.findResolver None VUndefined));
     o_prepareArgs :=
       Some [("limit", MapData VUndefined); ("id", MapData VNull);
             ("sort", MapData (VStr "asc"))];
     o_projection := VUndefined;
     o_description := VUndefined;
     o_deprecationReason := VUndefined;
     o_catchErrors := None;
     o_type := VUndefined;
     o_resolve := None |}.

(** The partial config [{ type: 'String' }]. *)
Definition typePartial : FieldConfigAsObjectDefinition :=
  {| d_type := Some (TypeAsString "String");
     d_args := None;
     d_resolve := None;
     d_deprecationReason := None;
     d_description := None;
     d_extensions := None;
     d_projection := None;
     d_other := [] |}.

End MoreFixtures.

(* ===================================================================== *)
(** * Extensions and directives of the type *)
(* ===================================================================== *)

Module TypeExtensions.

(** [ExtensionsDirective]: [{ name, args }]. *)
Record Directive : Type := mkDirective {
  dir_name : string;
  dir_args : Value
}.

(** A value of the type's extension bag: plain data, or an array, which
    the directive methods read as [Array<ExtensionsDirective>]. *)
Inductive ExtValue : Type :=
| ExtData (v : Value)
| ExtArray (items : list Directive).

Definition Extensions : Type := Obj ExtValue.

(** [_gqcExtensions : void | Extensions]; the methods below are given as
    functions of this slot, the only part of the composer they touch. *)
Definition Slot : Type := option Extensions.

Definition getExtensions (slot : Slot) : Extensions :=
  match slot with
  | None => []
  | Some extensions => extensions
  end.

Definition setExtensions (extensions : Extensions) (slot : Slot) : Slot :=
  Some extensions.

Definition extendExtensions (extensions : Extensions) (slot : Slot) : Slot :=
  let current := getExtensions slot in
  setExtensions (spread current extensions) slot.

Definition clearExtensions (slot : Slot) : Slot :=
  setExtensions [] slot.

(** [extensions[extensionName]]: what the read finds, [undefined] when
    it finds nothing. *)
Definition getExtension (extensionName : string) (slot : Slot)
    : Found ExtValue :=
  let extensions := getExtensions slot in
  match read extensionName extensions with
  | Some v => v
  | None => Own (ExtData VUndefined)
  end.

Definition hasExtension (extensionName : string) (slot : Slot) : bool :=
  let extensions := getExtensions slot in
  isIn extensionName extensions.

Definition setExtension (extensionName : string) (value : ExtValue)
    (slot : Slot) : Slot :=
  extendExtensions [(extensionName, value)] slot.

Definition removeExtension (extensionName : string) (slot : Slot) : Slot :=
  let extensions := spread [] (getExtensions slot) in
  setExtensions (delete extensionName extensions) slot.

Definition getDirectives (slot : Slot) : list Directive :=
  let directives := getExtension "directives" slot in
  match directives with
  | Own (ExtArray items) => items
  | Own (ExtData _) | Inherited _ => []
  end.

Definition getDirectiveNames (slot : Slot) : list string :=
  map dir_name (getDirectives slot).

Definition getDirectiveByName (directiveName : string) (slot : Slot)
    : Value :=
  match find (fun d => String.eqb (dir_name d) directiveName)
          (getDirectives slot)
  with
  | None => VUndefined
  | Some directive => dir_args directive
  end.

(** [idx] is an integer index; [directives[idx]] is [undefined] below
    zero and from the length on. *)
Definition getDirectiveById (idx : Z) (slot : Slot) : Value :=
  match (if Z.ltb idx 0 then None
         else nth_error (getDirectives slot) (Z.to_nat idx))
  with
  | None => VUndefined
  | Some directive => dir_args directive
  end.

End TypeExtensions.

(* ===================================================================== *)
(** * Interfaces of the type *)
(* ===================================================================== *)

Module Interfaces.

Section WithInterfaceTypes.

(** The interface composers held in [_gqcInterfaces] and the definitions
    the methods accept; their classes and the two helpers below are
    imported by the source file and taken as given, for the definitions
    they accept. *)
Variables Iface IfaceDef : Type.

(** [i.getTypeName()] *)
Variable getTypeName : Iface -> string.

(** [getComposeTypeName(iface)] of utils/typeHelpers. *)
Variable getComposeTypeName : IfaceDef -> string.

(** [schemaComposer.typeMapper.convertInterfaceTypeDefinition(iface)] *)
Variable convertInterfaceTypeDefinition : IfaceDef -> Iface.

Definition hasInterface (iface : IfaceDef) (_gqcInterfaces : list Iface)
    : bool :=
  let typeName := getComposeTypeName iface in
  match find (fun i => String.eqb (getTypeName i) typeName) _gqcInterfaces
  with
  | Some _ => true
  | None => false
  end.

Definition addInterface (iface : IfaceDef) (_gqcInterfaces : list Iface)
    : list Iface :=
  if negb (hasInterface iface _gqcInterfaces)
  then _gqcInterfaces ++ [convertInterfaceTypeDefinition iface]
  else _gqcInterfaces.

Definition addInterfaces (ifaces : list IfaceDef)
    (_gqcInterfaces : list Iface) : list Iface :=
  fold_left (fun interfaces iface => addInterface iface interfaces)
    ifaces _gqcInterfaces.

Definition removeInterface (iface : IfaceDef) (_gqcInterfaces : list Iface)
    : list Iface :=
  let typeName := getComposeTypeName iface in
  filter (fun i => negb (String.eqb (getTypeName i) typeName)) _gqcInterfaces.

(** The mapper gives a definition a composer of the name
    [getComposeTypeName] reads off the definition. *)
Definition namesAgree : Prop :=
  forall iface,
    getTypeName (convertInterfaceTypeDefinition iface)
    = getComposeTypeName iface.

End WithInterfaceTypes.

End Interfaces.

(* ===================================================================== *)
(** * Resolvers of the type *)
(* ===================================================================== *)

Module Resolvers.

Section WithResolverClass.

(** Instances of the [Resolver] class, wrap callbacks, middleware arrays
    and resolver definitions; the class is imported by the source file,
    and what the methods below call on it is taken as given. *)
Variables R Callback Middlewares ResolverDefinition : Type.

(** [resolver.name]; a resolver without a name reads as the empty
    string, which is falsy as well. *)
Variable name : R -> string.

(** The resolver after [resolver.setDisplayName(displayName)]. *)
Variable setDisplayName : string -> R -> R.

(** [resolver.wrap(cb)], [resolver.wrapResolve(cb)] and
    [resolver.withMiddlewares(middlewares)]: a new resolver, or the
    error thrown on the way. *)
Variable wrap : Callback -> R -> Completion R.
Variable wrapResolve : Callback -> R -> Completion R.
Variable withMiddlewares : Middlewares -> R -> Completion R.

(** [new Resolver(resolverOpts, schemaComposer)] on the copy of a
    definition to which [addResolver] has given a [resolve]. *)
Variable construct : ResolverDefinition -> Completion R.

(** The part of the composer the resolver methods read and write: the
    type name and [_gqcResolvers : void | Map], a map in insertion
    order. *)
Record ResolverState : Type := mkResolverState {
  composerTypeName : string;
  _gqcResolvers : option (Obj R)
}.

(** A [resolver] argument: an instance of [Resolver] or anything else. *)
Inductive ResolverArg : Type :=
| AResolver (resolver : R)
| NotAResolver (v : Value).

(** The argument of [addResolver]: a falsy value, a [Resolver] or a
    definition. *)
Inductive AddResolverArg : Type :=
| Empty
| AsResolver (resolver : R)
| AsDefinition (opts : ResolverDefinition).

Definition withResolvers (resolvers : Obj R) (s : ResolverState)
    : ResolverState :=
  {| composerTypeName := composerTypeName s; _gqcResolvers := Some resolvers |}.

Definition getResolvers (s : ResolverState) : Obj R * ResolverState :=
  match _gqcResolvers s with
  | None => ([], withResolvers [] s)
  | Some resolvers => (resolvers, s)
  end.

Definition hasResolver (resolverName : string) (s : ResolverState) : bool :=
  match _gqcResolvers s with
  | None => false
  | Some resolvers => FieldMethods.inObj resolverName resolvers
  end.

(** [resolverMap.get(name)], read where [hasResolver] has found the
    name: both look at the same entry of the map. *)
Definition getResolver (resolverName : string)
    (middlewares : option Middlewares) (s : ResolverState)
    : Completion R * ResolverState :=
  match
    match _gqcResolvers s with
    | None => None
    | Some resolverMap => get resolverName resolverMap
    end
  with
  | None =>
      (Throws (VError ("Type " ++ composerTypeName s
                       ++ " does not have resolver with name '"
                       ++ resolverName ++ "'")), s)
  | Some resolver =>
      match middlewares with
      | Some mw => (withMiddlewares mw resolver, s)
      | None => (Returns resolver, s)
      end
  end.

Definition setResolver (resolverName : string) (resolver : ResolverArg)
    (s : ResolverState) : Completion unit * ResolverState :=
  let (resolvers, s1) := getResolvers s in
  match resolver with
  | NotAResolver _ =>
      (Throws (VError "setResolver() accept only Resolver instance"), s1)
  | AResolver r =>
      (Returns tt,
       withResolvers
         (set resolverName
            (setDisplayName (composerTypeName s ++ "." ++ name r) r) resolvers) s1)
  end.

(** The tail of [addResolver], once the resolver is at hand. *)
Definition addResolverInstance (resolver : R) (s : ResolverState)
    : Completion unit * ResolverState :=
  if String.eqb (name resolver) ""
  then (Throws (VError "resolver should have non-empty `name` property"), s)
  else setResolver (name resolver) (AResolver resolver) s.

Definition addResolver (opts : AddResolverArg) (s : ResolverState)
    : Completion unit * ResolverState :=
  match opts with
  | Empty => (Throws (VError "addResolver called with empty Resolver"), s)
  | AsDefinition resolverOpts =>
      match construct resolverOpts with
      | Throws e => (Throws e, s)
      | Returns resolver => addResolverInstance resolver s
      end
  | AsResolver resolver => addResolverInstance resolver s
  end.

Definition removeResolver (resolverName : string) (s : ResolverState)
    : ResolverState :=
  if negb (String.eqb resolverName "")
  then let (resolvers, s1) := getResolvers s in
       withResolvers (delete resolverName resolvers) s1
  else s.

Definition wrapResolverAs (resolverName fromResolverName : string)
    (cbResolver : Callback) (s : ResolverState)
    : Completion unit * ResolverState :=
  match getResolver fromResolverName None s with
  | (Throws e, s1) => (Throws e, s1)
  | (Returns resolver, s1) =>
      match wrap cbResolver resolver with
      | Throws e => (Throws e, s1)
      | Returns newResolver =>
          setResolver resolverName (AResolver newResolver) s1
      end
  end.

Definition wrapResolver (resolverName : string) (cbResolver : Callback)
    (s : ResolverState) : Completion unit * ResolverState :=
  match getResolver resolverName None s with
  | (Throws e, s1) => (Throws e, s1)
  | (Returns resolver, s1) =>
      match wrap cbResolver resolver with
      | Throws e => (Throws e, s1)
      | Returns newResolver =>
          setResolver resolverName (AResolver newResolver) s1
      end
  end.

Definition wrapResolverResolve (resolverName : string) (cbNextRp : Callback)
    (s : ResolverState) : Completion unit * ResolverState :=
  match getResolver resolverName None s with
  | (Throws e, s1) => (Throws e, s1)
  | (Returns resolver, s1) =>
      match wrapResolve cbNextRp resolver with
      | Throws e => (Throws e, s1)
      | Returns wrapped => setResolver resolverName (AResolver wrapped) s1
      end
  end.

(** The resolver held under a name, if any. *)
Definition registered (resolverName : string) (s : ResolverState)
    : option R :=
  match _gqcResolvers s with
  | None => None
  | Some resolvers => get resolverName resolvers
  end.

End WithResolverClass.

End Resolvers.

(* ===================================================================== *)
(** * A resolver class for concrete runs *)
(* ===================================================================== *)

Module ResolverModel.

(** A resolver reduced to what the composer reads and writes. *)
Record ModelResolver : Type := mkResolver {
  r_name : string;
  r_displayName : string;
  r_wrappers : list string
}.

Definition setDisplayName (displayName : string) (r : ModelResolver)
    : ModelResolver :=
  {| r_name := r_name r; r_displayName := displayName;
     r_wrappers := r_wrappers r |}.

(** A callback is known by its label; the callback [boom] throws. *)
Definition wrap (cb : string) (r : ModelResolver)
    : Completion ModelResolver :=
  if String.eqb cb "boom" then Throws (VError "boom")
  else Returns {| r_name := r_name r; r_displayName := r_displayName r;
                  r_wrappers := cb :: r_wrappers r |}.

Definition withMiddlewares (mw : list string) (r : ModelResolver)
    : Completion ModelResolver :=
  Returns {| r_name := r_name r; r_displayName := r_displayName r;
             r_wrappers := mw ++ r_wrappers r |}.

(** A definition is its [name]; the constructor requires one. *)
Definition construct (opts : string) : Completion ModelResolver :=
  if String.eqb opts ""
  then Throws (VError "a resolver needs a name")
  else Returns {| r_name := opts; r_displayName := ""; r_wrappers := [] |}.

Definition findMany : ModelResolver :=
  {| r_name := "findMany"; r_displayName := ""; r_wrappers := [] |}.

Definition user : Resolvers.ResolverState ModelResolver :=
  Resolvers.mkResolverState ModelResolver "User"
    (Some [("findMany", findMany)]).

Definition fresh : Resolvers.ResolverState ModelResolver :=
  Resolvers.mkResolverState ModelResolver "User" None.

End ResolverModel.

(* ===================================================================== *)
(** * Facts about objects *)
(* ===================================================================== *)

Module ObjFacts.

Ltac eqb_cases :=
  repeat match goal with
  | |- context [String.eqb ?a ?b] => destruct (String.eqb_spec a b); subst
  | H : context [String.eqb ?a ?b] |- _ =>
      destruct (String.eqb_spec a b); subst
  end; try congruence.

Section Facts.
Context {A : Type}.
Implicit Types (o a b : Obj A) (k : string) (v : A).

Lemma get_set_same k v o : get k (set k v o) = Some v.
Proof.
  induction o as [|[k' v'] o IH]; simpl; eqb_cases; simpl; eqb_cases.
Qed.

Lemma get_set_other k k' v o : k' <> k -> get k' (set k v o) = get k' o.
Proof.
  intros Hne. induction o as [|[k0 v0] o IH]; simpl; eqb_cases; simpl; eqb_cases.
Qed.

Lemma get_None_iff k o : get k o = None <-> ~ In k (keys o).
Proof.
  induction o as [|[k' v'] o IH]; simpl.
  - tauto.
  - eqb_cases.
    + split; [discriminate | intros H; exfalso; apply H; now left].
    + rewrite IH. split; intros H; [intros [E|E]; congruence | tauto].
Qed.

Lemma get_Some_in k v o : get k o = Some v -> In k (keys o).
Proof.
  intros H. destruct (in_dec string_dec k (keys o)) as [|Hn]; auto.
  apply get_None_iff in Hn. congruence.
Qed.

Lemma in_keys_get k o : In k (keys o) -> exists v, get k o = Some v.
Proof.
  intros H. destruct (get k o) eqn:E; eauto.
  apply get_None_iff in E. contradiction.
Qed.

Lemma has_true_iff k o : has k o = true <-> In k (keys o).
Proof.
  unfold has. split.
  - destruct (get k o) eqn:E; [intros _; eapply get_Some_in; eauto | discriminate].
  - intros H. apply in_keys_get in H as [v ->]. reflexivity.
Qed.

Lemma keys_set_present k v x o : get k o = Some x -> keys (set k v o) = keys o.
Proof.
  induction o as [|[k' v'] o IH]; simpl; [discriminate|].
  eqb_cases; simpl; intros H; [reflexivity | now rewrite IH].
Qed.

Lemma set_absent k v o : get k o = None -> set k v o = o ++ [(k, v)].
Proof.
  induction o as [|[k' v'] o IH]; simpl; [reflexivity|].
  eqb_cases. intros H. now rewrite IH.
Qed.

Lemma set_get_id k v o : get k o = Some v -> set k v o = o.
Proof.
  induction o as [|[k' v'] o IH]; simpl; [discriminate|].
  eqb_cases. intros H. now rewrite IH.
Qed.

Lemma set_set k v v' o : set k v (set k v' o) = set k v o.
Proof.
  induction o as [|[k' x] o IH]; simpl; eqb_cases; simpl; eqb_cases.
Qed.

Lemma get_delete_same k o : get k (delete k o) = None.
Proof.
  induction o as [|[k' x] o IH]; simpl; eqb_cases; simpl; eqb_cases.
Qed.

Lemma get_delete_other k k' o : k' <> k -> get k' (delete k o) = get k' o.
Proof.
  intros Hne. induction o as [|[k0 x] o IH]; simpl; eqb_cases; simpl; eqb_cases.
Qed.

Lemma keys_delete k o :
  keys (delete k o) = filter (fun k' => negb (String.eqb k k')) (keys o).
Proof.
  induction o as [|[k' x] o IH]; simpl; [reflexivity|].
  eqb_cases; simpl; now rewrite IH.
Qed.

Lemma delete_absent k o : get k o = None -> delete k o = o.
Proof.
  induction o as [|[k' x] o IH]; simpl; [reflexivity|].
  eqb_cases. intros H. now rewrite IH.
Qed.

Lemma wf_delete k o : wf o -> wf (delete k o).
Proof.
  unfold wf. rewrite keys_delete. apply NoDup_filter.
Qed.


Lemma get_app k a b :
  get k (a ++ b) = match get k a with Some v => Some v | None => get k b end.
Proof.
  induction a as [|[k' x] a IH]; simpl; [reflexivity|]. eqb_cases.
Qed.

Lemma keys_app a b : keys (a ++ b) = keys a ++ keys b.
Proof. apply map_app. Qed.

Lemma get_spread k a b :
  wf b ->
  get k (spread a b) = match get k b with Some v => Some v | None => get k a end.
Proof.
  unfold spread. revert a.
  induction b as [|[k' x] b IH]; intros a Hwf; simpl.
  - reflexivity.
  - inversion Hwf as [|? ? Hnotin Hwf']; subst.
    rewrite IH by assumption.
    eqb_cases.
    + apply get_None_iff in Hnotin. simpl in Hnotin. rewrite Hnotin.
      apply get_set_same.
    + destruct (get k b); [reflexivity|]. now apply get_set_other.
Qed.

Lemma spread_disjoint a b :
  wf b -> (forall k, In k (keys b) -> ~ In k (keys a)) -> spread a b = a ++ b.
Proof.
  unfold spread. revert a.
  induction b as [|[k' x] b IH]; intros a Hwf Hdis; simpl.
  - now rewrite app_nil_r.
  - inversion Hwf as [|? ? Hnotin Hwf']; subst.
    rewrite set_absent by (apply get_None_iff, Hdis; now left).
    rewrite IH; [now rewrite <- app_assoc | assumption |].
    intros k Hk. rewrite keys_app. simpl. intros Hin.
    apply in_app_or in Hin as [Hin|[<-|[]]].
    + apply (Hdis k); [now right | assumption].
    + contradiction.
Qed.

End Facts.
End ObjFacts.

(* ===================================================================== *)
(** * Facts about the monad and the single-field steps *)
(* ===================================================================== *)

Module StepFacts.
Import ObjFacts.

Lemma withType_same fc : withType fc (fc_type fc) = fc.
Proof. destruct fc; reflexivity. Qed.

Lemma withType_withType fc t u : withType (withType fc t) u = withType fc u.
Proof. reflexivity. Qed.

Lemma withFields_same s : withFields (_gqcFields s) s = s.
Proof. destruct s; reflexivity. Qed.

Lemma withFields_withFields a b s :
  withFields a (withFields b s) = withFields a s.
Proof. reflexivity. Qed.

Lemma bind_returns {A B} (m : M A) (k : A -> M B) s a s1 :
  m s = (Returns a, s1) -> bind m k s = k a s1.
Proof. unfold bind. now intros ->. Qed.

Lemma bind_throws {A B} (m : M A) (k : A -> M B) s e s1 :
  m s = (Throws e, s1) -> bind m k s = (Throws e, s1).
Proof. unfold bind. now intros ->. Qed.

Lemma forEach_one {A} (x : A) (f : A -> M unit) s :
  forEach [x] f s = f x s.
Proof.
  simpl. unfold bind, ret. destruct (f x s) as [[[]|e] s1]; reflexivity.
Qed.

Lemma forEach_app {A} (xs ys : list A) (f : A -> M unit) s :
  forEach (xs ++ ys) f s = (forEach xs f ;;; forEach ys f) s.
Proof.
  revert s. induction xs as [|x xs IH]; intros s; simpl.
  - reflexivity.
  - unfold bind. destruct (f x s) as [[[]|e] s1]; [|reflexivity].
    rewrite IH. reflexivity.
Qed.

Section OneField.
Variables (f : string) (fc : FieldConfig) (s : State).
Hypothesis Hget : get f (_gqcFields s) = Some fc.

Lemma getField_present : getField f s = (Returns (Own fc), s).
Proof. unfold getField, bind, gets, read. simpl. now rewrite Hget. Qed.

Lemma makeFieldNonNull_step :
  makeFieldNonNull (OneName f) s =
  (Returns tt,
   if isNonNullComposer (fc_type fc) then s
   else withFields (set f (withType fc (NonNullComposer (fc_type fc)))
                      (_gqcFields s)) s).
Proof.
  unfold makeFieldNonNull. simpl asArray. rewrite forEach_one.
  unfold bind, gets. simpl. rewrite Hget.
  destruct (isNonNullComposer (fc_type fc)); reflexivity.
Qed.

Lemma makeFieldNullable_step :
  makeFieldNullable (OneName f) s =
  (Returns tt,
   if isNonNullComposer (fc_type fc)
   then withFields (set f (withType fc (ofType (fc_type fc)))
                      (_gqcFields s)) s
   else s).
Proof.
  unfold makeFieldNullable. simpl asArray. rewrite forEach_one.
  unfold bind, gets. simpl. rewrite Hget.
  destruct (isNonNullComposer (fc_type fc)); reflexivity.
Qed.

Lemma makeFieldPlural_step :
  makeFieldPlural (OneName f) s =
  (Returns tt,
   if isListComposer (fc_type fc) then s
   else withFields (set f (withType fc (ListComposer (fc_type fc)))
                      (_gqcFields s)) s).
Proof.
  unfold makeFieldPlural. simpl asArray. rewrite forEach_one.
  unfold bind, gets. simpl. rewrite Hget.
  destruct (isListComposer (fc_type fc)); reflexivity.
Qed.

Lemma makeFieldNonPlural_step :
  makeFieldNonPlural (OneName f) s =
  (Returns tt,
   match fc_type fc with
   | ListComposer inner =>
       withFields (set f (withType fc inner) (_gqcFields s)) s
   | NonNullComposer (ListComposer inner) =>
       withFields
         (set f (withType fc (if isNonNullComposer inner then inner
                              else NonNullComposer inner))
            (_gqcFields s)) s
   | _ => s
   end).
Proof.
  unfold makeFieldNonPlural. simpl asArray. rewrite forEach_one.
  unfold bind, gets. simpl. rewrite Hget.
  destruct (fc_type fc) as [n|u|u|th]; try reflexivity.
  destruct u; reflexivity.
Qed.

End OneField.

Lemma get_withFields_set f fc s :
  get f (_gqcFields (withFields (set f fc (_gqcFields s)) s)) = Some fc.
Proof. simpl. apply get_set_same. Qed.

Lemma fieldType_Some f w s :
  fieldType f s = Some w ->
  exists fc, get f (_gqcFields s) = Some fc /\ fc_type fc = w.
Proof.
  unfold fieldType. destruct (get f (_gqcFields s)) as [fc|]; simpl;
    [|discriminate].
  intros [= <-]. eauto.
Qed.

End StepFacts.

(* ===================================================================== *)
(** * List and NonNull wrappers of a field *)
(* ===================================================================== *)

Module WrapperLaws.
Import ObjFacts StepFacts TypeMapperModel Fixtures.

(** The notation reader gives the wrapper layers the tests rely on. *)
Example notation_list_of_required :
  convertType (TypeAsString "[String!]!")
  = NonNullComposer (ListComposer (NonNullComposer (NamedTC "String"))).
Proof. reflexivity. Qed.

(** The expectations of that test, call by call. *)
Example test_plural_methods :
  let s1 := after (makeFieldPlural (NameArray ["b1"; "b2"; "b3"; "unexisted"]))
              pluralFixture in
  let s2 := after (makeFieldNonNull (OneName "b2")) s1 in
  let s3 :=
    after (makeFieldNonPlural (NameArray ["b2"; "b4"; "unexisted"])) s2 in
  let s4 :=
    after (makeFieldNullable (NameArray ["b2"; "b4"; "unexisted"])) s3 in
  (outcome (isFieldPlural "b1") pluralFixture = Returns false
   /\ outcome (isFieldPlural "b2") pluralFixture = Returns true
   /\ outcome (isFieldPlural "b4") pluralFixture = Returns true
   /\ outcome (isFieldNonNull "b2") pluralFixture = Returns false
   /\ outcome (isFieldNonNull "b4") pluralFixture = Returns true)
  /\ (outcome (isFieldPlural "b1") s1 = Returns true
      /\ outcome (isFieldPlural "b2") s1 = Returns true
      /\ outcome (isFieldPlural "b3") s1 = Returns true)
  /\ (s2 = pluralFixtureWrapped
      /\ fieldType "b2" s2
         = Some (NonNullComposer (ListComposer (NamedTC "String")))
      /\ outcome (isFieldPlural "b2") s2 = Returns true
      /\ outcome (isFieldNonNull "b2") s2 = Returns true)
  /\ (outcome (isFieldPlural "b2") s3 = Returns false
      /\ outcome (isFieldNonNull "b2") s3 = Returns true
      /\ outcome (isFieldPlural "b4") s3 = Returns false
      /\ fieldType "b2" s3 = Some (NonNullComposer (NamedTC "String"))
      /\ fieldType "b4" s3 = Some (NonNullComposer (NamedTC "String")))
  /\ (outcome (isFieldNonNull "b2") s4 = Returns false
      /\ outcome (isFieldNonNull "b4") s4 = Returns false).
Proof. repeat split. Qed.

Lemma makeFieldArgNonPlural_step f a fc args ac s :
  get f (_gqcFields s) = Some fc ->
  fc_args fc = Some args ->
  get a args = Some ac ->
  makeFieldArgNonPlural f (OneName a) s =
  (Returns tt,
   withFields
     (set f
        (withArgs fc
           match ac_type ac with
           | ListComposer inner => set a (withArgType ac inner) args
           | NonNullComposer (ListComposer inner) =>
               set a (withArgType ac (if isNonNullComposer inner then inner
                                      else NonNullComposer inner)) args
           | _ => args
           end)
        (_gqcFields s)) s).
Proof.
  intros Hf Hargs Ha. unfold makeFieldArgNonPlural.
  rewrite (bind_returns _ _ _ _ _ (getField_present f fc s Hf)).
  rewrite Hargs. simpl. rewrite Ha.
  unfold updateFieldArgs, modify, assignArgType.
  destruct (ac_type ac) as [n|u|u|th]; try reflexivity.
  destruct u; reflexivity.
Qed.

Lemma argType_Some f a w s :
  argType f a s = Some w ->
  exists fc args ac,
    get f (_gqcFields s) = Some fc /\ fc_args fc = Some args
    /\ get a args = Some ac /\ ac_type ac = w.
Proof.
  unfold argType. destruct (get f (_gqcFields s)) as [fc|]; [|discriminate].
  destruct (fc_args fc) as [args|] eqn:E; simpl; [|discriminate].
  destruct (get a args) as [ac|] eqn:Ea; simpl; [|discriminate].
  intros [= <-]. exists fc, args, ac. auto.
Qed.

(** C4, as the code has it. When [makeFieldNonPlural] (or
    [makeFieldArgNonPlural]) removes the list layer of a type
    [NonNull(List(inner))], the result is [inner] itself when [inner] is
    NonNull and [NonNull(inner)] otherwise: in both cases the resulting
    type is NonNull-wrapped. *)
Theorem makeFieldNonPlural_keeps_nonNull (f a : string) (inner : ComposeType)
    (s : State) :
  (fieldType f s = Some (NonNullComposer (ListComposer inner)) ->
   let s' := after (makeFieldNonPlural (OneName f)) s in
   fieldType f s'
   = Some (if isNonNullComposer inner then inner else NonNullComposer inner)
   /\ isFieldNonNull f s' = (Returns true, s'))
  /\
  (argType f a s = Some (NonNullComposer (ListComposer inner)) ->
   let s' := after (makeFieldArgNonPlural f (OneName a)) s in
   argType f a s'
   = Some (if isNonNullComposer inner then inner else NonNullComposer inner)
   /\ isFieldArgNonNull f a s' = (Returns true, s')).
Proof.
  split.
  - intros H. apply fieldType_Some in H as (fc & Hget & Hty).
    unfold after. rewrite (makeFieldNonPlural_step f fc s Hget), Hty. simpl.
    split.
    + unfold fieldType. simpl. now rewrite get_set_same.
    + unfold isFieldNonNull.
      rewrite (bind_returns _ _ _ _ _
                 (getField_present f _ _ (get_withFields_set f _ s))).
      unfold ret. simpl.
      destruct (isNonNullComposer inner) eqn:E; simpl; rewrite ?E; reflexivity.
  - intros H.
    apply argType_Some in H as (fc & args & ac & Hget & Hargs & Ha & Hty).
    unfold after.
    rewrite (makeFieldArgNonPlural_step f a fc args ac s Hget Hargs Ha), Hty.
    simpl. split.
    + unfold argType. simpl. rewrite get_set_same. simpl.
      now rewrite get_set_same.
    + unfold isFieldArgNonNull, getFieldArg, getFieldArgs, tryCatch.
      unfold bind at 1 2.
      rewrite (bind_returns _ _ _ _ _
                 (getField_present f _ _ (get_withFields_set f _ s))).
      unfold ret. simpl. unfold read. rewrite get_set_same. unfold ret. simpl.
      destruct (isNonNullComposer inner) eqn:E; simpl; rewrite ?E; reflexivity.
Qed.

(** C4, counterexample: field [b2] of the test is of type [[String]!]; its
    element type [String] is not NonNull, and [makeFieldNonPlural] still
    leaves a NonNull type, as the test expects. *)
Lemma makeFieldNonPlural_nullable_element_counterexample :
  ~ (forall f inner s,
       fieldType f s = Some (NonNullComposer (ListComposer inner)) ->
       isNonNullComposer inner = false ->
       option_map isNonNullComposer
         (fieldType f (after (makeFieldNonPlural (OneName f)) s))
       = Some false).
Proof.
  intros H.
  specialize (H "b2" (NamedTC "String") pluralFixtureWrapped eq_refl eq_refl).
  discriminate H.
Qed.

Lemma makeFieldNonPlural_keeps_nonNull_witness :
  fieldType "b4" (after (makeFieldNonPlural (OneName "b4")) pluralFixture)
  = Some (NonNullComposer (NamedTC "String"))
  /\ argType "f" "b2"
       (after (makeFieldArgNonPlural "f" (OneName "b2")) argFixture)
     = Some (NonNullComposer (NamedTC "String")).
Proof.
  split.
  - exact (proj1 (proj1 (makeFieldNonPlural_keeps_nonNull
                           "b4" "a" (NonNullComposer (NamedTC "String"))
                           pluralFixture) eq_refl)).
  - exact (proj1 (proj2 (makeFieldNonPlural_keeps_nonNull
                           "f" "b2" (NamedTC "String") argFixture) eq_refl)).
Defined.

(** C5. For a field of any type [w], [makeFieldPlural] followed by
    [makeFieldNonPlural] leaves the element type of the plural field: the
    field's type is [elementType w], so it is NonNull exactly when the
    element type was. A field that was not a list gets back its type [w],
    and the whole composer is as before. *)
Theorem makeFieldPlural_then_nonPlural (f : string) (w : ComposeType)
    (s : State) :
  fieldType f s = Some w ->
  let s1 := after (makeFieldPlural (OneName f)) s in
  let s2 := after (makeFieldPlural (OneName f) ;;;
                   makeFieldNonPlural (OneName f)) s in
  fieldType f s1 = Some (if isListComposer w then w else ListComposer w)
  /\ fieldType f s2 = Some (elementType w)
  /\ option_map isNonNullComposer (fieldType f s2)
     = Some (isNonNullComposer (elementType w))
  /\ (isListComposer w = false -> fieldType f s2 = Some w /\ s2 = s).
Proof.
  intros H. apply fieldType_Some in H as (fc & Hget & Hty).
  unfold after.
  rewrite (bind_returns _ _ _ _ _ (makeFieldPlural_step f fc s Hget)).
  rewrite (makeFieldPlural_step f fc s Hget). rewrite Hty.
  unfold elementType.
  destruct (isListComposer w) eqn:Hl.
  - rewrite (makeFieldNonPlural_step f fc s Hget), Hty.
    destruct w; try discriminate. simpl.
    unfold fieldType. simpl. rewrite get_set_same, Hget. simpl. rewrite Hty.
    repeat split; discriminate.
  - rewrite (makeFieldNonPlural_step f _ _ (get_withFields_set f _ s)).
    simpl. unfold fieldType. simpl.
    rewrite !set_set, !get_set_same, withType_withType. simpl.
    repeat split.
    rewrite <- Hty, withType_same, (set_get_id _ _ _ Hget).
    rewrite withFields_withFields. apply withFields_same.
Qed.

Lemma makeFieldPlural_then_nonPlural_witness :
  after (makeFieldPlural (OneName "b1") ;;; makeFieldNonPlural (OneName "b1"))
    pluralFixture = pluralFixture.
Proof.
  exact (proj2 (proj2 (proj2 (proj2
           (makeFieldPlural_then_nonPlural
              "b1" (NonNullComposer (NamedTC "String")) pluralFixture
              eq_refl))) eq_refl)).
Defined.

(** C6, as the code has it. For a field whose type [w] is not NonNull,
    [makeFieldNonNull] followed by [makeFieldNullable] gives back [w] and
    the composer as it was; for a type that is already NonNull
    [makeFieldNonNull] changes nothing, so the pair of calls strips the
    NonNull layer of [w]. For every [w], [makeFieldNonNull] twice is
    [makeFieldNonNull] once. *)
Theorem makeFieldNonNull_then_nullable (f : string) (w : ComposeType)
    (s : State) :
  fieldType f s = Some w ->
  let wrapped := after (makeFieldNonNull (OneName f)) s in
  let round := after (makeFieldNonNull (OneName f) ;;;
                      makeFieldNullable (OneName f)) s in
  (isNonNullComposer w = false -> fieldType f round = Some w /\ round = s)
  /\ (isNonNullComposer w = true ->
      wrapped = s /\ fieldType f round = Some (ofType w))
  /\ fieldType f wrapped
     = Some (if isNonNullComposer w then w else NonNullComposer w)
  /\ after (makeFieldNonNull (OneName f) ;;; makeFieldNonNull (OneName f)) s
     = wrapped.
Proof.
  intros H. apply fieldType_Some in H as (fc & Hget & Hty).
  unfold after.
  rewrite !(bind_returns _ _ _ _ _ (makeFieldNonNull_step f fc s Hget)).
  rewrite (makeFieldNonNull_step f fc s Hget). rewrite Hty.
  destruct (isNonNullComposer w) eqn:Hn.
  - rewrite (makeFieldNullable_step f fc s Hget).
    rewrite (makeFieldNonNull_step f fc s Hget). rewrite Hty, Hn. simpl.
    unfold fieldType. simpl. rewrite get_set_same, Hget. simpl. rewrite Hty.
    repeat split; discriminate.
  - rewrite (makeFieldNullable_step f _ _ (get_withFields_set f _ s)).
    rewrite (makeFieldNonNull_step f _ _ (get_withFields_set f _ s)).
    simpl. unfold fieldType. simpl.
    rewrite !set_set, !get_set_same, !withType_withType. simpl.
    repeat split; try discriminate.
    rewrite <- Hty, withType_same, (set_get_id _ _ _ Hget).
    rewrite withFields_withFields. apply withFields_same.
Qed.

(** C6, counterexample: a field of type [String!] is [String] after
    [makeFieldNonNull] and [makeFieldNullable], not [String!]. *)
Lemma makeFieldNonNull_then_nullable_counterexample :
  ~ (forall f w s,
       fieldType f s = Some w ->
       fieldType f (after (makeFieldNonNull (OneName f) ;;;
                           makeFieldNullable (OneName f)) s) = Some w).
Proof.
  intros H.
  specialize (H "fieldNN" (NonNullComposer (NamedTC "String")) nonNullFixture
                eq_refl).
  discriminate H.
Qed.

Lemma makeFieldNonNull_then_nullable_witness :
  after (makeFieldNonNull (OneName "field1") ;;;
         makeFieldNullable (OneName "field1")) nonNullFixture
  = nonNullFixture.
Proof.
  exact (proj2 (proj1 (makeFieldNonNull_then_nullable
                         "field1" (NamedTC "String") nonNullFixture eq_refl)
                  eq_refl)).
Defined.

End WrapperLaws.

(* ===================================================================== *)
(** * Field order *)
(* ===================================================================== *)

Module ReorderLaws.
Import ObjFacts StepFacts.

Lemma filter_filter_comm {A} (p q : A -> bool) (l : list A) :
  filter p (filter q l) = filter q (filter p l).
Proof.
  induction l as [|x l IH]; simpl; [reflexivity|].
  destruct (p x) eqn:Hp, (q x) eqn:Hq; simpl; rewrite ?Hp, ?Hq, IH; reflexivity.
Qed.

Lemma filter_filter_and {A} (p q : A -> bool) (l : list A) :
  filter p (filter q l) = filter (fun x => q x && p x) l.
Proof.
  induction l as [|x l IH]; simpl; [reflexivity|].
  destruct (q x) eqn:Hq; simpl; [destruct (p x)|]; now rewrite IH.
Qed.

Lemma firstOccurrences_filter (p : string -> bool) (l : list string) :
  firstOccurrences (filter p l) = filter p (firstOccurrences l).
Proof.
  induction l as [|x l IH]; simpl; [reflexivity|].
  destruct (p x) eqn:Hp; simpl; rewrite ?Hp, IH.
  - f_equal. apply filter_filter_comm.
  - rewrite filter_filter_and. apply filter_ext. intros y.
    destruct (String.eqb_spec x y); subst; simpl; [now rewrite Hp | reflexivity].
Qed.

Lemma firstOccurrences_incl (l : list string) k :
  In k (firstOccurrences l) -> In k l.
Proof.
  induction l as [|x l IH]; simpl; [tauto|].
  intros [->|H]; [now left|]. apply filter_In in H as [H _]. auto.
Qed.

Lemma notIndexOf_false_iff k names : notIndexOf k names = false <-> In k names.
Proof.
  unfold notIndexOf. rewrite negb_false_iff, existsb_exists. split.
  - intros (x & Hin & Heq). apply String.eqb_eq in Heq. now subst.
  - intros H. exists k. split; [assumption | apply String.eqb_refl].
Qed.

Lemma has_delete {A} n m (R : Obj A) :
  has m (delete n R) = has m R && negb (String.eqb n m).
Proof.
  unfold has. destruct (String.eqb_spec n m); subst; simpl.
  - rewrite get_delete_same. now rewrite andb_false_r.
  - rewrite get_delete_other by congruence. now rewrite andb_true_r.
Qed.

Lemma requestedFront_present {A} n ns (v : A) (R : Obj A) :
  get n R = Some v ->
  requestedFront (n :: ns) R = n :: requestedFront ns (delete n R).
Proof.
  intros H. unfold requestedFront. simpl. unfold has at 1. rewrite H. simpl.
  f_equal. rewrite <- firstOccurrences_filter. f_equal.
  rewrite filter_filter_and. apply filter_ext. intros m. symmetry. apply has_delete.
Qed.

Lemma requestedFront_absent {A} n ns (R : Obj A) :
  get n R = None -> requestedFront (n :: ns) R = requestedFront ns R.
Proof.
  intros H. unfold requestedFront. simpl. unfold has at 1. now rewrite H.
Qed.

Lemma untouchedRest_present {A} n ns (R : Obj A) :
  untouchedRest (n :: ns) R = untouchedRest ns (delete n R).
Proof.
  unfold untouchedRest. rewrite keys_delete, filter_filter_and.
  apply filter_ext. intros k. unfold notIndexOf. simpl.
  rewrite negb_orb, (String.eqb_sym k n). reflexivity.
Qed.

Lemma untouchedRest_absent {A} n ns (R : Obj A) :
  get n R = None -> untouchedRest (n :: ns) R = untouchedRest ns R.
Proof.
  intros H. rewrite untouchedRest_present. now rewrite delete_absent.
Qed.

(** For a name that is no member of [Object.prototype] the read and the
    assignment are those of own properties. *)
Lemma readFound_plain {A} n (R : Obj (Found A)) :
  inPrototype n = false -> readFound n R = get n R.
Proof. intros H. unfold readFound. rewrite H. now destruct (get n R). Qed.

Lemma assign_plain {A} n (v : A) (O : Obj A) :
  inPrototype n = false -> assign n v O = set n v O.
Proof.
  intros H. unfold assign.
  destruct (String.eqb_spec n "__proto__") as [->|_]; [discriminate H|].
  reflexivity.
Qed.

Lemma reorderStep_plain n (O R : RawFields) :
  inPrototype n = false ->
  reorderStep (O, R) n
  = match get n R with
    | Some field => (set n field O, delete n R)
    | None => (O, R)
    end.
Proof.
  intros H. unfold reorderStep. rewrite (readFound_plain _ _ H).
  destruct (get n R); [now rewrite (assign_plain _ _ _ H) | reflexivity].
Qed.

(** The loop of [reorderFields], from any pair of disjoint objects. *)
Lemma reorder_loop names :
  (forall n, In n names -> inPrototype n = false) ->
  forall O R : RawFields, wf R -> disjoint O R ->
  exists O' R',
    fold_left reorderStep names (O, R) = (O', R')
    /\ keys O' = keys O ++ requestedFront names R
    /\ keys R' = untouchedRest names R
    /\ forall k, get k (O' ++ R') = get k (O ++ R).
Proof.
  induction names as [|n ns IH]; intros Hplain O R Hwf Hdis.
  - exists O, R. unfold requestedFront, untouchedRest. simpl.
    rewrite app_nil_r. repeat split.
    symmetry. apply forallb_filter_id. apply forallb_forall. reflexivity.
  - assert (Hn0 : inPrototype n = false) by (apply Hplain; now left).
    assert (Hns : forall m, In m ns -> inPrototype m = false)
      by (intros m Hm; apply Hplain; now right).
    cbn [fold_left]. rewrite (reorderStep_plain _ _ _ Hn0).
    destruct (get n R) as [fc|] eqn:Hn.
    + assert (HnO : get n O = None).
      { apply get_None_iff. intros Hin. apply (Hdis n Hin).
        eapply get_Some_in; eauto. }
      rewrite (set_absent _ _ _ HnO).
      destruct (IH Hns (O ++ [(n, fc)]) (delete n R))
        as (O' & R' & Hf & HO & HR & Hg).
      { now apply wf_delete. }
      { intros k Hk. rewrite keys_app in Hk. rewrite keys_delete, filter_In.
        apply in_app_or in Hk as [Hk|[<-|[]]].
        - intros [Hin _]. exact (Hdis k Hk Hin).
        - rewrite String.eqb_refl. intros [_ ?]. discriminate. }
      exists O', R'. split; [exact Hf|]. split; [|split].
      * rewrite HO, keys_app, (requestedFront_present _ _ _ _ Hn).
        simpl. now rewrite <- app_assoc.
      * now rewrite untouchedRest_present.
      * intros k. rewrite Hg, !get_app. simpl.
        destruct (get k O) eqn:HkO; [reflexivity|].
        destruct (String.eqb_spec k n); subst; [now rewrite Hn|].
        now apply get_delete_other.
    + destruct (IH Hns O R Hwf Hdis) as (O' & R' & Hf & HO & HR & Hg).
      exists O', R'. split; [exact Hf|]. split; [|split].
      * now rewrite (requestedFront_absent _ _ _ Hn).
      * now rewrite (untouchedRest_absent _ _ _ Hn).
      * exact Hg.
Qed.

Lemma reorderFields_run names (fields : RawFields) :
  (forall n, In n names -> inPrototype n = false) ->
  wf fields ->
  keys (reorderFields names fields)
  = requestedFront names fields ++ untouchedRest names fields
  /\ forall k, get k (reorderFields names fields) = get k fields.
Proof.
  intros Hplain Hwf.
  destruct (reorder_loop names Hplain [] fields Hwf)
    as (O' & R' & Hf & HO & HR & Hg).
  { intros k []. }
  unfold reorderFields.
  repeat match goal with
  | |- context [fold_left reorderStep names ?x] =>
      replace (fold_left reorderStep names x) with (O', R')
        by (symmetry; exact Hf)
  end.
  assert (Hsp : spread O' R' = O' ++ R').
  { apply spread_disjoint.
    - unfold wf. rewrite HR. apply NoDup_filter. exact Hwf.
    - intros k Hk HkO. rewrite HR in Hk. rewrite HO in HkO. simpl in HkO.
      apply filter_In in Hk as [_ Hk].
      apply firstOccurrences_incl, filter_In in HkO as [HkO _].
      apply notIndexOf_false_iff in HkO. congruence. }
  rewrite Hsp. split.
  - now rewrite keys_app, HO, HR.
  - exact Hg.
Qed.

Lemma keys_rawFields (fields : Obj FieldConfig) :
  keys (rawFields fields) = keys fields.
Proof.
  unfold rawFields, keys. rewrite map_map. apply map_ext. now intros [k v].
Qed.

Lemma get_rawFields k (fields : Obj FieldConfig) :
  get k (rawFields fields) = option_map Own (get k fields).
Proof.
  induction fields as [|[k' v] fields IH]; simpl; [reflexivity|].
  destruct (String.eqb k k'); [reflexivity | exact IH].
Qed.

Lemma abcFixture_wf : wf (_gqcFields Fixtures.abcFixture).
Proof. repeat constructor; simpl; intuition discriminate. Qed.

(** C9, where the code departs from it. [reorderFields] tests
    [fields[name]], a read that finds the members of [Object.prototype]:
    given the name [constructor] on a field map without such a field, the
    loop takes the member for a field and the call leaves a field map
    whose first key is [constructor], holding that member, in front of
    the fields in their old order, instead of skipping the name. *)
Theorem reorderFields_prototype_member (fields : Obj FieldConfig) :
  wf fields ->
  get "constructor" fields = None ->
  reorderFields ["constructor"] (rawFields fields)
  = ("constructor", Inherited "constructor") :: rawFields fields
  /\ keys (reorderFields ["constructor"] (rawFields fields))
     = "constructor" :: keys fields.
Proof.
  intros Hwf Habsent.
  assert (Hraw : get "constructor" (rawFields fields) = None)
    by (now rewrite get_rawFields, Habsent).
  assert (Hrun : reorderFields ["constructor"] (rawFields fields)
                 = ("constructor", Inherited "constructor")
                   :: rawFields fields).
  { unfold reorderFields. cbn [fold_left]. unfold reorderStep, readFound.
    rewrite Hraw. simpl. rewrite (delete_absent _ _ Hraw).
    change (assign "constructor" (@Inherited FieldConfig "constructor") [])
      with [("constructor", @Inherited FieldConfig "constructor")].
    rewrite spread_disjoint; [reflexivity | |].
    - unfold wf. now rewrite keys_rawFields.
    - intros k Hk [<-|[]]. apply get_None_iff in Hraw. contradiction. }
  split; [exact Hrun|].
  rewrite Hrun. simpl. now rewrite keys_rawFields.
Qed.

Lemma reorderFields_prototype_member_witness :
  keys (reorderFields ["constructor"]
          (rawFields (_gqcFields Fixtures.abcFixture)))
  = ["constructor"; "a"; "b"; "c"].
Proof.
  exact (proj2 (reorderFields_prototype_member
                  (_gqcFields Fixtures.abcFixture) abcFixture_wf eq_refl)).
Defined.

End ReorderLaws.

(* ===================================================================== *)
(** * Field queries, extendField and deprecateFields *)
(* ===================================================================== *)

Module FieldLaws.
Import ObjFacts StepFacts Fixtures.

Lemma getField_absent f s :
  get f (_gqcFields s) = None ->
  inPrototype f = false ->
  getField f s
  = (Throws (VError ("Cannot get field '" ++ f ++ "' from type '"
                     ++ typeName s ++ "'. Field does not exist.")), s).
Proof.
  intros H P. unfold getField, bind, gets, read. simpl. now rewrite H, P.
Qed.

Lemma getField_inherited f s :
  get f (_gqcFields s) = None ->
  inPrototype f = true ->
  getField f s = (Returns (Inherited f), s).
Proof.
  intros H P. unfold getField, bind, gets, read. simpl. now rewrite H, P.
Qed.

Lemma getFieldArgs_present f fc s :
  get f (_gqcFields s) = Some fc ->
  getFieldArgs f s = (Returns (orEmpty (fc_args fc)), s).
Proof.
  intros H. unfold getFieldArgs, tryCatch.
  now rewrite (bind_returns _ _ _ _ _ (getField_present f fc s H)).
Qed.

Lemma getFieldArgs_absent f s :
  get f (_gqcFields s) = None ->
  inPrototype f = false ->
  getFieldArgs f s
  = (Throws (VError ("Cannot get args from '" ++ typeName s ++ "." ++ f
                     ++ "'. Field does not exist.")), s).
Proof.
  intros H P. unfold getFieldArgs, tryCatch.
  now rewrite (bind_throws _ _ _ _ _ (getField_absent f s H P)).
Qed.

Lemma getFieldArgs_inherited f s :
  get f (_gqcFields s) = None ->
  inPrototype f = true ->
  getFieldArgs f s = (Returns [], s).
Proof.
  intros H P. unfold getFieldArgs, tryCatch.
  now rewrite (bind_returns _ _ _ _ _ (getField_inherited f s H P)).
Qed.

(** What [hasFieldArg] computes: whether the read of the field map finds
    something under the field name and the read of its arguments finds
    something under the argument name. *)
Lemma hasFieldArg_run f a s :
  hasFieldArg f a s
  = (Returns match read f (_gqcFields s) with
             | Some field => isIn a (orEmpty (argsOf field))
             | None => false
             end, s).
Proof.
  unfold hasFieldArg, tryCatch, read.
  destruct (get f (_gqcFields s)) as [fc|] eqn:E.
  - now rewrite (bind_returns _ _ _ _ _ (getFieldArgs_present f fc s E)).
  - destruct (inPrototype f) eqn:P.
    + now rewrite (bind_returns _ _ _ _ _ (getFieldArgs_inherited f s E P)).
    + now rewrite (bind_throws _ _ _ _ _ (getFieldArgs_absent f s E P)).
Qed.

(** C10, where the code departs from it. [hasFieldArg] relies on
    [getField] throwing for a field that does not exist, and [getField]
    tests a plain read of the field map. On a type without a field
    [constructor] the read finds [Object.prototype.constructor]: nothing
    is thrown, the arguments read as the empty object, the read of
    [toString] in it finds [Object.prototype.toString], and
    [hasFieldArg('constructor', 'toString')] returns [true] for a field
    that does not exist. The same read makes
    [hasFieldArg(f, 'toString')] true for every field [f] that exists,
    whatever its arguments. *)
Theorem hasFieldArg_prototype_member (s : State) :
  get "constructor" (_gqcFields s) = None ->
  hasFieldArg "constructor" "toString" s = (Returns true, s)
  /\ getFieldArgs "constructor" s = (Returns [], s)
  /\ getFieldArg "constructor" "toString" s
     = (Returns (Inherited "toString"), s)
  /\ (forall f fc, get f (_gqcFields s) = Some fc ->
        hasFieldArg f "toString" s = (Returns true, s)).
Proof.
  intros H. split; [|split; [|split]].
  - rewrite hasFieldArg_run. unfold read. now rewrite H.
  - now apply getFieldArgs_inherited.
  - unfold getFieldArg.
    now rewrite (bind_returns _ _ _ _ _
                   (getFieldArgs_inherited "constructor" s H eq_refl)).
  - intros f fc Hf. rewrite hasFieldArg_run. unfold read. rewrite Hf.
    simpl. unfold isIn, read.
    now destruct (get "toString" (orEmpty (fc_args fc))).
Qed.

Lemma hasFieldArg_prototype_member_witness :
  hasFieldArg "constructor" "toString" argsFixture = (Returns true, argsFixture)
  /\ hasFieldArg "field1" "toString" argsFixture = (Returns true, argsFixture)
  /\ outcome (getFieldArgNames "field1") argsFixture
     = Returns ["arg1"; "arg2"].
Proof.
  pose proof (hasFieldArg_prototype_member argsFixture eq_refl)
    as (H1 & _ & _ & H2).
  split; [exact H1|]. split; [exact (H2 "field1" _ eq_refl) | reflexivity].
Defined.

Lemma tryCatch_returns {A} (m : M A) h s a s1 :
  m s = (Returns a, s1) -> tryCatch m h s = (Returns a, s1).
Proof. unfold tryCatch. now intros ->. Qed.

Lemma tryCatch_throws {A} (m : M A) h s e s1 :
  m s = (Throws e, s1) -> tryCatch m h s = h e s1.
Proof. unfold tryCatch. now intros ->. Qed.

Section WithMapper.
Variable conv : FieldConfigDefinition -> Completion FieldConfig.

Lemma setField_run f def s :
  setField conv f def s
  = match conv def with
    | Returns fc => (Returns tt, withFields (set f fc (_gqcFields s)) s)
    | Throws e => (Throws e, s)
    end.
Proof. unfold setField. now destruct (conv def). Qed.

Lemma extendField_present f partial prev s :
  get f (_gqcFields s) = Some prev ->
  extendField conv f partial s
  = setField conv f (FieldAsObject (extendedConfig (Own prev) partial)) s.
Proof.
  intros H. unfold extendField.
  now rewrite (bind_returns _ _ _ _ _
                 (tryCatch_returns _ _ _ _ _ (getField_present f prev s H))).
Qed.

Lemma extendField_inherited f partial s :
  get f (_gqcFields s) = None ->
  inPrototype f = true ->
  extendField conv f partial s
  = setField conv f (FieldAsObject (extendedConfig (Inherited f) partial)) s.
Proof.
  intros H P. unfold extendField.
  now rewrite (bind_returns _ _ _ _ _
                 (tryCatch_returns _ _ _ _ _ (getField_inherited f s H P))).
Qed.

Lemma extendField_absent f partial s :
  get f (_gqcFields s) = None ->
  inPrototype f = false ->
  extendField conv f partial s
  = (Throws (VError ("Cannot extend field '" ++ f ++ "' from type '"
                     ++ typeName s ++ "'. Field does not exist.")), s).
Proof.
  intros H P. unfold extendField.
  apply bind_throws.
  now rewrite (tryCatch_throws _ _ _ _ _ (getField_absent f s H P)).
Qed.

(** C8, where the code departs from it. [extendField] learns that a field
    is absent from [getField] throwing, and [getField] tests a plain read
    of the field map. On a type without a field [constructor] the read
    finds [Object.prototype.constructor]: no unknown-field error is
    thrown, the member is spread as the previous config (it has no own
    enumerable property) and [setField] is handed the partial config with
    its [extensions] copied. When the type mapper accepts that, the call
    returns and the type has a new field [constructor], last in the field
    order. *)
Theorem extendField_prototype_member
    (partial : FieldConfigAsObjectDefinition) (s : State) :
  get "constructor" (_gqcFields s) = None ->
  let handed := extendedConfig (Inherited "constructor") partial in
  extendField conv "constructor" partial s
  = setField conv "constructor" (FieldAsObject handed) s
  /\ d_type handed = d_type partial
  /\ d_extensions handed = Some (spread [] (orEmpty (d_extensions partial)))
  /\ (forall fc, conv (FieldAsObject handed) = Returns fc ->
        extendField conv "constructor" partial s
        = (Returns tt,
           withFields (_gqcFields s ++ [("constructor", fc)]) s)).
Proof.
  intros H handed.
  assert (Hrun : extendField conv "constructor" partial s
                 = setField conv "constructor" (FieldAsObject handed) s)
    by (now apply extendField_inherited).
  split; [exact Hrun|]. split; [|split].
  - subst handed. simpl. now destruct (d_type partial).
  - reflexivity.
  - intros fc Hfc. rewrite Hrun, setField_run, Hfc.
    now rewrite (set_absent _ _ _ H).
Qed.

(** X30. [extendField] on a name under which the read of the field map
    finds nothing (no field, and no member of [Object.prototype]) throws
    the unknown-field error and leaves the composer as it was. On an
    existing field it hands [setField] the merge of the partial config
    over the field's config: every key is the partial's when the partial
    has it and the field's otherwise, except [extensions], whose keys are
    those of both objects, the partial's value winning on a common key.
    The field then holds what the type mapper makes of the merge, at the
    place it had in the field order, and the other fields are as before;
    when the mapper throws, its error is passed on and nothing changes. *)
Theorem extendField_merge (f : string)
    (partial : FieldConfigAsObjectDefinition) (s : State) :
  (get f (_gqcFields s) = None ->
   inPrototype f = false ->
   extendField conv f partial s
   = (Throws (VError ("Cannot extend field '" ++ f ++ "' from type '"
                      ++ typeName s ++ "'. Field does not exist.")), s))
  /\
  (forall prev, get f (_gqcFields s) = Some prev ->
   let merged := extendedConfig (Own prev) partial in
   extendField conv f partial s
   = match conv (FieldAsObject merged) with
     | Returns fc => (Returns tt, withFields (set f fc (_gqcFields s)) s)
     | Throws e => (Throws e, s)
     end
   /\ (forall fc, keys (set f fc (_gqcFields s)) = keys (_gqcFields s)
                  /\ get f (set f fc (_gqcFields s)) = Some fc
                  /\ forall g, g <> f ->
                       get g (set f fc (_gqcFields s)) = get g (_gqcFields s))
   /\ d_type merged
      = match d_type partial with
        | Some t => Some t
        | None => Some (TypeAsComposer (fc_type prev))
        end
   /\ d_args merged
      = match d_args partial with
        | Some args => Some args
        | None => option_map
                    (map (fun kv => (fst kv, argAsDefinition (snd kv))))
                    (fc_args prev)
        end
   /\ d_resolve merged
      = match d_resolve partial with
        | Some r => Some r
        | None => fc_resolve prev
        end
   /\ d_deprecationReason merged
      = match d_deprecationReason partial with
        | Some v => Some v
        | None => fc_deprecationReason prev
        end
   /\ d_description merged
      = match d_description partial with
        | Some v => Some v
        | None => fc_description prev
        end
   /\ d_projection merged
      = match d_projection partial with
        | Some v => Some v
        | None => fc_projection prev
        end
   /\ (wf (d_other partial) ->
       forall k, get k (d_other merged)
                 = match get k (d_other partial) with
                   | Some v => Some v
                   | None => get k (fc_other prev)
                   end)
   /\ exists ext,
        d_extensions merged = Some ext
        /\ (wf (orEmpty (d_extensions partial)) ->
            forall k, get k ext
                      = match get k (orEmpty (d_extensions partial)) with
                        | Some v => Some v
                        | None => get k (orEmpty (fc_extensions prev))
                        end)).
Proof.
  split; [apply extendField_absent|].
  intros prev Hget merged.
  split; [|split].
  - rewrite (extendField_present _ _ _ _ Hget). apply setField_run.
  - intros fc. split; [|split].
    + eapply keys_set_present; eauto.
    + apply get_set_same.
    + intros g Hg. now apply get_set_other.
  - subst merged. simpl.
    split; [now destruct (d_type partial)|].
    split; [now destruct (d_args partial)|].
    split; [now destruct (d_resolve partial)|].
    split; [now destruct (d_deprecationReason partial)|].
    split; [now destruct (d_description partial)|].
    split; [now destruct (d_projection partial)|].
    split.
    + intros Hwf k. now apply get_spread.
    + eexists. split; [reflexivity|]. intros Hwf k. now apply get_spread.
Qed.

End WithMapper.

Import TypeMapperModel.

Lemma extendField_prototype_member_witness :
  let call := extendField convertOutputFieldConfig "constructor"
                MoreFixtures.typePartial in
  outcome call abcFixture = Returns tt
  /\ keys (_gqcFields (after call abcFixture))
     = ["a"; "b"; "c"; "constructor"]
  /\ fieldType "constructor" (after call abcFixture)
     = Some (NamedTC "String").
Proof.
  pose proof (proj2 (proj2 (proj2
                (extendField_prototype_member convertOutputFieldConfig
                   MoreFixtures.typePartial abcFixture eq_refl)))
                _ eq_refl) as Hrun.
  unfold outcome, after. rewrite Hrun. repeat split.
Defined.

Lemma extendField_merge_witness :
  extendField convertOutputFieldConfig "unexisted" extensionsPartial
    extensionsFixture
  = (Throws (VError
       "Cannot extend field 'unexisted' from type 'Readable'. Field does not exist."),
     extensionsFixture)
  /\ outcome (extendField convertOutputFieldConfig "field3" extensionsPartial)
       extensionsFixture = Returns tt
  /\ option_map fc_extensions
       (get "field3"
          (_gqcFields
             (after (extendField convertOutputFieldConfig "field3"
                       extensionsPartial) extensionsFixture)))
     = Some (Some [("first", VBool true); ("second", VBool true)])
  /\ keys (_gqcFields
             (after (extendField convertOutputFieldConfig "field3"
                       extensionsPartial) extensionsFixture))
     = ["field1"; "field3"; "field2"].
Proof.
  pose proof (extendField_merge convertOutputFieldConfig "unexisted"
                extensionsPartial extensionsFixture) as [Habsent _].
  pose proof (extendField_merge convertOutputFieldConfig "field3"
                extensionsPartial extensionsFixture) as [_ Hpresent].
  split; [exact (Habsent eq_refl eq_refl)|].
  destruct (Hpresent _ eq_refl) as [Hrun _].
  unfold outcome, after. rewrite Hrun. repeat split.
Defined.

Section Deprecation.
Variable conv : FieldConfigDefinition -> Completion FieldConfig.

Lemma extendField_typeName f partial s :
  typeName (snd (extendField conv f partial s)) = typeName s.
Proof.
  destruct (get f (_gqcFields s)) as [prev|] eqn:E.
  - rewrite (extendField_present conv _ _ _ _ E), setField_run.
    now destruct (conv _).
  - destruct (inPrototype f) eqn:P.
    + rewrite (extendField_inherited conv _ _ _ E P), setField_run.
      now destruct (conv _).
    + now rewrite (extendField_absent conv _ _ _ E P).
Qed.

Lemma forEach_typeName {A} (xs : list A) (step : A -> M unit) :
  (forall x s, typeName (snd (step x s)) = typeName s) ->
  forall s, typeName (snd (forEach xs step s)) = typeName s.
Proof.
  intros Hstep. induction xs as [|x xs IH]; intros s; simpl; [reflexivity|].
  unfold bind. specialize (Hstep x s).
  destruct (step x s) as [[[]|e] s1]; simpl in *; [|assumption].
  now rewrite IH.
Qed.

(** One iteration of the loops of [deprecateFields]. *)
Lemma deprecate_step_typeName names reason field s :
  typeName
    (snd (((if notIndexOf field names
            then tn <- getTypeName ;;
                 throwError ("Cannot deprecate unexisted field '" ++ field
                             ++ "' from type '" ++ tn ++ "'")
            else ret tt) ;;;
           extendField conv field (deprecationDef reason)) s))
  = typeName s.
Proof.
  unfold bind at 1. destruct (notIndexOf field names); simpl.
  - reflexivity.
  - apply extendField_typeName.
Qed.

Lemma notIndexOf_keys field (fields : Obj FieldConfig) :
  get field fields = None -> notIndexOf field (keys fields) = true.
Proof.
  intros H. destruct (notIndexOf field (keys fields)) eqn:E; [reflexivity|].
  apply ReorderLaws.notIndexOf_false_iff in E.
  apply get_None_iff in H. contradiction.
Qed.

(** A loop over names that reaches a name for which its step throws. *)
Lemma forEach_stops {A} (pre post : list A) (bad : A) (step : A -> M unit)
    (e : State -> Value) s :
  (forall s1, step bad s1 = (Throws (e s1), s1)) ->
  forEach (pre ++ bad :: post) step s
  = match forEach pre step s with
    | (Returns _, s1) => (Throws (e s1), s1)
    | (Throws e', s1) => (Throws e', s1)
    end.
Proof.
  intros Hbad. rewrite forEach_app. unfold bind at 1.
  destruct (forEach pre step s) as [[[]|e'] s1]; [|reflexivity].
  simpl. unfold bind. now rewrite Hbad.
Qed.

Lemma deprecateFields_array fields s :
  deprecateFields conv (DeprecateArray fields) s
  = forEach fields
      (fun field =>
         (if notIndexOf field (keys (_gqcFields s))
          then tn <- getTypeName ;;
               throwError ("Cannot deprecate unexisted field '" ++ field
                           ++ "' from type '" ++ tn ++ "'")
          else ret tt) ;;;
         extendField conv field (deprecationDef "deprecated")) s.
Proof. reflexivity. Qed.

Lemma deprecateFields_map fieldMap s :
  deprecateFields conv (DeprecateMap fieldMap) s
  = forEach fieldMap
      (fun entry =>
         (if notIndexOf (fst entry) (keys (_gqcFields s))
          then tn <- getTypeName ;;
               throwError ("Cannot deprecate unexisted field '" ++ fst entry
                           ++ "' from type '" ++ tn ++ "'")
          else ret tt) ;;;
         extendField conv (fst entry) (deprecationDef (snd entry))) s.
Proof. reflexivity. Qed.

(** C3, as the code has it. [deprecateFields] checks a name right before
    it deprecates it. Given a single name that is not a field, the call
    throws the unknown-field error and changes nothing. Given a list or a
    map, it deprecates the entries in order and throws the unknown-field
    error at the first name that is not a field: the composer is then as
    the call on the entries before that name leaves it, and the entries
    after it are not looked at. *)
Theorem deprecateFields_stops_at_unknown (bad : string) (s : State) :
  get bad (_gqcFields s) = None ->
  deprecateFields conv (DeprecateString bad) s
  = (Throws (VError (unexistedFieldMessage bad s)), s)
  /\ (forall pre post,
        deprecateFields conv (DeprecateArray (pre ++ bad :: post)) s
        = match deprecateFields conv (DeprecateArray pre) s with
          | (Returns _, s1) => (Throws (VError (unexistedFieldMessage bad s)), s1)
          | (Throws e, s1) => (Throws e, s1)
          end)
  /\ (forall pre reason post,
        deprecateFields conv (DeprecateMap (pre ++ (bad, reason) :: post)) s
        = match deprecateFields conv (DeprecateMap pre) s with
          | (Returns _, s1) => (Throws (VError (unexistedFieldMessage bad s)), s1)
          | (Throws e, s1) => (Throws e, s1)
          end).
Proof.
  intros Hbad. pose proof (notIndexOf_keys _ _ Hbad) as Hidx.
  split; [|split].
  - unfold deprecateFields, getFieldNames, bind, gets. simpl.
    now rewrite Hidx.
  - intros pre post. rewrite !deprecateFields_array.
    rewrite (forEach_stops pre post bad _
               (fun s1 => VError (unexistedFieldMessage bad s1))).
    + match goal with
      | |- context [forEach pre ?step s] =>
          pose proof (forEach_typeName pre step
                        (deprecate_step_typeName _ "deprecated") s) as Htn;
          destruct (forEach pre step s) as [[[]|e] s1]
      end; [|reflexivity].
      unfold unexistedFieldMessage. simpl in Htn. now rewrite Htn.
    + intros s1. unfold bind, getTypeName, gets. rewrite Hidx. reflexivity.
  - intros pre reason post. rewrite !deprecateFields_map.
    rewrite (forEach_stops pre post (bad, reason) _
               (fun s1 => VError (unexistedFieldMessage bad s1))).
    + match goal with
      | |- context [forEach pre ?step s] =>
          pose proof (forEach_typeName pre step
                        (fun x => deprecate_step_typeName _ (snd x) (fst x)) s)
            as Htn;
          destruct (forEach pre step s) as [[[]|e] s1]
      end; [|reflexivity].
      unfold unexistedFieldMessage. simpl in Htn. now rewrite Htn.
    + intros s1. unfold bind, getTypeName, gets. simpl. rewrite Hidx.
      reflexivity.
Qed.

End Deprecation.

Lemma deprecateFields_stops_at_unknown_witness :
  deprecateFields convertOutputFieldConfig (DeprecateString "zzz") abcFixture
  = (Throws (VError "Cannot deprecate unexisted field 'zzz' from type 'MyType'"),
     abcFixture)
  /\ deprecateFields convertOutputFieldConfig (DeprecateArray ["a"; "zzz"; "b"])
       abcFixture
     = (Throws (VError "Cannot deprecate unexisted field 'zzz' from type 'MyType'"),
        after (deprecateFields convertOutputFieldConfig (DeprecateArray ["a"]))
          abcFixture)
  /\ deprecateFields convertOutputFieldConfig
       (DeprecateMap [("b", "dont use"); ("zzz", "old field")]) abcFixture
     = (Throws (VError "Cannot deprecate unexisted field 'zzz' from type 'MyType'"),
        after (deprecateFields convertOutputFieldConfig
                 (DeprecateMap [("b", "dont use")])) abcFixture).
Proof.
  destruct (deprecateFields_stops_at_unknown convertOutputFieldConfig
              "zzz" abcFixture eq_refl) as (Hone & Harray & Hmap).
  split; [exact Hone|]. split.
  - exact (Harray ["a"] ["b"]).
  - exact (Hmap [("b", "dont use")] "old field" []).
Defined.

(** The expectations of the tests 'should accept array of string' and
    'should accept object with fields and reasons', on fields [a], [b],
    [c]. *)
Example test_deprecateFields :
  let s1 := after (deprecateFields convertOutputFieldConfig
                     (DeprecateArray ["a"; "b"])) abcFixture in
  let s2 := after (deprecateFields convertOutputFieldConfig
                     (DeprecateMap [("b", "dont use"); ("c", "old field")]))
              abcFixture in
  (fieldDeprecation "a" s1 = Some (VStr "deprecated")
   /\ fieldDeprecation "b" s1 = Some (VStr "deprecated")
   /\ fieldDeprecation "c" s1 = None)
  /\ (fieldDeprecation "a" s2 = None
      /\ fieldDeprecation "b" s2 = Some (VStr "dont use")
      /\ fieldDeprecation "c" s2 = Some (VStr "old field"))
  /\ keys (_gqcFields s1) = ["a"; "b"; "c"].
Proof. repeat split. Qed.

(** C3, counterexample: on fields [a], [b], [c] without deprecation
    reasons, [deprecateFields(['a', 'zzz'])] throws the unknown-field error
    for [zzz] and field [a] is deprecated all the same. *)
Lemma deprecateFields_not_atomic_counterexample :
  let call := deprecateFields convertOutputFieldConfig
                (DeprecateArray ["a"; "zzz"]) in
  has "a" (_gqcFields abcFixture) = true
  /\ has "zzz" (_gqcFields abcFixture) = false
  /\ fieldDeprecation "a" abcFixture = None
  /\ outcome call abcFixture
     = Throws (VError "Cannot deprecate unexisted field 'zzz' from type 'MyType'")
  /\ fieldDeprecation "a" (after call abcFixture) = Some (VStr "deprecated").
Proof. repeat split. Qed.

End FieldLaws.

(* ===================================================================== *)
(** * Relations *)
(* ===================================================================== *)

Module RelationLaws.
Import ObjFacts StepFacts Fixtures.

(** What a successful compilation returns. *)
Lemma relation_compiled opts fieldName s fc s' :
  _relationWithResolverToFC opts fieldName s = (Returns fc, s') ->
  exists r,
    resolverOf opts = IsResolver r
    /\ s' = s
    /\ fc = {| fc_type := res_type r;
               fc_args :=
                 Some (argsConfig (prepareArgs (res_args r)
                                     (orEmpty (o_prepareArgs opts))));
               fc_resolve :=
                 Some (relationResolve (typeName s) fieldName
                         (prepareArgs (res_args r)
                            (orEmpty (o_prepareArgs opts)))
                         (catchErrorsOf opts) (res_fieldConfigResolve r));
               fc_deprecationReason := Some (o_deprecationReason opts);
               fc_description :=
                 Some (if truthy (o_description opts)
                       then o_description opts
                       else res_description r);
               fc_extensions := None;
               fc_projection := Some (o_projection opts);
               fc_other := [] |}.
Proof.
  unfold _relationWithResolverToFC, resolverOf, catchErrorsOf.
  unfold bind, getTypeName, gets, throwError, ret.
  destruct (match o_resolver opts with Thunked f => f tt | Direct r => r end)
    as [r|v]; [|discriminate].
  destruct (truthy (o_type opts)); [discriminate|].
  destruct (o_resolve opts); [discriminate|].
  intros [= <- <-]. exists r. auto.
Qed.

(** A relation that names a resolver and neither [type] nor [resolve]
    compiles. *)
Lemma relation_compiles opts fieldName s r :
  resolverOf opts = IsResolver r ->
  truthy (o_type opts) = false ->
  o_resolve opts = None ->
  exists fc, _relationWithResolverToFC opts fieldName s = (Returns fc, s).
Proof.
  unfold _relationWithResolverToFC, resolverOf.
  unfold bind, getTypeName, gets, throwError, ret.
  intros -> -> ->. eauto.
Qed.

(** C7, as the code has it. The field config compiled from a relation has
    the delegate resolver's [type] as it is; its [description] is the
    relation's when that is truthy and the resolver's otherwise; its
    [deprecationReason] is the relation's own value, [undefined] when the
    relation gives none, whatever the resolver's metadata says. *)
Theorem relation_descriptor (opts : RelationOpts) (fieldName : string)
    (s s' : State) (fc : FieldConfig) :
  _relationWithResolverToFC opts fieldName s = (Returns fc, s') ->
  exists r,
    resolverOf opts = IsResolver r
    /\ fc_type fc = res_type r
    /\ fc_description fc
       = Some (if truthy (o_description opts) then o_description opts
               else res_description r)
    /\ (truthy (o_description opts) = false ->
        fc_description fc = Some (res_description r))
    /\ fc_deprecationReason fc = Some (o_deprecationReason opts).
Proof.
  intros H. apply relation_compiled in H as (r & Hr & -> & ->).
  exists r. simpl. repeat split; auto.
  intros ->. reflexivity.
Qed.

Lemma relation_descriptor_witness :
  exists fc,
    _relationWithResolverToFC
      (postsRelation (findResolver None (VStr "use search")) None)
      "posts" abcFixture = (Returns fc, abcFixture)
    /\ fc_type fc = ListComposer (NamedTC "Post")
    /\ fc_description fc = Some (VStr "Find posts")
    /\ fc_deprecationReason fc = Some VUndefined.
Proof.
  eexists. split; [reflexivity|].
  destruct (relation_descriptor
              (postsRelation (findResolver None (VStr "use search")) None)
              "posts" abcFixture abcFixture _ eq_refl)
    as (r & Hr & Hty & _ & Hdesc & Hdep).
  injection Hr as <-.
  split; [exact Hty|]. split; [exact (Hdesc eq_refl) | exact Hdep].
Defined.

(** C7, counterexample: the resolver is deprecated, the relation gives no
    deprecation reason, and the compiled field has none. *)
Lemma relation_deprecation_counterexample :
  ~ (forall opts fieldName s s' fc r,
       _relationWithResolverToFC opts fieldName s = (Returns fc, s') ->
       resolverOf opts = IsResolver r ->
       o_deprecationReason opts = VUndefined ->
       fc_deprecationReason fc = Some (res_deprecationReason r)).
Proof.
  intros H.
  specialize (H (postsRelation (findResolver None (VStr "use search")) None)
                "posts" abcFixture abcFixture _
                (findResolver None (VStr "use search"))
                eq_refl eq_refl eq_refl).
  discriminate H.
Qed.

(** ** The [prepareArgs] loop *)

Lemma hidesArg_cons k v rest n :
  hidesArg ((k, v) :: rest) n
  = if String.eqb n k
    then match v with MapData VUndefined => false | _ => true end
    else hidesArg rest n.
Proof. unfold hidesArg. simpl. now destruct (String.eqb n k). Qed.

Lemma hidesArg_absent (o : Obj ArgMapVal) n :
  ~ In n (keys o) -> hidesArg o n = false.
Proof. intros H. apply get_None_iff in H. unfold hidesArg. now rewrite H. Qed.




Lemma prepare_runtime (o : Obj ArgMapVal) :
  forall acc, argsRuntime (fold_left prepareStep o acc)
              = argsRuntime acc ++ runtimeOf o.
Proof.
  induction o as [|[k v] o IH]; intros acc; simpl.
  - now rewrite app_nil_r.
  - rewrite IH. destruct v as [f|[]]; simpl; try reflexivity.
    now rewrite <- app_assoc.
Qed.




(** ** The mappers at call time *)

Section Call.
Variables (source : Value) (args : Obj Value) (context info : Value).


Lemma runMappers_returns (runtime : list (string * ArgsMapperFn)) :
  (forall n f, In (n, f) runtime ->
               exists v, f source args context info = Returns v) ->
  forall acc, exists result,
    runMappers runtime source args context info acc = Returns result.
Proof.
  induction runtime as [|[k f] runtime IH]; intros Hall acc; simpl.
  - eauto.
  - destruct (Hall k f (or_introl eq_refl)) as [v ->].
    apply IH. intros n g Hin. apply (Hall n g). now right.
Qed.

Lemma runtimeOf_in (o : Obj ArgMapVal) n f :
  In (n, f) (runtimeOf o) -> In (n, MapFn f) o.
Proof.
  induction o as [|[k v] o IH]; simpl; [tauto|].
  destruct v as [g|d]; simpl.
  - intros [[= -> ->]|H]; auto.
  - auto.
Qed.


End Call.



Lemma postsRelation_mappersReturn r c source args context info :
  mappersReturn (orEmpty (o_prepareArgs (postsRelation r c)))
    source args context info.
Proof.
  intros n f [H|[H|[]]]; [discriminate|].
  injection H as _ <-. eauto.
Qed.


(** The run of the spec's example with a delegate that returns its
    arguments: the compiled resolve function gives a promise of
    [{ limit: 10, id: 'x' }]. *)
Example relation_example_run :
  match _relationWithResolverToFC
          (postsRelation (findResolver (Some echoDelegate) VUndefined) None)
          "posts" abcFixture
  with
  | (Returns fc, _) =>
      option_map keys (fc_args fc) = Some []
      /\ option_map
           (fun resolve =>
              resolve (VObj [("id", VStr "x")]) [] VUndefined VUndefined [])
           (fc_resolve fc)
         = Some (Returns (Fulfilled (VObj [("limit", VNum 10);
                                           ("id", VStr "x")])), [])
  | (Throws _, _) => False
  end.
Proof. split; reflexivity. Qed.

Lemma containErrors_off tn fieldName called :
  containErrors tn fieldName false called = called.
Proof. now destruct called as [[payload|e] console]. Qed.

(** C2, as the code has it. The compiled resolve function contains the
    failures its delegate reports through the promise it returns. With
    [catchErrors] true, which it is when the relation omits it, a delegate
    that returns a rejected promise makes the compiled function return a
    promise fulfilled with [null], after printing one header line and then
    the error, once; a delegate that returns a value or a fulfilled
    promise makes it return a promise fulfilled with that value, and
    nothing is printed. With [catchErrors] false the compiled function
    completes exactly as the delegate does, a failure included. *)
Theorem relation_catchErrors (opts : RelationOpts) (fieldName : string)
    (s s' : State) (fc : FieldConfig) :
  _relationWithResolverToFC opts fieldName s = (Returns fc, s') ->
  exists r resolve,
    resolverOf opts = IsResolver r
    /\ fc_resolve fc = Some resolve
    /\ (o_catchErrors opts = None -> catchErrorsOf opts = true)
    /\ forall delegate source args context info console newArgs,
         res_fieldConfigResolve r = Some delegate ->
         let prepared :=
           prepareArgs (res_args r) (orEmpty (o_prepareArgs opts)) in
         runMappers (argsRuntime prepared) source args context info
           (spread args (argsProto prepared)) = Returns newArgs ->
         (catchErrorsOf opts = true ->
          forall e console',
            delegate source newArgs context info console
            = (Returns (Rejected e), console') ->
            resolve source args context info console
            = (Returns (Fulfilled VNull),
               console'
               ++ [LogText (relationErrorHeader (typeName s) fieldName);
                   LogValue e]))
         /\ (catchErrorsOf opts = true ->
             forall payload v console',
               delegate source newArgs context info console
               = (Returns payload, console') ->
               payload = Plain v \/ payload = Fulfilled v ->
               resolve source args context info console
               = (Returns (Fulfilled v), console'))
         /\ (catchErrorsOf opts = false ->
             resolve source args context info console
             = delegate source newArgs context info console).
Proof.
  intros H. apply relation_compiled in H as (r & Hr & -> & ->).
  eexists r, _. split; [exact Hr|]. split; [reflexivity|]. split.
  - unfold catchErrorsOf. now intros ->.
  - intros delegate source args context info console newArgs Hdel prepared Hrun.
    unfold relationResolve. fold prepared. rewrite Hrun, Hdel.
    split; [|split].
    + intros -> e console' ->. reflexivity.
    + intros -> payload v console' -> [->| ->]; reflexivity.
    + intros ->. apply containErrors_off.
Qed.

Lemma relation_catchErrors_witness :
  exists fc fc' (resolve resolve' : ResolveFn),
    _relationWithResolverToFC
      (postsRelation (findResolver (Some rejectingDelegate) VUndefined) None)
      "posts" abcFixture = (Returns fc, abcFixture)
    /\ fc_resolve fc = Some resolve
    /\ resolve (VObj [("id", VStr "x")]) [] VUndefined VUndefined []
       = (Returns (Fulfilled VNull),
          [LogText "GQC ERROR: relation for MyType.posts throws error:";
           LogValue (VError "boom")])
    /\ _relationWithResolverToFC
         (postsRelation (findResolver (Some rejectingDelegate) VUndefined)
            (Some false))
         "posts" abcFixture = (Returns fc', abcFixture)
    /\ fc_resolve fc' = Some resolve'
    /\ resolve' (VObj [("id", VStr "x")]) [] VUndefined VUndefined []
       = (Returns (Rejected (VError "boom")), []).
Proof.
  destruct (relation_catchErrors
              (postsRelation (findResolver (Some rejectingDelegate) VUndefined)
                 None)
              "posts" abcFixture abcFixture _ eq_refl)
    as (r & resolve & Hr & Hres & _ & Hcall).
  destruct (relation_catchErrors
              (postsRelation (findResolver (Some rejectingDelegate) VUndefined)
                 (Some false))
              "posts" abcFixture abcFixture _ eq_refl)
    as (r' & resolve' & Hr' & Hres' & _ & Hcall').
  injection Hr as <-. injection Hr' as <-.
  eexists _, _, resolve, resolve'.
  split; [reflexivity|]. split; [exact Hres|]. split.
  - exact (proj1 (Hcall rejectingDelegate (VObj [("id", VStr "x")]) []
                    VUndefined VUndefined [] _ eq_refl eq_refl)
             eq_refl (VError "boom") [] eq_refl).
  - split; [reflexivity|]. split; [exact Hres'|].
    exact (proj2 (proj2 (Hcall' rejectingDelegate (VObj [("id", VStr "x")]) []
                           VUndefined VUndefined [] _ eq_refl eq_refl))
             eq_refl).
Defined.

(** C2, counterexample: [catchErrors] is left at its default and the
    delegate throws when called. The compiled resolve function throws the
    same error to its caller: no [null] comes back and nothing is
    printed. *)
Lemma relation_throwing_delegate_counterexample :
  catchErrorsOf
    (postsRelation (findResolver (Some throwingDelegate) VUndefined) None)
  = true
  /\ match _relationWithResolverToFC
             (postsRelation (findResolver (Some throwingDelegate) VUndefined)
                None)
             "posts" abcFixture
     with
     | (Returns fc, _) =>
         option_map
           (fun resolve =>
              resolve (VObj [("id", VStr "x")]) [] VUndefined VUndefined [])
           (fc_resolve fc)
         = Some (Throws (VError "boom"), [])
     | (Throws _, _) => False
     end.
Proof. split; reflexivity. Qed.

End RelationLaws.

(* ===================================================================== *)
(** * Bulk wrapping and unwrapping of field types *)
(* ===================================================================== *)

Module BulkLaws.
Import ObjFacts StepFacts.

Lemma forEach_total {A} (xs : list A) (step : A -> M unit)
    (g : A -> State -> State) :
  (forall x s, step x s = (Returns tt, g x s)) ->
  forall s, forEach xs step s = (Returns tt, fold_left (fun s x => g x s) xs s).
Proof.
  intros Hstep. induction xs as [|x xs IH]; intros s; simpl; [reflexivity|].
  unfold bind. rewrite Hstep. apply IH.
Qed.

Lemma retypeField_id t f fc s :
  get f (_gqcFields s) = Some fc -> t (fc_type fc) = fc_type fc ->
  withFields (set f (withType fc (t (fc_type fc))) (_gqcFields s)) s = s.
Proof.
  intros Hget ->. rewrite withType_same, (set_get_id _ _ _ Hget).
  apply withFields_same.
Qed.



Lemma makeFieldPlural_one f s :
  makeFieldPlural (OneName f) s = (Returns tt, retypeField wrapList f s).
Proof.
  unfold retypeField. destruct (get f (_gqcFields s)) as [fc|] eqn:E.
  - rewrite (makeFieldPlural_step f fc s E). f_equal. unfold wrapList.
    destruct (isListComposer (fc_type fc)) eqn:Hn; [|reflexivity].
    symmetry. apply (retypeField_id (fun w => w) f fc s E eq_refl).
  - unfold makeFieldPlural. simpl asArray. rewrite forEach_one.
    unfold bind, gets. simpl. now rewrite E.
Qed.

Lemma makeFieldNonPlural_one f s :
  makeFieldNonPlural (OneName f) s = (Returns tt, retypeField unwrapList f s).
Proof.
  unfold retypeField. destruct (get f (_gqcFields s)) as [fc|] eqn:E.
  - rewrite (makeFieldNonPlural_step f fc s E). f_equal. unfold unwrapList.
    destruct (fc_type fc) as [n|u|u|th] eqn:Hty; try reflexivity;
      try (symmetry; rewrite <- Hty;
           apply (retypeField_id (fun w => w) f fc s E eq_refl)).
    destruct u; try reflexivity;
      symmetry; rewrite <- Hty;
      apply (retypeField_id (fun w => w) f fc s E eq_refl).
  - unfold makeFieldNonPlural. simpl asArray. rewrite forEach_one.
    unfold bind, gets. simpl. now rewrite E.
Qed.

(** ** A fold of [retypeField] *)



Lemma retypeField_get t f g s :
  get g (_gqcFields (retypeField t f s))
  = if String.eqb g f
    then option_map (fun fc => withType fc (t (fc_type fc)))
           (get g (_gqcFields s))
    else get g (_gqcFields s).
Proof.
  unfold retypeField. destruct (String.eqb_spec g f) as [->|Hne].
  - destruct (get f (_gqcFields s)) as [fc|] eqn:E; simpl.
    + apply get_set_same.
    + now rewrite E.
  - destruct (get f (_gqcFields s)) as [fc|] eqn:E; simpl; [|reflexivity].
    now apply get_set_other.
Qed.








Lemma fieldType_retype t f s :
  fieldType f (retypeField t f s) = option_map t (fieldType f s).
Proof.
  unfold fieldType. rewrite retypeField_get, String.eqb_refl.
  now destruct (get f (_gqcFields s)).
Qed.

Lemma retypeField_fixed t f s :
  (forall w, fieldType f s = Some w -> t w = w) -> retypeField t f s = s.
Proof.
  intros H. unfold retypeField.
  destruct (get f (_gqcFields s)) as [fc|] eqn:E; [|reflexivity].
  apply (retypeField_id t f fc s E). apply H. unfold fieldType. now rewrite E.
Qed.


Lemma isFieldPlural_run f s :
  isFieldPlural f s
  = match fieldType f s with
    | Some w => (Returns (isPlural w), s)
    | None => if inPrototype f then (Returns false, s)
              else (Throws (VError (noFieldMessage f s)), s)
    end.
Proof.
  unfold isFieldPlural, fieldType.
  destruct (get f (_gqcFields s)) as [fc|] eqn:E; simpl.
  - now rewrite (bind_returns _ _ _ _ _ (getField_present f fc s E)).
  - unfold getField, bind, gets, read. simpl. rewrite E.
    now destruct (inPrototype f).
Qed.



(** X4. [makeFieldPlural] looks for an outer list layer only. Called
    twice it does what it does once; but a field of type
    [NonNull(List(inner))], which [isFieldPlural] reports as plural, gets
    one more list layer, [List(NonNull(List(inner)))], and
    [makeFieldNonPlural] then gives the first type back. *)
Theorem makeFieldPlural_outer_list_only (f : string) (s : State) :
  after (makeFieldPlural (OneName f) ;;; makeFieldPlural (OneName f)) s
  = after (makeFieldPlural (OneName f)) s
  /\ forall inner,
       fieldType f s = Some (NonNullComposer (ListComposer inner)) ->
       isFieldPlural f s = (Returns true, s)
       /\ fieldType f (after (makeFieldPlural (OneName f)) s)
          = Some (ListComposer (NonNullComposer (ListComposer inner)))
       /\ fieldType f
            (after (makeFieldPlural (OneName f) ;;;
                    makeFieldNonPlural (OneName f)) s)
          = Some (NonNullComposer (ListComposer inner)).
Proof.
  unfold after.
  rewrite !(bind_returns _ _ _ _ _ (makeFieldPlural_one f s)).
  rewrite !makeFieldPlural_one, makeFieldNonPlural_one. simpl. split.
  - apply retypeField_fixed. intros w. rewrite fieldType_retype.
    destruct (fieldType f s) as [w0|]; simpl; [|discriminate].
    intros [= <-]. unfold wrapList.
    destruct (isListComposer w0) eqn:E; simpl; rewrite ?E; reflexivity.
  - intros inner Hw. rewrite isFieldPlural_run, !fieldType_retype, Hw.
    repeat split.
Qed.

Lemma makeFieldPlural_outer_list_only_witness :
  fieldType "b2" (after (makeFieldPlural (OneName "b2"))
                    Fixtures.pluralFixtureWrapped)
  = Some (ListComposer (NonNullComposer (ListComposer (NamedTC "String")))).
Proof.
  exact (proj1 (proj2 (proj2 (makeFieldPlural_outer_list_only
                                "b2" Fixtures.pluralFixtureWrapped)
                         (NamedTC "String") eq_refl))).
Defined.



End BulkLaws.

(* ===================================================================== *)
(** * Removing, reordering and adding fields *)
(* ===================================================================== *)

Module FieldMapLaws.
Import ObjFacts StepFacts FieldMethods.

Section Filters.
Context {A : Type}.
Implicit Types (o a b : Obj A).

Lemma delete_filter k o :
  delete k o = filter (fun kv => negb (String.eqb k (fst kv))) o.
Proof.
  induction o as [|[k' v] o IH]; simpl; [reflexivity|].
  destruct (String.eqb k k'); simpl; now rewrite IH.
Qed.

Lemma get_filter_key (p : string -> bool) k o :
  get k (filter (fun kv => p (fst kv)) o) = if p k then get k o else None.
Proof.
  induction o as [|[k' v] o IH]; simpl.
  - now destruct (p k).
  - destruct (p k') eqn:Hp; simpl; destruct (String.eqb_spec k k'); subst;
      rewrite ?Hp; auto.
    rewrite IH. now rewrite Hp.
Qed.

Lemma keys_filter_key (p : string -> bool) o :
  keys (filter (fun kv => p (fst kv)) o) = filter p (keys o).
Proof.
  induction o as [|[k' v] o IH]; simpl; [reflexivity|].
  destruct (p k'); simpl; now rewrite IH.
Qed.

Lemma fold_delete names :
  forall o,
  fold_left (fun o k => delete k o) names o
  = filter (fun kv => notIndexOf (fst kv) names) o.
Proof.
  induction names as [|n ns IH]; intros o; simpl.
  - symmetry. apply forallb_filter_id. now apply forallb_forall.
  - rewrite IH, delete_filter, ReorderLaws.filter_filter_and.
    apply filter_ext. intros [k v]. unfold notIndexOf. simpl.
    now rewrite negb_orb, (String.eqb_sym k n).
Qed.

Lemma fold_delete_others keep ks :
  forall o,
  fold_left (fun o k => if notIndexOf k keep then delete k o else o) ks o
  = filter (fun kv => negb (existsb (String.eqb (fst kv)) ks
                            && notIndexOf (fst kv) keep)) o.
Proof.
  induction ks as [|n ns IH]; intros o; simpl.
  - symmetry. apply forallb_filter_id. now apply forallb_forall.
  - rewrite IH. destruct (notIndexOf n keep) eqn:Hn.
    + rewrite delete_filter, ReorderLaws.filter_filter_and.
      apply filter_ext. intros [k v]. simpl.
      destruct (String.eqb_spec k n) as [->|Hne]; simpl.
      * now rewrite String.eqb_refl, Hn.
      * destruct (String.eqb_spec n k); [congruence|]. reflexivity.
    + apply filter_ext. intros [k v]. simpl.
      destruct (String.eqb_spec k n) as [->|Hne]; simpl; [|reflexivity].
      rewrite Hn. now rewrite andb_false_r.
Qed.

Lemma keys_spread a b :
  wf b ->
  keys (spread a b)
  = keys a ++ filter (fun k => negb (inObj k a)) (keys b).
Proof.
  unfold spread. revert a.
  induction b as [|[k v] b IH]; intros a Hwf; simpl.
  - now rewrite app_nil_r.
  - inversion Hwf as [|? ? Hnotin Hwf']; subst.
    rewrite (IH _ Hwf'). unfold inObj at 2.
    destruct (get k a) as [x|] eqn:E; simpl.
    + rewrite (keys_set_present _ _ _ _ E). f_equal.
      apply filter_ext_in. intros k0 Hk0. unfold inObj.
      destruct (String.eqb_spec k0 k) as [->|Hne]; [contradiction|].
      now rewrite get_set_other.
    + rewrite (set_absent _ _ _ E), keys_app, <- app_assoc. simpl.
      do 2 f_equal.
      apply filter_ext_in. intros k0 Hk0. unfold inObj.
      destruct (String.eqb_spec k0 k) as [->|Hne]; [contradiction|].
      rewrite get_app. destruct (get k0 a); [reflexivity|].
      simpl. destruct (String.eqb_spec k0 k); [contradiction | reflexivity].
Qed.

Lemma obj_ext a b :
  wf a -> keys a = keys b -> (forall k, get k a = get k b) -> a = b.
Proof.
  revert b. induction a as [|[k v] a IH]; intros [|[k' v'] b] Hwf Hk Hg;
    try discriminate; [reflexivity|].
  simpl in Hk. injection Hk as <- Hk.
  inversion Hwf as [|? ? Hnotin Hwf']; subst.
  pose proof (Hg k) as Hgk. simpl in Hgk. rewrite String.eqb_refl in Hgk.
  injection Hgk as <-. f_equal. apply IH; auto.
  intros k0. destruct (String.eqb_spec k0 k) as [->|Hne].
  - pose proof Hnotin as Hn'. unfold keys in Hk. simpl in Hnotin.
    change (map fst a) with (keys a) in Hnotin.
    rewrite (proj2 (get_None_iff k a) Hnotin).
    symmetry. apply get_None_iff. unfold keys. now rewrite <- Hk.
  - specialize (Hg k0). simpl in Hg.
    destruct (String.eqb_spec k0 k); [contradiction | exact Hg].
Qed.

End Filters.

Lemma fold_left_pointwise {X S} (f g : S -> X -> S) (xs : list X) :
  (forall s x, f s x = g s x) ->
  forall s, fold_left f xs s = fold_left g xs s.
Proof.
  intros H. induction xs as [|x xs IH]; intros s; simpl; [reflexivity|].
  now rewrite H, IH.
Qed.

Lemma fold_withFields {X} (g : X -> Obj FieldConfig -> Obj FieldConfig)
    (xs : list X) :
  forall s,
  fold_left (fun s x => withFields (g x (_gqcFields s)) s) xs s
  = withFields (fold_left (fun o x => g x o) xs (_gqcFields s)) s.
Proof.
  induction xs as [|x xs IH]; intros s; simpl.
  - symmetry. apply withFields_same.
  - rewrite IH. reflexivity.
Qed.

(** X5. [removeField] returns normally on every name or list of names,
    fields or not. The fields that stay are those that are not named, in
    the order they had and with their configs; a named field is gone. *)
Theorem removeField_filters (x : NameOrArray) (s : State) :
  removeField x s
  = (Returns tt,
     withFields
       (filter (fun kv => notIndexOf (fst kv) (asArray x)) (_gqcFields s)) s)
  /\ (forall f,
        get f (_gqcFields (after (removeField x) s))
        = if notIndexOf f (asArray x) then get f (_gqcFields s) else None)
  /\ keys (_gqcFields (after (removeField x) s))
     = filter (fun k => notIndexOf k (asArray x)) (keys (_gqcFields s)).
Proof.
  assert (Hrun : removeField x s
                 = (Returns tt,
                    withFields
                      (filter (fun kv => notIndexOf (fst kv) (asArray x))
                         (_gqcFields s)) s)).
  { unfold removeField.
    rewrite (BulkLaws.forEach_total _ _
               (fun f s => withFields (delete f (_gqcFields s)) s))
      by reflexivity.
    now rewrite (fold_withFields (fun f o => delete f o)), fold_delete. }
  split; [exact Hrun|]. unfold after. rewrite Hrun. simpl. split.
  - intros f. apply (get_filter_key (fun k => notIndexOf k (asArray x))).
  - apply (keys_filter_key (fun k => notIndexOf k (asArray x))).
Qed.

(** X6. [removeOtherFields] returns normally on every name or list of
    names. The fields that stay are the named ones among the fields, in
    the order the fields had (not the order of the names) and with their
    configs; every other field is gone. *)
Theorem removeOtherFields_filters (x : NameOrArray) (s : State) :
  removeOtherFields x s
  = (Returns tt,
     withFields
       (filter (fun kv => negb (notIndexOf (fst kv) (asArray x)))
          (_gqcFields s)) s)
  /\ (forall f,
        get f (_gqcFields (after (removeOtherFields x) s))
        = if notIndexOf f (asArray x) then None else get f (_gqcFields s))
  /\ keys (_gqcFields (after (removeOtherFields x) s))
     = filter (fun k => negb (notIndexOf k (asArray x))) (keys (_gqcFields s)).
Proof.
  assert (Hrun : removeOtherFields x s
                 = (Returns tt,
                    withFields
                      (filter
                         (fun kv => negb (notIndexOf (fst kv) (asArray x)))
                         (_gqcFields s)) s)).
  { unfold removeOtherFields, bind, gets.
    rewrite (BulkLaws.forEach_total _ _
               (fun f s => if notIndexOf f (asArray x)
                           then withFields (delete f (_gqcFields s)) s
                           else s)).
    2:{ intros f s0. now destruct (notIndexOf f (asArray x)). }
    f_equal.
    rewrite (fold_left_pointwise _
               (fun s f =>
                  withFields
                    ((fun f o => if notIndexOf f (asArray x)
                                 then delete f o else o) f (_gqcFields s)) s)).
    2:{ intros s0 f. destruct (notIndexOf f (asArray x)); [reflexivity|].
        symmetry. apply withFields_same. }
    rewrite (fold_withFields
               (fun f o => if notIndexOf f (asArray x) then delete f o else o)).
    rewrite fold_delete_others. f_equal.
    apply filter_ext_in. intros [k v] Hin. simpl.
    assert (Hk : existsb (String.eqb k) (keys (_gqcFields s)) = true).
    { apply existsb_exists. exists k. split; [|apply String.eqb_refl].
      unfold keys. now apply (in_map fst) in Hin. }
    now rewrite Hk. }
  split; [exact Hrun|]. unfold after. rewrite Hrun. simpl. split.
  - intros f.
    rewrite (get_filter_key (fun k => negb (notIndexOf k (asArray x)))).
    now destruct (notIndexOf f (asArray x)).
  - apply (keys_filter_key (fun k => negb (notIndexOf k (asArray x)))).
Qed.

Lemma firstOccurrences_NoDup (l : list string) : NoDup (firstOccurrences l).
Proof.
  induction l as [|n l IH]; simpl; constructor.
  - rewrite filter_In, String.eqb_refl. intros [_ H]. discriminate.
  - now apply NoDup_filter.
Qed.

Lemma filter_none {X} (p : X -> bool) (l : list X) :
  (forall x, In x l -> p x = false) -> filter p l = [].
Proof.
  induction l as [|x l IH]; intros H; simpl; [reflexivity|].
  rewrite (H x (or_introl eq_refl)). apply IH. intros y Hy. apply H. now right.
Qed.

Lemma filter_idem {X} (p : X -> bool) (l : list X) :
  filter p (filter p l) = filter p l.
Proof.
  induction l as [|x l IH]; simpl; [reflexivity|].
  destruct (p x) eqn:E; simpl; rewrite ?E, IH; reflexivity.
Qed.

Lemma reordered_wf {A} names (fields fields' : Obj A) :
  wf fields ->
  keys fields' = requestedFront names fields ++ untouchedRest names fields ->
  wf fields'.
Proof.
  intros Hwf Hk. unfold wf. rewrite Hk. apply NoDup_app.
  - apply firstOccurrences_NoDup.
  - apply NoDup_filter. exact Hwf.
  - intros k Hf Hr. apply filter_In in Hr as [_ Hr].
    apply ReorderLaws.firstOccurrences_incl, filter_In in Hf as [Hf _].
    apply ReorderLaws.notIndexOf_false_iff in Hf. congruence.
Qed.

(** X7. [reorderFields] with names none of which is the name of a member
    of [Object.prototype], on a field map with unique keys. The names
    that are fields come first, in the order given (a name given twice
    counts at its first place), the names that are no fields are left
    out, and the fields that are not named follow in the order they had;
    every place holds what it held. So the new field order is a
    permutation of the old one, with unique keys again, and a second call
    with the same names changes nothing more. On fields [a, b, c], the
    names [['c']] give [c, a, b] and the names [['z']] give [a, b, c]. *)
Theorem reorderFields_permutes (names : list string) (fields : RawFields) :
  (forall n, In n names -> inPrototype n = false) ->
  wf fields ->
  let fields' := reorderFields names fields in
  keys fields' = requestedFront names fields ++ untouchedRest names fields
  /\ (forall k, get k fields' = get k fields)
  /\ Permutation (keys fields') (keys fields)
  /\ wf fields'
  /\ reorderFields names fields' = fields'
  /\ (keys fields = ["a"; "b"; "c"] ->
      (names = ["c"] -> keys fields' = ["c"; "a"; "b"])
      /\ (names = ["z"] -> keys fields' = ["a"; "b"; "c"])).
Proof.
  intros Hplain Hwf fields'.
  destruct (ReorderLaws.reorderFields_run names fields Hplain Hwf)
    as (Hk & Hg).
  fold fields' in Hk, Hg.
  assert (Hwf1 : wf fields') by (eapply reordered_wf; eauto).
  split; [exact Hk|]. split; [exact Hg|]. split; [|split; [exact Hwf1|split]].
  - apply NoDup_Permutation; [exact Hwf1 | exact Hwf |].
    intros k. split; intros Hin.
    + apply in_keys_get in Hin as [v Hv]. rewrite Hg in Hv.
      eapply get_Some_in; eauto.
    + apply in_keys_get in Hin as [v Hv]. rewrite <- Hg in Hv.
      eapply get_Some_in; eauto.
  - destruct (ReorderLaws.reorderFields_run names fields' Hplain Hwf1)
      as (Hk2 & Hg2).
    apply obj_ext; [eapply reordered_wf; eauto | | exact Hg2].
    rewrite Hk2, Hk. f_equal.
    + unfold requestedFront. f_equal. apply filter_ext. intros n.
      unfold has. now rewrite Hg.
    + unfold untouchedRest at 1. rewrite Hk, filter_app.
      rewrite filter_none.
      * simpl. unfold untouchedRest. apply filter_idem.
      * intros k Hf.
        apply ReorderLaws.firstOccurrences_incl, filter_In in Hf as [Hf _].
        now apply ReorderLaws.notIndexOf_false_iff.
  - intros Habc.
    assert (Hc : has "c" fields = true)
      by (apply has_true_iff; rewrite Habc; simpl; tauto).
    assert (Hz : has "z" fields = false).
    { destruct (has "z" fields) eqn:E; [|reflexivity].
      apply has_true_iff in E. rewrite Habc in E. simpl in E.
      intuition discriminate. }
    split; intros ->; rewrite Hk; unfold requestedFront, untouchedRest;
      simpl; rewrite ?Hc, ?Hz, Habc; reflexivity.
Qed.

Lemma reorderFields_permutes_witness :
  let fields := rawFields (_gqcFields Fixtures.abcFixture) in
  keys (reorderFields ["f22"; "c"; "f55"; "a"; "b"] fields)
  = ["c"; "a"; "b"]
  /\ reorderFields ["c"; "zzz"; "a"] (reorderFields ["c"; "zzz"; "a"] fields)
     = reorderFields ["c"; "zzz"; "a"] fields.
Proof.
  assert (Hwf : wf (rawFields (_gqcFields Fixtures.abcFixture))).
  { repeat constructor; simpl; intuition discriminate. }
  split.
  - exact (proj1 (reorderFields_permutes ["f22"; "c"; "f55"; "a"; "b"] _
                    ltac:(simpl; intuition (subst; reflexivity)) Hwf)).
  - exact (proj1 (proj2 (proj2 (proj2 (proj2
             (reorderFields_permutes ["c"; "zzz"; "a"] _
                ltac:(simpl; intuition (subst; reflexivity)) Hwf)))))).
Defined.

Section WithFieldMapMapper.
Variable convMap : Obj FieldConfigDefinition -> Completion (Obj FieldConfig).

(** X8. [addFields] and [setFields] change nothing when the type mapper
    throws, and pass its error on. When the mapper returns a field map,
    [setFields] replaces the whole field map by it, while [addFields]
    keeps every field at its place, gives a redefined field its new
    config at the old place, and appends the new names in the order of
    the mapped definitions. *)
Theorem addFields_keeps_places (defs : Obj FieldConfigDefinition)
    (s : State) :
  (forall e, convMap defs = Throws e ->
     addFields convMap defs s = (Throws e, s)
     /\ setFields convMap defs s = (Throws e, s))
  /\
  (forall converted, convMap defs = Returns converted ->
     setFields convMap defs s = (Returns tt, withFields converted s)
     /\ addFields convMap defs s
        = (Returns tt, withFields (spread (_gqcFields s) converted) s)
     /\ (wf converted ->
         let fields' := _gqcFields (after (addFields convMap defs) s) in
         keys fields'
         = keys (_gqcFields s)
           ++ filter (fun k => negb (inObj k (_gqcFields s))) (keys converted)
         /\ forall k,
              get k fields'
              = match get k converted with
                | Some fc => Some fc
                | None => get k (_gqcFields s)
                end)).
Proof.
  unfold addFields, setFields, after. split.
  - intros e ->. split; reflexivity.
  - intros converted ->. unfold modify. simpl. repeat split.
    + now apply keys_spread.
    + intros k. now apply get_spread.
Qed.

End WithFieldMapMapper.

Lemma addFields_keeps_places_witness :
  keys (_gqcFields
          (after (addFields convertOutputFieldConfigMapModel
                    [("d", FieldAsType (TypeAsString "Int"));
                     ("b", FieldAsType (TypeAsString "[Int]"));
                     ("e", FieldAsType (TypeAsString "Boolean!"))])
             Fixtures.abcFixture))
  = ["a"; "b"; "c"; "d"; "e"]
  /\ fieldType "b"
       (after (addFields convertOutputFieldConfigMapModel
                 [("d", FieldAsType (TypeAsString "Int"));
                  ("b", FieldAsType (TypeAsString "[Int]"));
                  ("e", FieldAsType (TypeAsString "Boolean!"))])
          Fixtures.abcFixture)
     = Some (ListComposer (NamedTC "Int")).
Proof.
  destruct (proj2 (addFields_keeps_places convertOutputFieldConfigMapModel
                     [("d", FieldAsType (TypeAsString "Int"));
                      ("b", FieldAsType (TypeAsString "[Int]"));
                      ("e", FieldAsType (TypeAsString "Boolean!"))]
                     Fixtures.abcFixture) _ eq_refl) as (_ & _ & H).
  assert (Hwf : wf [("d", TypeMapperModel.fieldOfType "Int");
                    ("b", TypeMapperModel.fieldOfType "[Int]");
                    ("e", TypeMapperModel.fieldOfType "Boolean!")]).
  { repeat constructor; simpl; intuition discriminate. }
  destruct (H Hwf) as (Hk & Hg).
  split; [exact Hk|].
  unfold fieldType. now rewrite (Hg "b").
Defined.

End FieldMapLaws.

(* ===================================================================== *)
(** * Arguments of a field *)
(* ===================================================================== *)

Module ArgLaws.
Import ObjFacts StepFacts FieldMethods.

Lemma withArgType_same ac : withArgType ac (ac_type ac) = ac.
Proof. destruct ac; reflexivity. Qed.

Lemma removeFieldArg_run f x s :
  removeFieldArg f x s
  = (Returns tt,
     match get f (_gqcFields s) with
     | Some fc =>
         match fc_args fc with
         | Some args =>
             withFields
               (set f
                  (withArgs fc
                     (filter (fun kv => notIndexOf (fst kv) (asArray x)) args))
                  (_gqcFields s)) s
         | None => s
         end
     | None => s
     end).
Proof.
  unfold removeFieldArg, bind, gets. simpl.
  destruct (get f (_gqcFields s)) as [fc|]; [|reflexivity].
  destruct (fc_args fc) as [args|]; [|reflexivity].
  unfold updateFieldArgs, modify. now rewrite FieldMapLaws.fold_delete.
Qed.

Lemma removeFieldOtherArgs_run f x s :
  removeFieldOtherArgs f x s
  = (Returns tt,
     match get f (_gqcFields s) with
     | Some fc =>
         match fc_args fc with
         | Some args =>
             withFields
               (set f
                  (withArgs fc
                     (filter
                        (fun kv => negb (notIndexOf (fst kv) (asArray x)))
                        args))
                  (_gqcFields s)) s
         | None => s
         end
     | None => s
     end).
Proof.
  unfold removeFieldOtherArgs, bind, gets. simpl.
  destruct (get f (_gqcFields s)) as [fc|]; [|reflexivity].
  destruct (fc_args fc) as [args|]; [|reflexivity].
  unfold updateFieldArgs, modify.
  rewrite FieldMapLaws.fold_delete_others. do 4 f_equal.
  apply filter_ext_in. intros [k v] Hin. simpl.
  assert (Hk : existsb (String.eqb k) (keys args) = true).
  { apply existsb_exists. exists k. split; [|apply String.eqb_refl].
    unfold keys. now apply (in_map fst) in Hin. }
  now rewrite Hk.
Qed.

Lemma filtered_args_spec (p : string -> bool) f fc (args : ArgsMap) s :
  get f (_gqcFields s) = Some fc ->
  fc_args fc = Some args ->
  let s' := withFields
              (set f (withArgs fc (filter (fun kv => p (fst kv)) args))
                 (_gqcFields s)) s in
  keys (_gqcFields s') = keys (_gqcFields s)
  /\ (forall g, g <> f -> get g (_gqcFields s') = get g (_gqcFields s))
  /\ fieldType f s' = fieldType f s
  /\ fieldArgs f s'
     = option_map (filter (fun kv => p (fst kv))) (fieldArgs f s)
  /\ forall a, argType f a s' = if p a then argType f a s else None.
Proof.
  intros E Ha s'. unfold s', fieldType, fieldArgs, argType. simpl.
  rewrite (keys_set_present _ _ _ _ E), get_set_same, E. simpl. rewrite Ha.
  simpl. repeat split.
  - intros g Hne. now apply get_set_other.
  - intros a. rewrite (FieldMapLaws.get_filter_key p). now destruct (p a).
Qed.

(** X11. [removeFieldArg] and [removeFieldOtherArgs] never throw: on a
    field that does not exist, or that has no arguments, they return and
    change nothing. Otherwise [removeFieldArg] leaves the arguments that
    are not named and [removeFieldOtherArgs] the named ones, in the order
    the arguments had; the field order, the field's type and the other
    fields are as before. *)
Theorem removeFieldArg_filters (f : string) (x : NameOrArray) (s : State) :
  (let s' := after (removeFieldArg f x) s in
   outcome (removeFieldArg f x) s = Returns tt
   /\ keys (_gqcFields s') = keys (_gqcFields s)
   /\ (forall g, g <> f -> get g (_gqcFields s') = get g (_gqcFields s))
   /\ fieldType f s' = fieldType f s
   /\ fieldArgs f s'
      = option_map (filter (fun kv => notIndexOf (fst kv) (asArray x)))
          (fieldArgs f s)
   /\ (forall a, argType f a s'
                 = if notIndexOf a (asArray x) then argType f a s else None)
   /\ (get f (_gqcFields s) = None -> s' = s))
  /\
  (let s' := after (removeFieldOtherArgs f x) s in
   outcome (removeFieldOtherArgs f x) s = Returns tt
   /\ keys (_gqcFields s') = keys (_gqcFields s)
   /\ (forall g, g <> f -> get g (_gqcFields s') = get g (_gqcFields s))
   /\ fieldType f s' = fieldType f s
   /\ fieldArgs f s'
      = option_map
          (filter (fun kv => negb (notIndexOf (fst kv) (asArray x))))
          (fieldArgs f s)
   /\ (forall a, argType f a s'
                 = if notIndexOf a (asArray x) then None else argType f a s)
   /\ (get f (_gqcFields s) = None -> s' = s)).
Proof.
  unfold after, outcome.
  rewrite removeFieldArg_run, removeFieldOtherArgs_run. simpl.
  destruct (get f (_gqcFields s)) as [fc|] eqn:E.
  - destruct (fc_args fc) as [args|] eqn:Ha.
    + destruct (filtered_args_spec (fun k => notIndexOf k (asArray x))
                  f fc args s E Ha) as (H1 & H2 & H3 & H4 & H5).
      destruct (filtered_args_spec (fun k => negb (notIndexOf k (asArray x)))
                  f fc args s E Ha) as (K1 & K2 & K3 & K4 & K5).
      repeat split; auto; try discriminate.
      intros a. rewrite K5. now destruct (notIndexOf a (asArray x)).
    + unfold fieldArgs, argType. rewrite E. simpl. rewrite Ha. simpl.
      repeat split; auto; intros a; now destruct (notIndexOf a (asArray x)).
  - unfold fieldArgs, argType, fieldType. rewrite E. simpl.
    repeat split; auto; intros a; now destruct (notIndexOf a (asArray x)).
Qed.

Lemma removeFieldArg_filters_witness :
  after (removeFieldArg "unexisted" (OneName "arg1")) Fixtures.argsFixture
  = Fixtures.argsFixture
  /\ option_map keys
       (fieldArgs "field1"
          (after (removeFieldOtherArgs "field1" (NameArray ["zzz"; "arg2"]))
             Fixtures.argsFixture))
     = Some ["arg2"].
Proof.
  pose proof (proj1 (removeFieldArg_filters "unexisted" (OneName "arg1")
                       Fixtures.argsFixture))
    as (_ & _ & _ & _ & _ & _ & Hmissing).
  pose proof (proj2 (removeFieldArg_filters "field1" (NameArray ["zzz"; "arg2"])
                       Fixtures.argsFixture))
    as (_ & _ & _ & _ & Hargs & _).
  split; [exact (Hmissing eq_refl)|]. now rewrite Hargs.
Defined.

Lemma getFieldArgs_run f s :
  getFieldArgs f s
  = match read f (_gqcFields s) with
    | Some field => (Returns (orEmpty (argsOf field)), s)
    | None =>
        (Throws (VError ("Cannot get args from '" ++ typeName s ++ "." ++ f
                         ++ "'. Field does not exist.")), s)
    end.
Proof.
  unfold read. destruct (get f (_gqcFields s)) as [fc|] eqn:E.
  - now apply FieldLaws.getFieldArgs_present.
  - destruct (inPrototype f) eqn:P.
    + now apply FieldLaws.getFieldArgs_inherited.
    + now apply FieldLaws.getFieldArgs_absent.
Qed.

Lemma getFieldArg_run f a s :
  getFieldArg f a s
  = match read f (_gqcFields s) with
    | Some field =>
        match read a (orEmpty (argsOf field)) with
        | Some arg => (Returns arg, s)
        | None =>
            (Throws (VError ("Cannot get '" ++ typeName s ++ "." ++ f ++ "@"
                             ++ a ++ "'. Argument does not exist.")), s)
        end
    | None =>
        (Throws (VError ("Cannot get args from '" ++ typeName s ++ "." ++ f
                         ++ "'. Field does not exist.")), s)
    end.
Proof.
  unfold getFieldArg, bind. rewrite getFieldArgs_run.
  destruct (read f (_gqcFields s)) as [field|]; [|reflexivity].
  now destruct (read a (orEmpty (argsOf field))).
Qed.

(** X12. [hasFieldArg], [getFieldArg] and [getFieldArgNames].
    [hasFieldArg] returns a boolean on every composer and every pair of
    names and leaves the composer as it was; it is true exactly when
    [getFieldArg] returns. For a field name under which the read of the
    field map finds nothing (no field and no member of
    [Object.prototype]), [hasFieldArg] is false while [getFieldArgs] and
    [getFieldArg] throw the missing-field error. On a field that exists,
    the names are the keys of its [args] (none without [args]);
    [getFieldArg] returns the config of a name that is an argument; and
    for a name that is neither an argument nor a member of
    [Object.prototype], [hasFieldArg] is false and [getFieldArg] throws
    the missing-argument error. *)
Theorem getFieldArg_agrees (f a : string) (s : State) :
  (exists b, hasFieldArg f a s = (Returns b, s))
  /\ (hasFieldArg f a s = (Returns true, s)
      <-> exists arg, getFieldArg f a s = (Returns arg, s))
  /\ (get f (_gqcFields s) = None -> inPrototype f = false ->
      hasFieldArg f a s = (Returns false, s)
      /\ getFieldArgs f s
         = (Throws (VError ("Cannot get args from '" ++ typeName s ++ "." ++ f
                            ++ "'. Field does not exist.")), s)
      /\ getFieldArg f a s
         = (Throws (VError ("Cannot get args from '" ++ typeName s ++ "." ++ f
                            ++ "'. Field does not exist.")), s))
  /\ (forall fc, get f (_gqcFields s) = Some fc ->
        getFieldArgNames f s = (Returns (keys (orEmpty (fc_args fc))), s)
        /\ (fc_args fc = None -> getFieldArgNames f s = (Returns [], s))
        /\ (forall ac, get a (orEmpty (fc_args fc)) = Some ac ->
              getFieldArg f a s = (Returns (Own ac), s)
              /\ hasFieldArg f a s = (Returns true, s))
        /\ (get a (orEmpty (fc_args fc)) = None -> inPrototype a = false ->
            hasFieldArg f a s = (Returns false, s)
            /\ ~ In a (keys (orEmpty (fc_args fc)))
            /\ getFieldArg f a s
               = (Throws (VError ("Cannot get '" ++ typeName s ++ "." ++ f
                                  ++ "@" ++ a
                                  ++ "'. Argument does not exist.")), s))).
Proof.
  rewrite FieldLaws.hasFieldArg_run, getFieldArg_run, getFieldArgs_run.
  split; [eauto|]. split; [|split].
  - destruct (read f (_gqcFields s)) as [field|].
    + unfold isIn. destruct (read a (orEmpty (argsOf field))) as [arg|].
      * split; eauto.
      * split; [discriminate | intros [arg H]; discriminate].
    + split; [discriminate | intros [arg H]; discriminate].
  - intros E P. unfold read. rewrite E, P. repeat split.
  - intros fc E.
    unfold getFieldArgNames.
    rewrite (bind_returns _ _ _ _ _ (FieldLaws.getFieldArgs_present f fc s E)).
    assert (Hread : read f (_gqcFields s) = Some (Own fc))
      by (unfold read; now rewrite E).
    rewrite Hread. simpl argsOf. unfold ret.
    split; [reflexivity|]. split; [now intros ->|]. split.
    + intros ac Ha. unfold isIn, read. now rewrite Ha.
    + intros Ha P. unfold isIn, read. rewrite Ha, P.
      split; [reflexivity|]. split; [now apply get_None_iff | reflexivity].
Qed.

Lemma getFieldArg_agrees_witness :
  getFieldArgNames "field1" Fixtures.argsFixture
  = (Returns ["arg1"; "arg2"], Fixtures.argsFixture)
  /\ getFieldArgNames "field2" Fixtures.argsFixture
     = (Returns [], Fixtures.argsFixture)
  /\ getFieldArg "field1" "arg222" Fixtures.argsFixture
     = (Throws (VError
          "Cannot get 'Readable.field1@arg222'. Argument does not exist."),
        Fixtures.argsFixture)
  /\ hasFieldArg "unexistedField" "arg1" Fixtures.argsFixture
     = (Returns false, Fixtures.argsFixture).
Proof.
  pose proof (proj2 (proj2 (proj2 (getFieldArg_agrees "field1" "arg222"
                                     Fixtures.argsFixture))) _ eq_refl)
    as (Hnames & _ & _ & Hmiss).
  pose proof (proj2 (proj2 (proj2 (getFieldArg_agrees "field2" "arg1"
                                     Fixtures.argsFixture))) _ eq_refl)
    as (_ & Hnone & _).
  pose proof (proj1 (proj2 (proj2 (getFieldArg_agrees "unexistedField" "arg1"
                                     Fixtures.argsFixture))) eq_refl eq_refl)
    as (Hfalse & _).
  split; [exact Hnames|]. split; [exact (Hnone eq_refl)|].
  split; [exact (proj2 (proj2 (Hmiss eq_refl eq_refl))) | exact Hfalse].
Defined.

End ArgLaws.

(* ===================================================================== *)
(** * Extensions of a field *)
(* ===================================================================== *)

Module FieldExtensionLaws.
Import ObjFacts StepFacts FieldMethods.

Lemma getFieldExtensions_run f s :
  getFieldExtensions f s
  = match read f (_gqcFields s) with
    | Some field => (Returns (orEmpty (extensionsOf field)), s)
    | None => (Throws (VError (noFieldMessage f s)), s)
    end.
Proof.
  unfold getFieldExtensions, read.
  destruct (get f (_gqcFields s)) as [fc|] eqn:E.
  - now rewrite (bind_returns _ _ _ _ _ (getField_present f fc s E)).
  - destruct (inPrototype f) eqn:P.
    + now rewrite (bind_returns _ _ _ _ _
                     (FieldLaws.getField_inherited f s E P)).
    + apply bind_throws. now apply FieldLaws.getField_absent.
Qed.

Lemma getFieldExtensions_present f fc s :
  get f (_gqcFields s) = Some fc ->
  getFieldExtensions f s = (Returns (orEmpty (fc_extensions fc)), s).
Proof.
  intros E. rewrite getFieldExtensions_run. unfold read. now rewrite E.
Qed.

Lemma getFieldExtensions_absent f s :
  get f (_gqcFields s) = None ->
  inPrototype f = false ->
  getFieldExtensions f s = (Throws (VError (noFieldMessage f s)), s).
Proof.
  intros E P. rewrite getFieldExtensions_run. unfold read. now rewrite E, P.
Qed.

Lemma getFieldExtension_present f n fc s :
  get f (_gqcFields s) = Some fc ->
  getFieldExtension f n s
  = (Returns (getOr n (orEmpty (fc_extensions fc))), s).
Proof.
  intros E. unfold getFieldExtension, bind.
  now rewrite (getFieldExtensions_present f fc s E).
Qed.

Lemma hasFieldExtension_present f n fc s :
  get f (_gqcFields s) = Some fc ->
  hasFieldExtension f n s
  = (Returns (isIn n (orEmpty (fc_extensions fc))), s).
Proof.
  intros E. unfold hasFieldExtension, bind.
  now rewrite (getFieldExtensions_present f fc s E).
Qed.

Lemma spread_onto_empty {A : Type} (o : Obj A) : wf o -> spread [] o = o.
Proof.
  intros Hwf. rewrite spread_disjoint; [reflexivity | assumption |].
  intros k _ [].
Qed.

(** Reads of an object after [set] and [delete]. *)
Lemma read_set_same {A} k (v : A) o : read k (set k v o) = Some (Own v).
Proof. unfold read. now rewrite get_set_same. Qed.

Lemma read_set_other {A} k k' (v : A) o :
  k' <> k -> read k' (set k v o) = read k' o.
Proof. intros H. unfold read. now rewrite (get_set_other _ _ _ _ H). Qed.

Lemma read_delete_same {A} k (o : Obj A) :
  read k (delete k o) = if inPrototype k then Some (Inherited k) else None.
Proof. unfold read. now rewrite get_delete_same. Qed.

Lemma read_delete_other {A} k k' (o : Obj A) :
  k' <> k -> read k' (delete k o) = read k' o.
Proof. intros H. unfold read. now rewrite (get_delete_other _ _ _ H). Qed.

Section WithMapper.
Variable conv : FieldConfigDefinition -> Completion FieldConfig.

Lemma setFieldExtensions_present f fc ext s :
  get f (_gqcFields s) = Some fc ->
  setFieldExtensions conv f ext s
  = setField conv f (FieldAsObject (withExtensions (Own fc) ext)) s.
Proof.
  intros E. unfold setFieldExtensions.
  now rewrite (bind_returns _ _ _ _ _ (getField_present f fc s E)).
Qed.


(** The composer once [setField] has stored, under an existing field, a
    config that carries the extension bag [ext]. *)
Lemma rebagged f fc fc' ext s :
  get f (_gqcFields s) = Some fc ->
  fc_extensions fc' = Some ext ->
  let s' := withFields (set f fc' (_gqcFields s)) s in
  getFieldExtensions f s' = (Returns ext, s')
  /\ keys (_gqcFields s') = keys (_gqcFields s)
  /\ (forall g, g <> f -> get g (_gqcFields s') = get g (_gqcFields s)).
Proof.
  intros E Hext s'. split; [|split].
  - rewrite (getFieldExtensions_present f fc' s'); [now rewrite Hext|].
    apply get_set_same.
  - exact (keys_set_present _ _ _ _ E).
  - intros g Hne. now apply get_set_other.
Qed.

Lemma setFieldExtension_run f n v fc s :
  get f (_gqcFields s) = Some fc ->
  setFieldExtension conv f n v s
  = setField conv f
      (FieldAsObject
         (withExtensions (Own fc) (set n v (orEmpty (fc_extensions fc))))) s.
Proof.
  intros E. unfold setFieldExtension, extendFieldExtensions.
  rewrite (bind_returns _ _ _ _ _ (getFieldExtensions_present f fc s E)).
  now apply setFieldExtensions_present.
Qed.


(** X13. [setFieldExtension] on a field that exists hands the type
    mapper the field's config with the extension set in its bag. An
    error of the mapper is passed on and nothing changes. When the
    mapper returns a config that carries the bag it was handed, the call
    returns; afterwards [getFieldExtension] gives the value that was set
    and [hasFieldExtension] is true for that name (also when the value
    is [undefined]), the other extension names read as before, and the
    field order and the other fields are as before. For a field name
    under which the read of the field map finds nothing (no field and no
    member of [Object.prototype]), [setFieldExtension],
    [getFieldExtension] and [hasFieldExtension] throw the missing-field
    error and change nothing. *)
Theorem setFieldExtension_reads_back (f n : string) (v : Value) (s : State) :
  (forall fc, get f (_gqcFields s) = Some fc ->
     let current := orEmpty (fc_extensions fc) in
     let handed := FieldAsObject (withExtensions (Own fc) (set n v current)) in
     (forall e, conv handed = Throws e ->
        setFieldExtension conv f n v s = (Throws e, s))
     /\
     (forall fc', conv handed = Returns fc' ->
        fc_extensions fc' = Some (set n v current) ->
        let s' := after (setFieldExtension conv f n v) s in
        outcome (setFieldExtension conv f n v) s = Returns tt
        /\ getFieldExtension f n s' = (Returns (Own v), s')
        /\ hasFieldExtension f n s' = (Returns true, s')
        /\ (forall m, m <> n ->
              getFieldExtension f m s' = (Returns (getOr m current), s')
              /\ hasFieldExtension f m s' = (Returns (isIn m current), s'))
        /\ keys (_gqcFields s') = keys (_gqcFields s)
        /\ (forall g, g <> f ->
              get g (_gqcFields s') = get g (_gqcFields s))))
  /\
  (get f (_gqcFields s) = None ->
   inPrototype f = false ->
     setFieldExtension conv f n v s
     = (Throws (VError (noFieldMessage f s)), s)
     /\ getFieldExtension f n s = (Throws (VError (noFieldMessage f s)), s)
     /\ hasFieldExtension f n s = (Throws (VError (noFieldMessage f s)), s)).
Proof.
  split.
  - intros fc E current handed. split.
    + intros e He. rewrite (setFieldExtension_run f n v fc s E).
      rewrite FieldLaws.setField_run. fold current. fold handed.
      now rewrite He.
    + intros fc' Hfc' Hext s'.
      assert (Hrun : setFieldExtension conv f n v s
                     = (Returns tt,
                        withFields (set f fc' (_gqcFields s)) s)).
      { rewrite (setFieldExtension_run f n v fc s E).
        rewrite FieldLaws.setField_run. fold current. fold handed.
        now rewrite Hfc'. }
      unfold outcome. subst s'. unfold after. rewrite Hrun. cbn [fst snd].
      destruct (rebagged f fc fc' _ s E Hext) as (Hbag & Hk & Hg).
      assert (Hstored : get f (_gqcFields
                           (withFields (set f fc' (_gqcFields s)) s))
                        = Some fc') by apply get_set_same.
      split; [reflexivity|].
      split; [|split; [|split; [|split; [exact Hk | exact Hg]]]].
      * rewrite (getFieldExtension_present f n fc' _ Hstored), Hext.
        cbn [orEmpty]. unfold getOr. now rewrite read_set_same.
      * rewrite (hasFieldExtension_present f n fc' _ Hstored), Hext.
        cbn [orEmpty]. unfold isIn. now rewrite read_set_same.
      * intros m Hne.
        rewrite (getFieldExtension_present f m fc' _ Hstored),
          (hasFieldExtension_present f m fc' _ Hstored), Hext.
        cbn [orEmpty]. unfold getOr, isIn.
        now rewrite (read_set_other _ _ _ _ Hne).
  - intros E P. split; [|split].
    + unfold setFieldExtension, extendFieldExtensions.
      apply bind_throws. now apply getFieldExtensions_absent.
    + unfold getFieldExtension. apply bind_throws.
      now apply getFieldExtensions_absent.
    + unfold hasFieldExtension. apply bind_throws.
      now apply getFieldExtensions_absent.
Qed.


End WithMapper.

Lemma setFieldExtension_reads_back_witness :
  let call := setFieldExtension TypeMapperModel.convertOutputFieldConfig
                "field3" "second" (VBool true) in
  getFieldExtension "field3" "second" (after call Fixtures.extensionsFixture)
  = (Returns (Own (VBool true)), after call Fixtures.extensionsFixture)
  /\ setFieldExtension TypeMapperModel.convertOutputFieldConfig
       "unexisted" "second" (VBool true) Fixtures.extensionsFixture
     = (Throws (VError
          "Cannot get field 'unexisted' from type 'Readable'. Field does not exist."),
        Fixtures.extensionsFixture).
Proof.
  split.
  - exact (proj1 (proj2 (proj2 (proj1
             (setFieldExtension_reads_back
                TypeMapperModel.convertOutputFieldConfig
                "field3" "second" (VBool true) Fixtures.extensionsFixture)
             _ eq_refl) _ eq_refl eq_refl))).
  - exact (proj1 (proj2
             (setFieldExtension_reads_back
                TypeMapperModel.convertOutputFieldConfig
                "unexisted" "second" (VBool true) Fixtures.extensionsFixture)
             eq_refl eq_refl)).
Defined.


End FieldExtensionLaws.

(* ===================================================================== *)
(** * Relations: rejections, mappers that throw, exposed arguments *)
(* ===================================================================== *)

Module RelationEdgeLaws.
Import ObjFacts StepFacts.

(** X15. [_relationWithResolverToFC] rejects, with its own message and
    without touching the composer: a [resolver] that is no [Resolver]
    instance; failing that, a relation that also gives a truthy [type];
    failing that, a relation that also gives [resolve]. It returns a field
    config exactly in the remaining case, and never changes the
    composer. *)
Theorem relation_rejections (opts : RelationOpts) (fieldName : string)
    (s : State) :
  (forall v, resolverOf opts = NotResolver v ->
     _relationWithResolverToFC opts fieldName s
     = (Throws (VError
          ("You should provide correct Resolver object for relation "
           ++ typeName s ++ "." ++ fieldName)), s))
  /\ (forall r, resolverOf opts = IsResolver r ->
        truthy (o_type opts) = true ->
        _relationWithResolverToFC opts fieldName s
        = (Throws (VError
             ("You can not use `resolver` and `type` properties simultaneously for relation "
              ++ typeName s ++ "." ++ fieldName)), s))
  /\ (forall r resolve, resolverOf opts = IsResolver r ->
        truthy (o_type opts) = false ->
        o_resolve opts = Some resolve ->
        _relationWithResolverToFC opts fieldName s
        = (Throws (VError
             ("You can not use `resolver` and `resolve` properties simultaneously for relation "
              ++ typeName s ++ "." ++ fieldName)), s))
  /\ ((exists fc, _relationWithResolverToFC opts fieldName s = (Returns fc, s))
      <-> (exists r, resolverOf opts = IsResolver r)
          /\ truthy (o_type opts) = false /\ o_resolve opts = None)
  /\ snd (_relationWithResolverToFC opts fieldName s) = s.
Proof.
  unfold _relationWithResolverToFC, resolverOf.
  unfold bind, getTypeName, gets, throwError, ret.
  destruct (match o_resolver opts with Thunked f => f tt | Direct r => r end)
    as [r|v];
    destruct (truthy (o_type opts)); destruct (o_resolve opts);
    (split; [intros; try discriminate; reflexivity|]);
    (split; [intros; try discriminate; reflexivity|]);
    (split; [intros; try discriminate; reflexivity|]);
    (split; [|reflexivity]);
    (split; [intros [fc H]; try discriminate; eauto
            | intros ([rr Hrr] & Ht & Ho); try discriminate; eauto]).
Qed.

Lemma relation_rejections_witness :
  _relationWithResolverToFC MoreFixtures.notResolverRelation "posts"
    Fixtures.abcFixture
  = (Throws (VError
       "You should provide correct Resolver object for relation MyType.posts"),
     Fixtures.abcFixture).
Proof.
  exact (proj1 (relation_rejections MoreFixtures.notResolverRelation "posts"
                  Fixtures.abcFixture) VNull eq_refl).
Defined.

Lemma runMappers_stops pre argName argFn post source args context info e :
  (forall n f, In (n, f) pre ->
               exists v, f source args context info = Returns v) ->
  argFn source args context info = Throws e ->
  forall acc,
    runMappers (pre ++ (argName, argFn) :: post) source args context info acc
    = Throws e.
Proof.
  intros Hpre Hfn. induction pre as [|[k f] pre IH]; intros acc; simpl.
  - now rewrite Hfn.
  - destruct (Hpre k f (or_introl eq_refl)) as [v ->].
    apply IH. intros n g Hin. apply (Hpre n g). now right.
Qed.

(** X16. A [prepareArgs] function that throws ends the call of the
    compiled resolve function: when the functions given before it (in the
    key order of [prepareArgs]) return and it throws [e], the compiled
    function throws [e] whatever the delegate resolver and whatever
    [catchErrors]; nothing is printed. *)
Theorem relation_mapper_throws (opts : RelationOpts) (fieldName : string)
    (s s' : State) (fc : FieldConfig) :
  _relationWithResolverToFC opts fieldName s = (Returns fc, s') ->
  exists resolve,
    fc_resolve fc = Some resolve
    /\ forall source args context info console pre argName argFn post e,
         runtimeOf (orEmpty (o_prepareArgs opts))
         = pre ++ (argName, argFn) :: post ->
         (forall n f, In (n, f) pre ->
                      exists v, f source args context info = Returns v) ->
         argFn source args context info = Throws e ->
         resolve source args context info console = (Throws e, console).
Proof.
  intros H. apply RelationLaws.relation_compiled in H as (r & Hr & -> & ->).
  eexists. split; [reflexivity|].
  intros source args context info console pre argName argFn post e Hrt Hpre Hfn.
  unfold relationResolve, prepareArgs.
  rewrite RelationLaws.prepare_runtime. simpl. rewrite Hrt.
  now rewrite (runMappers_stops _ _ _ _ _ _ _ _ e Hpre Hfn).
Qed.

Lemma relation_mapper_throws_witness :
  exists fc (resolve : ResolveFn),
    _relationWithResolverToFC MoreFixtures.throwingMapperRelation "posts"
      Fixtures.abcFixture
    = (Returns fc, Fixtures.abcFixture)
    /\ fc_resolve fc = Some resolve
    /\ resolve VNull [] VUndefined VUndefined []
       = (Throws (VError "no id"), []).
Proof.
  destruct (relation_mapper_throws MoreFixtures.throwingMapperRelation "posts"
              Fixtures.abcFixture Fixtures.abcFixture _ eq_refl)
    as (resolve & Hres & Hcall).
  eexists _, resolve. split; [reflexivity|]. split; [exact Hres|].
  refine (Hcall VNull [] VUndefined VUndefined [] [] "id" _ [] _
            eq_refl _ eq_refl).
  intros n f [].
Defined.

(** X17. With [catchErrors] true the compiled resolve function never
    returns a rejected promise: whatever the delegate resolver does and
    whatever the [prepareArgs] functions do, a call that returns at all
    returns a fulfilled promise. With a delegate resolver whose field
    config has no resolve function, a call on which the [prepareArgs]
    functions return gives [null] (a promise fulfilled with [null] when
    [catchErrors] is true) and prints nothing. *)
Theorem relation_never_rejects (opts : RelationOpts) (fieldName : string)
    (s s' : State) (fc : FieldConfig) :
  _relationWithResolverToFC opts fieldName s = (Returns fc, s') ->
  exists r resolve,
    resolverOf opts = IsResolver r
    /\ fc_resolve fc = Some resolve
    /\ (catchErrorsOf opts = true ->
        forall source args context info console payload console',
          resolve source args context info console
          = (Returns payload, console') ->
          exists v, payload = Fulfilled v)
    /\ (res_fieldConfigResolve r = None ->
        forall source args context info console,
          mappersReturn (orEmpty (o_prepareArgs opts))
            source args context info ->
          resolve source args context info console
          = (Returns (if catchErrorsOf opts then Fulfilled VNull
                      else Plain VNull), console)).
Proof.
  intros H. apply RelationLaws.relation_compiled in H as (r & Hr & -> & ->).
  eexists r, _. split; [exact Hr|]. split; [reflexivity|]. split.
  - intros Hc source args context info console payload console'.
    unfold relationResolve. rewrite Hc.
    destruct (runMappers _ source args context info _) as [newArgs|e];
      [|discriminate].
    destruct (match res_fieldConfigResolve r with
              | Some resolve => resolve source newArgs context info console
              | None => (Returns (Plain VNull), console)
              end) as [[p|e] c]; simpl; [|discriminate].
    destruct p as [v|v|e]; simpl; intros [= <- _]; eauto.
  - intros Hnone source args context info console Hret.
    unfold relationResolve, prepareArgs.
    rewrite RelationLaws.prepare_runtime. simpl.
    destruct (RelationLaws.runMappers_returns source args context info
                (runtimeOf (orEmpty (o_prepareArgs opts))))
      with (acc := spread args
                     (argsProto
                        (fold_left prepareStep (orEmpty (o_prepareArgs opts))
                           {| argsConfig := res_args r;
                              argsProto := [];
                              argsRuntime := [] |})))
      as [newArgs ->].
    { intros n f Hin. apply (Hret n f).
      now apply RelationLaws.runtimeOf_in. }
    rewrite Hnone. now destruct (catchErrorsOf opts).
Qed.

Lemma relation_never_rejects_witness :
  exists fc (resolve : ResolveFn),
    _relationWithResolverToFC
      (Fixtures.postsRelation (Fixtures.findResolver None VUndefined)
         (Some false))
      "posts" Fixtures.abcFixture = (Returns fc, Fixtures.abcFixture)
    /\ fc_resolve fc = Some resolve
    /\ resolve (VObj [("id", VStr "x")]) [] VUndefined VUndefined []
       = (Returns (Plain VNull), []).
Proof.
  destruct (relation_never_rejects
              (Fixtures.postsRelation (Fixtures.findResolver None VUndefined)
                 (Some false))
              "posts" Fixtures.abcFixture Fixtures.abcFixture _ eq_refl)
    as (r & resolve & Hr & Hres & _ & Hnone).
  injection Hr as <-.
  eexists _, resolve. split; [reflexivity|]. split; [exact Hres|].
  exact (Hnone eq_refl (VObj [("id", VStr "x")]) [] VUndefined VUndefined []
           (RelationLaws.postsRelation_mappersReturn _ _ _ _ _ _)).
Defined.

Lemma prepare_config_filter (o : Obj ArgMapVal) :
  forall acc, wf o ->
  argsConfig (fold_left prepareStep o acc)
  = filter (fun kv => negb (hidesArg o (fst kv))) (argsConfig acc).
Proof.
  induction o as [|[k v] o IH]; intros acc Hwf.
  - simpl. symmetry. apply forallb_filter_id. now apply forallb_forall.
  - inversion Hwf as [|? ? Hnotin Hwf']; subst.
    simpl fold_left. rewrite (IH _ Hwf').
    assert (Hk : hidesArg o k = false)
      by now apply RelationLaws.hidesArg_absent.
    destruct v as [f|d].
    + simpl. rewrite FieldMapLaws.delete_filter, ReorderLaws.filter_filter_and.
      apply filter_ext. intros [k' x]. simpl.
      rewrite RelationLaws.hidesArg_cons.
      destruct (String.eqb_spec k' k) as [->|Hne].
      * now rewrite String.eqb_refl.
      * destruct (String.eqb_spec k k'); [congruence|]. reflexivity.
    + assert (Hd : forall acc',
                 argsConfig acc' = delete k (argsConfig acc) ->
                 d <> VUndefined ->
                 filter (fun kv => negb (hidesArg o (fst kv))) (argsConfig acc')
                 = filter
                     (fun kv => negb (hidesArg ((k, MapData d) :: o) (fst kv)))
                     (argsConfig acc)).
      { intros acc' -> Hd.
        rewrite FieldMapLaws.delete_filter, ReorderLaws.filter_filter_and.
        apply filter_ext. intros [k' x]. simpl.
        rewrite RelationLaws.hidesArg_cons.
        destruct (String.eqb_spec k' k) as [->|Hne].
        - rewrite String.eqb_refl. now destruct d.
        - destruct (String.eqb_spec k k'); [congruence|]. reflexivity. }
      destruct d; try (apply Hd; [reflexivity | discriminate]).
      simpl. apply filter_ext_in. intros [k' x] Hin. simpl.
      rewrite RelationLaws.hidesArg_cons.
      destruct (String.eqb_spec k' k) as [->|Hne]; [|reflexivity].
      now rewrite Hk.
Qed.

(** X18. The arguments a compiled relation exposes are the delegate
    resolver's arguments that [prepareArgs] does not hide, in the order
    the resolver declares them ([prepareArgs] having unique keys). A
    [prepareArgs] key that is no argument of the resolver hides
    nothing. *)
Theorem relation_exposed_order (opts : RelationOpts) (fieldName : string)
    (s s' : State) (fc : FieldConfig) :
  _relationWithResolverToFC opts fieldName s = (Returns fc, s') ->
  wf (orEmpty (o_prepareArgs opts)) ->
  exists r exposed,
    resolverOf opts = IsResolver r
    /\ fc_args fc = Some exposed
    /\ exposed
       = filter (fun kv => negb (hidesArg (orEmpty (o_prepareArgs opts))
                                   (fst kv))) (res_args r)
    /\ keys exposed
       = filter (fun k => negb (hidesArg (orEmpty (o_prepareArgs opts)) k))
           (keys (res_args r))
    /\ ((forall k, In k (keys (orEmpty (o_prepareArgs opts))) ->
                   ~ In k (keys (res_args r))) ->
        exposed = res_args r).
Proof.
  intros H Hwf.
  apply RelationLaws.relation_compiled in H as (r & Hr & -> & ->).
  eexists r, _. split; [exact Hr|]. split; [reflexivity|].
  unfold prepareArgs. rewrite (prepare_config_filter _ _ Hwf). simpl.
  split; [reflexivity|]. split.
  - apply (FieldMapLaws.keys_filter_key
             (fun k => negb (hidesArg (orEmpty (o_prepareArgs opts)) k))).
  - intros Hdis. apply forallb_filter_id. apply forallb_forall.
    intros [k x] Hin. simpl.
    rewrite RelationLaws.hidesArg_absent; [reflexivity|].
    intros Hk. apply (Hdis k Hk). unfold keys. now apply (in_map fst) in Hin.
Qed.

Lemma hidingRelation_wf :
  wf (orEmpty (o_prepareArgs MoreFixtures.hidingRelation)).
Proof. repeat constructor; simpl; intuition discriminate. Qed.

Lemma relation_exposed_order_witness :
  exists fc,
    _relationWithResolverToFC MoreFixtures.hidingRelation "posts"
      Fixtures.abcFixture
    = (Returns fc, Fixtures.abcFixture)
    /\ option_map keys (fc_args fc) = Some ["limit"].
Proof.
  destruct (relation_exposed_order MoreFixtures.hidingRelation "posts"
              Fixtures.abcFixture Fixtures.abcFixture _ eq_refl
              hidingRelation_wf)
    as (r & exposed & Hr & Hargs & _ & Hkeys & _).
  injection Hr as <-.
  eexists. split; [reflexivity|].
  simpl in Hargs. injection Hargs as <-. exact (f_equal Some Hkeys).
Defined.

End RelationEdgeLaws.

(* ===================================================================== *)
(** * Extensions and directives of the type *)
(* ===================================================================== *)

Module TypeExtensionLaws.
Import ObjFacts FieldMethods TypeExtensions.
Import FieldExtensionLaws.

Lemma getExtension_set_same n v slot :
  getExtension n (setExtension n v slot) = Own v.
Proof.
  unfold setExtension, extendExtensions, setExtensions, getExtension.
  cbn [getExtensions].
  change (spread (getExtensions slot) [(n, v)])
    with (set n v (getExtensions slot)).
  now rewrite read_set_same.
Qed.

Lemma getExtension_remove_same n slot :
  getExtension n (removeExtension n slot)
  = if inPrototype n then Inherited n else Own (ExtData VUndefined).
Proof.
  unfold removeExtension, setExtensions, getExtension. cbn [getExtensions].
  rewrite read_delete_same. now destruct (inPrototype n).
Qed.

(** X19. [extendExtensions] merges the object [e] it is given over the
    type's extensions: afterwards a name of [e] reads the value [e] gives
    it, every other name reads what it read before, and [hasExtension],
    which tests [in], is true for the names of [e] and for the names for
    which it was true. [setExtension] is the case of a one-property
    object: the name reads back the value that was set (also when the
    type had no extensions yet, and when the value is [undefined]),
    [hasExtension] is true for it, and every other name reads and tests
    as before. *)
Theorem extendExtensions_merges (e : Extensions) (slot : Slot) :
  wf e ->
  let slot' := extendExtensions e slot in
  (forall m,
      getExtension m slot'
      = match get m e with
        | Some v => Own v
        | None => getExtension m slot
        end
      /\ hasExtension m slot' = (inObj m e || hasExtension m slot)%bool)
  /\ (forall n v,
         let slot1 := setExtension n v slot in
         getExtension n slot1 = Own v
         /\ hasExtension n slot1 = true
         /\ (forall m, m <> n ->
               getExtension m slot1 = getExtension m slot
               /\ hasExtension m slot1 = hasExtension m slot)).
Proof.
  intros Hwf slot'. split.
  - intros m. subst slot'.
    unfold getExtension, hasExtension, extendExtensions, setExtensions.
    cbn [getExtensions]. unfold isIn, read, inObj.
    rewrite (get_spread _ _ _ Hwf).
    destruct (get m e); [split; reflexivity|]. split; reflexivity.
  - intros n v slot1. subst slot1.
    split; [apply getExtension_set_same|].
    unfold setExtension, extendExtensions, setExtensions, getExtension,
      hasExtension.
    cbn [getExtensions]. change (spread (getExtensions slot) [(n, v)])
      with (set n v (getExtensions slot)).
    unfold isIn. rewrite read_set_same. split; [reflexivity|].
    intros m Hm. rewrite (read_set_other _ _ _ _ Hm). split; reflexivity.
Qed.

Lemma extendExtensions_merges_witness :
  let e := [("b", ExtData (VNum 2)); ("c", ExtData (VNum 3))] in
  let slot := Some [("a", ExtData (VNum 1)); ("b", ExtData (VNum 0))] in
  wf e
  /\ getExtension "b" (extendExtensions e slot) = Own (ExtData (VNum 2))
  /\ getExtension "a" (extendExtensions e slot) = Own (ExtData (VNum 1)).
Proof.
  assert (Hwf : wf [("b", ExtData (VNum 2)); ("c", ExtData (VNum 3))]).
  { unfold wf. simpl. repeat constructor; simpl; intuition discriminate. }
  split; [exact Hwf|].
  split.
  - exact (proj1 (proj1 (extendExtensions_merges _
             (Some [("a", ExtData (VNum 1)); ("b", ExtData (VNum 0))]) Hwf)
             "b")).
  - exact (proj1 (proj1 (extendExtensions_merges _
             (Some [("a", ExtData (VNum 1)); ("b", ExtData (VNum 0))]) Hwf)
             "a")).
Defined.

(** X20. [removeExtension] deletes the name from a copy of the type's
    extensions, so that no own property of that name is left:
    [hasExtension], which tests [in], is afterwards true only if the name
    is that of a member of [Object.prototype], and [getExtension] gives
    [undefined] unless it is; the other names read and test as before.
    After [clearExtensions] the same holds of every name. Both also hold
    for a type that had no extensions yet. *)
Theorem removeExtension_removes (n : string) (slot : Slot) :
  wf (getExtensions slot) ->
  let slot' := removeExtension n slot in
  hasExtension n slot' = inPrototype n
  /\ getExtension n slot'
     = (if inPrototype n then Inherited n else Own (ExtData VUndefined))
  /\ (forall m, m <> n ->
        getExtension m slot' = getExtension m slot
        /\ hasExtension m slot' = hasExtension m slot)
  /\ (forall m,
        hasExtension m (clearExtensions slot) = inPrototype m
        /\ getExtension m (clearExtensions slot)
           = (if inPrototype m then Inherited m
              else Own (ExtData VUndefined))).
Proof.
  intros Hwf slot'. subst slot'.
  split; [|split; [apply getExtension_remove_same|split]].
  - unfold removeExtension, setExtensions, hasExtension.
    cbn [getExtensions]. unfold isIn. rewrite read_delete_same.
    now destruct (inPrototype n).
  - intros m Hm.
    unfold removeExtension, setExtensions, getExtension, hasExtension.
    cbn [getExtensions]. rewrite (spread_onto_empty _ Hwf).
    unfold isIn. rewrite (read_delete_other _ _ _ Hm). split; reflexivity.
  - intros m. unfold clearExtensions, setExtensions, hasExtension,
      getExtension. cbn [getExtensions]. unfold isIn, read. simpl.
    now destruct (inPrototype m).
Qed.

Lemma removeExtension_removes_witness :
  let slot := Some [("a", ExtData (VNum 1)); ("b", ExtData (VNum 0))] in
  wf (getExtensions slot)
  /\ hasExtension "a" (removeExtension "a" slot) = false
  /\ getExtension "b" (removeExtension "a" slot) = Own (ExtData (VNum 0)).
Proof.
  assert (Hwf : wf (getExtensions
                      (Some [("a", ExtData (VNum 1));
                             ("b", ExtData (VNum 0))]))).
  { unfold wf. simpl. repeat constructor; simpl; intuition discriminate. }
  split; [exact Hwf|]. split.
  - exact (proj1 (removeExtension_removes "a" _ Hwf)).
  - exact (proj1 (proj1 (proj2 (proj2 (removeExtension_removes "a" _ Hwf)))
             "b" ltac:(discriminate))).
Defined.

Lemma find_first {A : Type} (p : A -> bool) (l : list A) (x : A) :
  find p l = Some x ->
  exists pre post,
    l = pre ++ x :: post /\ p x = true /\ forallb (fun y => negb (p y)) pre = true.
Proof.
  induction l as [|y l IH]; simpl; [discriminate|].
  destruct (p y) eqn:E.
  - intros [= <-]. now exists [], l.
  - intros H. destruct (IH H) as (pre & post & -> & Hp & Hpre).
    exists (y :: pre), post. simpl. now rewrite E.
Qed.

Lemma find_none_names (n : string) (ds : list Directive) :
  find (fun d => String.eqb (dir_name d) n) ds = None
  <-> ~ In n (map dir_name ds).
Proof.
  induction ds as [|d ds IH]; simpl; [tauto|].
  destruct (String.eqb_spec (dir_name d) n) as [->|Hne].
  - split; [discriminate | intros H; exfalso; apply H; now left].
  - rewrite IH. tauto.
Qed.

(** X21. The directives of the type are the array held under the
    extension [directives]; anything else held there, or nothing, reads
    as no directives. For a name that no directive of the array has,
    [getDirectiveByName] gives [undefined]; for a name that some
    directive has, it gives the arguments of the first directive of that
    name in the array (whatever they are, [undefined] included). *)
Theorem getDirectiveByName_first (slot : Slot) :
  (forall ds, getDirectives (setExtension "directives" (ExtArray ds) slot)
              = ds)
  /\ (forall v, getDirectives (setExtension "directives" (ExtData v) slot)
                = [])
  /\ getDirectives (removeExtension "directives" slot) = []
  /\ (forall n, ~ In n (getDirectiveNames slot) ->
                getDirectiveByName n slot = VUndefined)
  /\ (forall n, In n (getDirectiveNames slot) ->
        exists pre d post,
          getDirectives slot = pre ++ d :: post
          /\ dir_name d = n
          /\ ~ In n (map dir_name pre)
          /\ getDirectiveByName n slot = dir_args d).
Proof.
  split; [|split; [|split; [|split]]].
  - intros ds. unfold getDirectives. now rewrite getExtension_set_same.
  - intros v. unfold getDirectives. now rewrite getExtension_set_same.
  - unfold getDirectives. now rewrite getExtension_remove_same.
  - intros n Hn. unfold getDirectiveByName.
    now rewrite (proj2 (find_none_names n _) Hn).
  - intros n Hn. unfold getDirectiveByName.
    destruct (find _ (getDirectives slot)) as [d|] eqn:E.
    + destruct (find_first _ _ _ E) as (pre & post & Hl & Hd & Hpre).
      exists pre, d, post. split; [exact Hl|].
      apply String.eqb_eq in Hd. split; [exact Hd|]. split; [|reflexivity].
      intros Hin. apply in_map_iff in Hin as (y & Hy & Hiny).
      rewrite forallb_forall in Hpre. specialize (Hpre y Hiny).
      rewrite <- Hy, String.eqb_refl in Hpre. discriminate.
    + apply find_none_names in E. contradiction.
Qed.

Lemma getDirectiveByName_first_witness :
  let slot :=
    setExtension "directives"
      (ExtArray [mkDirective "a" (VNum 1); mkDirective "b" (VNum 2);
                 mkDirective "b" (VNum 3)]) None in
  In "b" (getDirectiveNames slot)
  /\ exists pre d post,
       getDirectives slot = pre ++ d :: post
       /\ dir_name d = "b"
       /\ ~ In "b" (map dir_name pre)
       /\ getDirectiveByName "b" slot = dir_args d.
Proof.
  assert (Hin : In "b" (getDirectiveNames
             (setExtension "directives"
                (ExtArray [mkDirective "a" (VNum 1); mkDirective "b" (VNum 2);
                           mkDirective "b" (VNum 3)]) None))).
  { simpl. tauto. }
  split; [exact Hin|].
  exact (proj2 (proj2 (proj2 (proj2 (getDirectiveByName_first _)))) "b" Hin).
Defined.

(** X22. About [getDirectiveById]: it gives the arguments of the directive
    at the index, counted from zero, and [undefined] for an index below zero
    or from the number of directives on. *)
Theorem getDirectiveById_bounds (slot : Slot) (idx : Z) :
  ((idx < 0 \/ Z.of_nat (length (getDirectives slot)) <= idx)%Z ->
   getDirectiveById idx slot = VUndefined)
  /\ ((0 <= idx < Z.of_nat (length (getDirectives slot)))%Z ->
      exists d,
        nth_error (getDirectives slot) (Z.to_nat idx) = Some d
        /\ getDirectiveById idx slot = dir_args d).
Proof.
  unfold getDirectiveById. split.
  - intros [Hlt|Hge].
    + apply Z.ltb_lt in Hlt. now rewrite Hlt.
    + destruct (Z.ltb idx 0); [reflexivity|].
      assert (H : nth_error (getDirectives slot) (Z.to_nat idx) = None)
        by (apply nth_error_None; lia).
      now rewrite H.
  - intros [Hlo Hhi].
    assert (Hlt : Z.ltb idx 0 = false) by (apply Z.ltb_ge; lia).
    rewrite Hlt.
    destruct (nth_error (getDirectives slot) (Z.to_nat idx)) as [d|] eqn:E.
    + now exists d.
    + apply nth_error_None in E. lia.
Qed.

Lemma getDirectiveById_bounds_witness :
  let slot :=
    setExtension "directives"
      (ExtArray [mkDirective "a" (VNum 1); mkDirective "b" (VNum 2)]) None in
  getDirectiveById 2 slot = VUndefined
  /\ exists d,
       nth_error (getDirectives slot) (Z.to_nat 1) = Some d
       /\ getDirectiveById 1 slot = dir_args d.
Proof.
  split.
  - apply (proj1 (getDirectiveById_bounds _ 2)). right. simpl. lia.
  - apply (proj2 (getDirectiveById_bounds _ 1)). simpl. lia.
Defined.

End TypeExtensionLaws.
(* ===================================================================== *)
(** * Interfaces of the type *)
(* ===================================================================== *)

Module InterfaceLaws.
Import Interfaces.
Local Set Warnings "-notation-for-abbreviation".

Section WithInterfaceTypes.

Variables Iface IfaceDef : Type.
Variable getTypeName : Iface -> string.
Variable getComposeTypeName : IfaceDef -> string.
Variable convertInterfaceTypeDefinition : IfaceDef -> Iface.

Local Notation hasI := (hasInterface Iface IfaceDef getTypeName
                          getComposeTypeName).
Local Notation addI := (addInterface Iface IfaceDef getTypeName
                          getComposeTypeName convertInterfaceTypeDefinition).
Local Notation addIs := (addInterfaces Iface IfaceDef getTypeName
                           getComposeTypeName convertInterfaceTypeDefinition).
Local Notation removeI := (removeInterface Iface IfaceDef getTypeName
                             getComposeTypeName).
Local Notation names := (map getTypeName).

Lemma hasInterface_names iface l :
  hasI iface l = existsb (String.eqb (getComposeTypeName iface)) (names l).
Proof.
  unfold hasInterface.
  induction l as [|i l IH]; simpl; [reflexivity|].
  rewrite (String.eqb_sym (getComposeTypeName iface)).
  destruct (String.eqb (getTypeName i) (getComposeTypeName iface));
    [reflexivity | exact IH].
Qed.

Lemma hasInterface_true_iff iface l :
  hasI iface l = true <-> In (getComposeTypeName iface) (names l).
Proof.
  rewrite hasInterface_names, existsb_exists. split.
  - intros (x & Hx & Heq). apply String.eqb_eq in Heq. now subst.
  - intros H. exists (getComposeTypeName iface).
    split; [exact H | apply String.eqb_refl].
Qed.

Lemma names_removeInterface iface l :
  names (removeI iface l)
  = filter (fun n => negb (String.eqb n (getComposeTypeName iface)))
      (names l).
Proof.
  unfold removeInterface.
  induction l as [|i l IH]; simpl; [reflexivity|].
  destruct (String.eqb (getTypeName i) (getComposeTypeName iface)); simpl;
    now rewrite IH.
Qed.

(** X23. About [removeInterface], [hasInterface]: after an interface is
    removed the type no longer has it; whether it has an interface of
    another name is not changed, what is taken out of the list are
    interfaces of that name only, and removing an interface the type does
    not have changes nothing. *)
Theorem removeInterface_removes (iface : IfaceDef) (l : list Iface) :
  hasI iface (removeI iface l) = false
  /\ (forall other,
        getComposeTypeName other <> getComposeTypeName iface ->
        hasI other (removeI iface l) = hasI other l)
  /\ (hasI iface l = false -> removeI iface l = l)
  /\ (exists removed,
        Permutation l (removeI iface l ++ removed)
        /\ forall i, In i removed ->
                     getTypeName i = getComposeTypeName iface).
Proof.
  split; [|split; [|split]].
  - rewrite hasInterface_names, names_removeInterface.
    induction (names l) as [|n ns IH]; simpl; [reflexivity|].
    destruct (String.eqb_spec n (getComposeTypeName iface)) as [->|Hne];
      simpl; [exact IH|].
    rewrite IH, orb_false_r. apply String.eqb_neq. congruence.
  - intros other Hne. rewrite !hasInterface_names, names_removeInterface.
    induction (names l) as [|n ns IH]; simpl; [reflexivity|].
    destruct (String.eqb_spec n (getComposeTypeName iface)) as [->|Hn];
      simpl.
    + rewrite IH.
      destruct (String.eqb_spec (getComposeTypeName other)
                  (getComposeTypeName iface)); [contradiction|reflexivity].
    + now rewrite IH.
  - intros Hno. unfold removeInterface.
    apply forallb_filter_id. apply forallb_forall. intros i Hi.
    destruct (String.eqb_spec (getTypeName i) (getComposeTypeName iface))
      as [Heq|]; [|reflexivity].
    exfalso.
    assert (Hin : hasI iface l = true).
    { apply hasInterface_true_iff. rewrite <- Heq. now apply in_map. }
    congruence.
  - exists (filter (fun i => String.eqb (getTypeName i)
                               (getComposeTypeName iface)) l).
    split.
    + unfold removeInterface. clear.
      induction l as [|i l IH]; simpl; [constructor|].
      destruct (String.eqb (getTypeName i) (getComposeTypeName iface));
        simpl.
      * now apply Permutation_cons_app.
      * now constructor.
    + intros i Hi. apply filter_In in Hi as [_ Hi].
      now apply String.eqb_eq.
Qed.

Lemma names_addInterface iface l :
  namesAgree Iface IfaceDef getTypeName getComposeTypeName
    convertInterfaceTypeDefinition ->
  names (addI iface l)
  = if hasI iface l then names l
    else names l ++ [getComposeTypeName iface].
Proof.
  intros Hagree. unfold addInterface.
  destruct (hasI iface l); simpl; [reflexivity|].
  rewrite map_app. simpl. now rewrite Hagree.
Qed.

Lemma addInterface_prefix iface l : exists added, addI iface l = l ++ added.
Proof.
  unfold addInterface. destruct (hasI iface l); simpl.
  - exists []. now rewrite app_nil_r.
  - now eexists.
Qed.

Lemma hasInterface_addInterface iface d l :
  namesAgree Iface IfaceDef getTypeName getComposeTypeName
    convertInterfaceTypeDefinition ->
  hasI iface (addI d l)
  = (hasI iface l
     || String.eqb (getComposeTypeName iface) (getComposeTypeName d))%bool.
Proof.
  intros Hagree.
  rewrite (hasInterface_names iface (addI d l)),
    (names_addInterface _ _ Hagree).
  destruct (hasI d l) eqn:E.
  - rewrite <- hasInterface_names.
    destruct (String.eqb_spec (getComposeTypeName iface)
                (getComposeTypeName d)) as [Heq|];
      [|now rewrite orb_false_r].
    assert (Hi : hasI iface l = true).
    { rewrite hasInterface_names, Heq, <- hasInterface_names. exact E. }
    now rewrite Hi.
  - rewrite existsb_app, <- hasInterface_names. simpl.
    now rewrite orb_false_r.
Qed.

(** X24. About [addInterface], [addInterfaces], [hasInterface]: where the
    type mapper gives a definition an interface of the name read off the
    definition, adding interfaces never introduces a second interface of a
    name: names that were distinct stay distinct, whatever the list added
    repeats. The interfaces already there stay in front in their order,
    every added definition is an interface of the type afterwards, an
    interface the type has is not added again, and the type has an interface
    afterwards exactly if it had it or its name was added. *)
Theorem addInterfaces_no_duplicates (ifaces : list IfaceDef)
    (l : list Iface) :
  namesAgree Iface IfaceDef getTypeName getComposeTypeName
    convertInterfaceTypeDefinition ->
  NoDup (names l) ->
  let l' := addIs ifaces l in
  NoDup (names l')
  /\ (exists added, l' = l ++ added)
  /\ (forall iface,
        hasI iface l'
        = (hasI iface l
           || existsb (fun d => String.eqb (getComposeTypeName iface)
                                  (getComposeTypeName d)) ifaces)%bool)
  /\ (forall iface, hasI iface l = true -> addI iface l = l).
Proof.
  intros Hagree. revert l.
  induction ifaces as [|d ds IH]; intros l Hnd l'; subst l'.
  - simpl. split; [exact Hnd|]. split; [exists []; now rewrite app_nil_r|].
    split; [intros; now rewrite orb_false_r|].
    intros iface H. unfold addInterface. now rewrite H.
  - assert (Hnd1 : NoDup (names (addI d l))).
    { rewrite (names_addInterface _ _ Hagree).
      destruct (hasI d l) eqn:E; [exact Hnd|].
      apply NoDup_app; [exact Hnd | repeat constructor; simpl; tauto |].
      intros x Hx [<-|[]].
      apply hasInterface_true_iff in Hx. congruence. }
    destruct (IH (addI d l) Hnd1) as (H1 & (added & H2) & H3 & _).
    change (addIs (d :: ds) l) with (addIs ds (addI d l)).
    split; [exact H1|]. split; [|split].
    + destruct (addInterface_prefix d l) as (a1 & Ha1).
      exists (a1 ++ added). rewrite H2, Ha1. now rewrite app_assoc.
    + intros iface. rewrite H3, (hasInterface_addInterface _ _ _ Hagree).
      simpl. now rewrite orb_assoc.
    + intros iface H. unfold addInterface. now rewrite H.
Qed.

End WithInterfaceTypes.

Lemma addInterfaces_no_duplicates_witness :
  let id := fun x : string => x in
  NoDup (map id ["Entity"])
  /\ NoDup (map id (addInterfaces string string id id id
                      ["Node"; "Node"; "Entity"] ["Entity"]))
  /\ addInterfaces string string id id id ["Node"; "Node"; "Entity"]
       ["Entity"]
     = ["Entity"; "Node"].
Proof.
  assert (Hnd : NoDup (map (fun x : string => x) ["Entity"])).
  { repeat constructor. simpl. tauto. }
  split; [exact Hnd|]. split; [|reflexivity].
  exact (proj1 (addInterfaces_no_duplicates string string
                  (fun x => x) (fun x => x) (fun x => x)
                  ["Node"; "Node"; "Entity"] ["Entity"]
                  (fun _ => eq_refl) Hnd)).
Defined.

End InterfaceLaws.

(* ===================================================================== *)
(** * Resolvers of the type *)
(* ===================================================================== *)

Module ResolverLaws.
Import ObjFacts FieldMethods Resolvers.
Local Set Warnings "-notation-for-abbreviation".

Section WithResolverClass.

Variables R Callback Middlewares ResolverDefinition : Type.
Variable name : R -> string.
Variable setDisplayName : string -> R -> R.
Variable wrap : Callback -> R -> Completion R.
Variable wrapResolve : Callback -> R -> Completion R.
Variable withMiddlewares : Middlewares -> R -> Completion R.
Variable construct : ResolverDefinition -> Completion R.

Local Notation St := (ResolverState R).
Local Notation has := (hasResolver R).
Local Notation reg := (registered R).
Local Notation getR := (getResolver R Middlewares withMiddlewares).
Local Notation setR := (setResolver R name setDisplayName).
Local Notation addR := (addResolver R ResolverDefinition name setDisplayName
                          construct).
Local Notation removeR := (removeResolver R).
Local Notation wrapAs := (wrapResolverAs R Callback Middlewares name
                            setDisplayName wrap withMiddlewares).
Local Notation wrapR := (wrapResolver R Callback Middlewares name
                           setDisplayName wrap withMiddlewares).
Local Notation wrapRes := (wrapResolverResolve R Callback Middlewares name
                             setDisplayName wrapResolve withMiddlewares).

(** The error of [getResolver] for a name the type does not have. *)
Local Notation missing n s :=
  (VError ("Type " ++ composerTypeName R s ++ " does not have resolver with name '"
           ++ n ++ "'")).

(** The resolver as [setResolver] stores it: with its display name set. *)
Local Notation named s r :=
  (setDisplayName (composerTypeName R s ++ "." ++ name r) r).

Lemma hasResolver_registered n (s : St) :
  has n s = match reg n s with Some _ => true | None => false end.
Proof. unfold hasResolver, registered. now destruct (_gqcResolvers R s). Qed.

Lemma getResolver_run n mw (s : St) :
  getR n mw s
  = match reg n s with
    | None => (Throws (missing n s), s)
    | Some r => match mw with
                | Some m => (withMiddlewares m r, s)
                | None => (Returns r, s)
                end
    end.
Proof. reflexivity. Qed.

Lemma setResolver_run n r (s : St) :
  setR n (AResolver R r) s
  = (Returns tt,
     withResolvers R
       (set n (named s r)
          (match _gqcResolvers R s with Some m => m | None => [] end)) s).
Proof.
  unfold setResolver, getResolvers.
  now destruct s as [tn [m|]].
Qed.

Lemma registered_set n r (s : St) m :
  reg m (snd (setR n (AResolver R r) s))
  = if String.eqb m n then Some (named s r) else reg m s.
Proof.
  rewrite setResolver_run. unfold registered. cbn.
  destruct (String.eqb_spec m n) as [->|Hne].
  - apply get_set_same.
  - rewrite (get_set_other _ _ _ _ Hne). now destruct (_gqcResolvers R s).
Qed.

Lemma typeName_set n r (s : St) :
  composerTypeName R (snd (setR n (AResolver R r) s)) = composerTypeName R s.
Proof. now rewrite setResolver_run. Qed.

(** X25. About [setResolver], [getResolver], [hasResolver]: [setResolver]
    with a [Resolver] returns, and the type then has a resolver of that
    name: [getResolver] gives the resolver set, its display name being the
    type name, a dot and the resolver's own name. The resolvers under other
    names and the type name are untouched. With anything but a [Resolver] it
    throws and registers nothing; no case depends on whether the type had a
    resolver map before. *)
Theorem setResolver_registers (n : string) (r : R) (s : St) :
  let s' := snd (setR n (AResolver R r) s) in
  fst (setR n (AResolver R r) s) = Returns tt
  /\ has n s' = true
  /\ getR n None s' = (Returns (named s r), s')
  /\ (forall m, m <> n ->
        has m s' = has m s /\ fst (getR m None s') = fst (getR m None s))
  /\ composerTypeName R s' = composerTypeName R s
  /\ (forall v,
        fst (setR n (NotAResolver R v) s)
        = Throws (VError "setResolver() accept only Resolver instance")
        /\ forall m, reg m (snd (setR n (NotAResolver R v) s)) = reg m s).
Proof.
  intros s'.
  assert (Hsame : reg n s' = Some (named s r)).
  { subst s'. now rewrite registered_set, String.eqb_refl. }
  assert (Hother : forall m, m <> n -> reg m s' = reg m s).
  { intros m Hm. subst s'. rewrite registered_set.
    now destruct (String.eqb_spec m n). }
  assert (Htn : composerTypeName R s' = composerTypeName R s) by apply typeName_set.
  split; [now rewrite setResolver_run|].
  split; [now rewrite hasResolver_registered, Hsame|].
  split; [now rewrite getResolver_run, Hsame|].
  split; [|split; [exact Htn|]].
  - intros m Hm.
    rewrite !hasResolver_registered, !getResolver_run, (Hother m Hm), Htn.
    split; [reflexivity|]. now destruct (reg m s).
  - intros v. unfold setResolver, getResolvers, registered.
    destruct s as [tn [mp|]]; simpl; split; reflexivity.
Qed.

(** X26. About [getResolver], [hasResolver]: [getResolver] never changes the
    composer. For a name the type does not have it throws the error that
    names the type and the resolver, with or without middlewares; for a name
    it has it gives the registered resolver, and with an array of
    middlewares what [withMiddlewares] makes of that resolver. *)
Theorem getResolver_has_or_throws (n : string) (s : St) :
  (forall mw, snd (getR n mw s) = s)
  /\ (has n s = false ->
      forall mw, fst (getR n mw s) = Throws (missing n s))
  /\ (has n s = true ->
      exists r,
        reg n s = Some r
        /\ fst (getR n None s) = Returns r
        /\ forall m, fst (getR n (Some m) s) = withMiddlewares m r).
Proof.
  split; [|split].
  - intros mw. rewrite getResolver_run.
    destruct (reg n s); [now destruct mw | reflexivity].
  - intros Hno mw. rewrite hasResolver_registered in Hno.
    rewrite getResolver_run. now destruct (reg n s).
  - intros Hyes. rewrite hasResolver_registered in Hyes.
    destruct (reg n s) as [r|] eqn:E; [|discriminate].
    exists r. split; [reflexivity|].
    split; [|intros m]; rewrite getResolver_run, E; reflexivity.
Qed.

(** X27. About [removeResolver]: removing a resolver by a non-empty name
    leaves the type without a resolver of that name, so that [getResolver]
    throws for it; the resolvers under other names stay. The empty name
    removes nothing and leaves the composer as it is. *)
Theorem removeResolver_removes (n : string) (s : St) :
  n <> "" ->
  let s' := removeR n s in
  has n s' = false
  /\ fst (getR n None s') = Throws (missing n s)
  /\ (forall m, m <> n -> reg m s' = reg m s)
  /\ removeR "" s = s.
Proof.
  intros Hn s'.
  assert (Hs' : s' = withResolvers R
                       (delete n (match _gqcResolvers R s with
                                  | Some m => m | None => [] end)) s).
  { subst s'. unfold removeResolver, getResolvers.
    destruct (String.eqb_spec n "") as [|_]; [contradiction|].
    now destruct s as [tn [m|]]. }
  assert (Hreg : reg n s' = None).
  { rewrite Hs'. unfold registered. cbn. apply get_delete_same. }
  split; [now rewrite hasResolver_registered, Hreg|].
  split; [rewrite getResolver_run, Hreg, Hs'; reflexivity|].
  split; [|reflexivity].
  intros m Hm. rewrite Hs'. unfold registered. cbn.
  rewrite (get_delete_other _ _ _ Hm). now destruct (_gqcResolvers R s).
Qed.

(** X28. About [addResolver]: [addResolver] throws for an empty argument and
    for a resolver without a name, each with its own message, and for a
    definition the constructor rejects with the constructor's error; in
    these cases the composer is unchanged. Otherwise it registers the
    resolver, given or made of the definition, under the resolver's own
    name. *)
Theorem addResolver_registers (s : St) :
  addR (Empty R ResolverDefinition) s
  = (Throws (VError "addResolver called with empty Resolver"), s)
  /\ (forall r, name r = "" ->
        addR (AsResolver R ResolverDefinition r) s
        = (Throws (VError "resolver should have non-empty `name` property"),
           s))
  /\ (forall r, name r <> "" ->
        addR (AsResolver R ResolverDefinition r) s
        = setR (name r) (AResolver R r) s
        /\ reg (name r) (snd (addR (AsResolver R ResolverDefinition r) s))
           = Some (named s r))
  /\ (forall d e, construct d = Throws e ->
        addR (AsDefinition R ResolverDefinition d) s = (Throws e, s))
  /\ (forall d r, construct d = Returns r ->
        addR (AsDefinition R ResolverDefinition d) s
        = addR (AsResolver R ResolverDefinition r) s).
Proof.
  split; [reflexivity|]. split; [|split; [|split]].
  - intros r Hr. unfold addResolver, addResolverInstance. now rewrite Hr.
  - intros r Hr.
    assert (H : addR (AsResolver R ResolverDefinition r) s
                = setR (name r) (AResolver R r) s).
    { unfold addResolver, addResolverInstance.
      destruct (String.eqb_spec (name r) ""); [contradiction|reflexivity]. }
    split; [exact H|].
    now rewrite H, registered_set, String.eqb_refl.
  - intros d e Hd. unfold addResolver. now rewrite Hd.
  - intros d r Hd. unfold addResolver. now rewrite Hd.
Qed.

(** X29. About [wrapResolverAs], [wrapResolver], [wrapResolverResolve]:
    wrapping needs the source resolver: for a name the type does not have,
    the three methods throw [getResolver]'s error and change nothing, and an
    error of the wrapping itself leaves the composer unchanged as well.
    Otherwise [wrapResolverAs] registers the wrapped resolver under the new
    name and, where the new name differs, keeps the source resolver;
    [wrapResolver] is [wrapResolverAs] onto the same name. *)
Theorem wrapResolverAs_registers (n from : string) (cb : Callback)
    (s : St) :
  (has from s = false ->
   wrapAs n from cb s = (Throws (missing from s), s)
   /\ wrapRes from cb s = (Throws (missing from s), s))
  /\ (forall r e, reg from s = Some r -> wrap cb r = Throws e ->
        wrapAs n from cb s = (Throws e, s))
  /\ (forall r e, reg from s = Some r -> wrapResolve cb r = Throws e ->
        wrapRes from cb s = (Throws e, s))
  /\ (forall r r', reg from s = Some r -> wrap cb r = Returns r' ->
        let s' := snd (wrapAs n from cb s) in
        fst (wrapAs n from cb s) = Returns tt
        /\ reg n s' = Some (named s r')
        /\ (n <> from -> reg from s' = Some r)
        /\ forall m, m <> n -> reg m s' = reg m s)
  /\ (forall r r', reg from s = Some r -> wrapResolve cb r = Returns r' ->
        fst (wrapRes from cb s) = Returns tt
        /\ reg from (snd (wrapRes from cb s)) = Some (named s r'))
  /\ wrapR from cb s = wrapAs from from cb s.
Proof.
  split; [|split; [|split; [|split; [|split]]]].
  - intros Hno. rewrite hasResolver_registered in Hno.
    unfold wrapResolverAs, wrapResolverResolve.
    rewrite !getResolver_run. now destruct (reg from s).
  - intros r e Hr Hw. unfold wrapResolverAs.
    now rewrite getResolver_run, Hr, Hw.
  - intros r e Hr Hw. unfold wrapResolverResolve.
    now rewrite getResolver_run, Hr, Hw.
  - intros r r' Hr Hw s'.
    assert (H : wrapAs n from cb s = setR n (AResolver R r') s).
    { unfold wrapResolverAs. now rewrite getResolver_run, Hr, Hw. }
    subst s'. rewrite H. split; [now rewrite setResolver_run|].
    split; [now rewrite registered_set, String.eqb_refl|]. split.
    + intros Hne. rewrite registered_set.
      destruct (String.eqb_spec from n); [congruence | exact Hr].
    + intros m Hm. rewrite registered_set.
      now destruct (String.eqb_spec m n).
  - intros r r' Hr Hw.
    assert (H : wrapRes from cb s = setR from (AResolver R r') s).
    { unfold wrapResolverResolve. now rewrite getResolver_run, Hr, Hw. }
    rewrite H. split; [now rewrite setResolver_run|].
    now rewrite registered_set, String.eqb_refl.
  - reflexivity.
Qed.

End WithResolverClass.

Lemma removeResolver_removes_witness :
  "findMany" <> ""
  /\ hasResolver ResolverModel.ModelResolver "findMany"
       (removeResolver ResolverModel.ModelResolver "findMany" ResolverModel.user)
     = false.
Proof.
  assert (Hn : "findMany" <> "") by discriminate.
  split; [exact Hn|].
  exact (proj1 (removeResolver_removes ResolverModel.ModelResolver
                  (list string) ResolverModel.withMiddlewares
                  "findMany" ResolverModel.user Hn)).
Defined.

Lemma getResolver_has_or_throws_witness :
  hasResolver ResolverModel.ModelResolver "findMany" ResolverModel.user = true
  /\ exists r,
       registered ResolverModel.ModelResolver "findMany" ResolverModel.user
       = Some r
       /\ fst (getResolver ResolverModel.ModelResolver (list string)
                 ResolverModel.withMiddlewares "findMany" None
                 ResolverModel.user) = Returns r
       /\ forall m,
            fst (getResolver ResolverModel.ModelResolver (list string)
                   ResolverModel.withMiddlewares "findMany" (Some m)
                   ResolverModel.user)
            = ResolverModel.withMiddlewares m r.
Proof.
  split; [reflexivity|].
  exact (proj2 (proj2 (getResolver_has_or_throws ResolverModel.ModelResolver
                         (list string) ResolverModel.withMiddlewares
                         "findMany" ResolverModel.user)) eq_refl).
Defined.

Lemma addResolver_registers_witness :
  ResolverModel.r_name ResolverModel.findMany <> ""
  /\ registered ResolverModel.ModelResolver "findMany"
       (snd (addResolver ResolverModel.ModelResolver string ResolverModel.r_name
               ResolverModel.setDisplayName ResolverModel.construct
               (AsResolver ResolverModel.ModelResolver string
                  ResolverModel.findMany)
               ResolverModel.fresh))
     = Some (ResolverModel.setDisplayName "User.findMany"
               ResolverModel.findMany).
Proof.
  assert (Hn : ResolverModel.r_name ResolverModel.findMany <> "")
    by discriminate.
  split; [exact Hn|].
  exact (proj2 (proj1 (proj2 (proj2
           (addResolver_registers ResolverModel.ModelResolver string
              ResolverModel.r_name ResolverModel.setDisplayName
              ResolverModel.construct ResolverModel.fresh)))
           ResolverModel.findMany Hn)).
Defined.

Lemma wrapResolverAs_registers_witness :
  registered ResolverModel.ModelResolver "findMany"
    (snd (wrapResolverAs ResolverModel.ModelResolver string (list string)
            ResolverModel.r_name ResolverModel.setDisplayName
            ResolverModel.wrap ResolverModel.withMiddlewares
            "logged" "findMany" "log" ResolverModel.user))
  = Some ResolverModel.findMany.
Proof.
  destruct (proj1 (proj2 (proj2 (proj2
              (wrapResolverAs_registers ResolverModel.ModelResolver string
                 (list string) ResolverModel.r_name
                 ResolverModel.setDisplayName ResolverModel.wrap
                 ResolverModel.wrap ResolverModel.withMiddlewares
                 "logged" "findMany" "log" ResolverModel.user))))
              ResolverModel.findMany _ eq_refl eq_refl) as (_ & _ & H & _).
  apply H. discriminate.
Defined.

End ResolverLaws.
